(** * Execution scheduling of a parent order: shallow embedding and properties

    The development embeds the scheduling core of
    [src/core/environment/limit_orders_setup/execution_algo.py] and the
    volume/reward logic of [base_env.py].

    Conventions of the embedding.
    - Timestamps ([datetime]) are integers: microseconds since an arbitrary
      origin.  A [timedelta] is an integer number of microseconds, which is
      what Python stores.
    - Quantities that the program holds as [Decimal] are exact rationals
      ([Q]), and arithmetic on them is exact, as [Decimal] arithmetic is
      within the 28 digits of its context.  Where the program inspects the
      representation of a [Decimal] (the exponent of the tick size), the
      record [Decimal] keeps coefficient and exponent apart.
    - In the volume splitting ([split_across_buckets] and the two methods of
      [TWAPAlgo] that call it) the program converts to [float] and the
      results of [int], [math.floor], [divmod] and [<] depend on how each
      operation rounds.  There a [float] is a binary64 number ([float64]):
      a significand of 53 bits, every operation rounded to the nearest
      number of that form, ties to the even significand, and [str] of a
      float is the shortest decimal that reads back as the same float.  The
      exponent is unbounded: overflow, subnormal numbers, infinities and NaN
      are not modelled, so the model is the program as long as every float
      it meets lies between 2^-1022 and 2^1024 in magnitude (or is zero).
      Elsewhere (prices, rewards, bucket widths) a [float] is the rational
      it stands for.
    - Exceptions are values of [exn]; a call either returns, raises, or (for
      the two unbounded [while] loops) runs out of the fuel given to it.
    - The two sources of randomness, [random.randint] and the configured
      placement function, are oracles: functions from the number of calls made
      so far to the value returned by the next call. *)

From Stdlib Require Import ZArith QArith Qround Qabs Qpower Lia Lqa String Floats.
From stdpp Require Import gmap strings list pretty sorting.

Local Open Scope Q_scope.

(** ** Python run-time notions *)

Inductive exn : Type :=
  | ValueError (msg : string)
  | ZeroDivisionError
  | IndexError
  | KeyError.

Inductive result (A : Type) : Type :=
  | Ok (a : A)
  | Raise (e : exn)
  | OutOfFuel.

Arguments Ok {A} a.
Arguments Raise {A} e.
Arguments OutOfFuel {A}.

#[global] Instance result_ret : MRet result := λ A a, Ok a.
#[global] Instance result_bind : MBind result := λ A B f m,
  match m with
  | Ok a => f a
  | Raise e => Raise e
  | OutOfFuel => OutOfFuel
  end.

#[global] Instance result_fmap : FMap result := λ A B f m,
  match m with
  | Ok a => Ok (f a)
  | Raise e => Raise e
  | OutOfFuel => OutOfFuel
  end.

(** [x < y] on rationals as a boolean. *)
Definition Qltb (x y : Q) : bool := negb (Qle_bool y x).

(** [int(x)] of a float: truncation towards zero. *)
Definition py_int (x : Q) : Z :=
  if Qle_bool 0 x then Qfloor x else Qceiling x.

(** [x / y] of two numbers. *)
Definition py_truediv (x y : Q) : result Q :=
  if Qeq_bool y 0 then Raise ZeroDivisionError else Ok (x / y).

(** Rounding to the nearest integer, ties to even: what [timedelta] does
    with a fractional number of microseconds. *)
Definition round_half_even (x : Q) : Z :=
  let f := Qfloor x in
  let r := x - inject_Z f in
  if Qltb r (1 # 2) then f
  else if Qltb (1 # 2) r then (f + 1)%Z
  else if Z.even f then f else (f + 1)%Z.

(** [np.sum] of a list of decimals. *)
Definition Qsum (l : list Q) : Q := foldr Qplus 0 l.

(** [l[i]] for a non-negative index. *)
Definition py_index {A} (l : list A) (i : nat) : result A :=
  match l !! i with
  | Some x => Ok x
  | None => Raise IndexError
  end.

(** [l[-k]] for [k >= 1]. *)
Definition py_index_back {A} (l : list A) (k : nat) : result A :=
  if decide (k ≤ length l)%nat then py_index l (length l - k) else Raise IndexError.

(** A [Decimal]: [coefficient * 10 ^ exponent]. *)
Record Decimal : Type := { coefficient : Z; exponent : Z }.

Definition Dval (d : Decimal) : Q := inject_Z (coefficient d) * 10 ^ exponent d.

(** ** Binary floating point *)

(** A [float]: the number [mant * 2 ^ expo], with a significand below
    [2 ^ 53] in magnitude. *)
Record float64 : Type := {
  mant : Z;
  expo : Z;
  mant_bound : (Z.abs mant <? 2 ^ 53)%Z = true
}.

(** The rational a float stands for. *)
Definition F2Q (x : float64) : Q := inject_Z (mant x) * 2 ^ expo x.

Coercion F2Q : float64 >-> Q.

(** The exponent [e] with [2 ^ e <= |x| < 2 ^ (e + 1)], for [x] other than 0. *)
Definition binade (x : Q) : Z :=
  let e := (Z.log2 (Z.abs (Qnum x)) - Z.log2 (Z.pos (Qden x)))%Z in
  if Qle_bool (2 ^ e) (Qabs x) then e else (e - 1)%Z.

(** The float of significand [m] and exponent [e]; a significand of
    magnitude [2 ^ 53], which rounding up from just below produces, is
    [2 ^ 52] at the next exponent. *)
Definition float_of_mant (m e : Z) : float64 :=
  match (Z.abs m <? 2 ^ 53)%Z as b return (Z.abs m <? 2 ^ 53)%Z = b → float64 with
  | true => λ H, {| mant := m; expo := e; mant_bound := H |}
  | false => λ _,
      if (0 <? m)%Z then {| mant := 2 ^ 52; expo := e + 1; mant_bound := eq_refl |}
      else {| mant := - 2 ^ 52; expo := e + 1; mant_bound := eq_refl |}
  end eq_refl.

(** Rounding a positive [x] to the nearest float, ties to even: [x] is
    scaled so that it lies between [2 ^ 52] and [2 ^ 53] and rounded to an
    integer. *)
Definition fl_pos (x : Q) : float64 :=
  let e := binade x in
  float_of_mant (round_half_even (x * 2 ^ (52 - e))) (e - 52).

Definition float_neg (x : float64) : float64 := float_of_mant (- mant x) (expo x).

(** Rounding to the nearest float: the magnitude is rounded and the sign
    put back. *)
Definition fl (x : Q) : float64 :=
  if Qle_bool 0 x then fl_pos x else float_neg (fl_pos (- x)).

(** [float(d)] of a [Decimal] or an [int]. *)
Definition py_float (d : Q) : float64 := fl d.

(** The conversion of an [int] operand of a float operation. *)
Definition float_of_int (n : Z) : float64 := fl (inject_Z n).

(** [x * y] and [x - y] of floats. *)
Definition float_mul (x y : float64) : float64 := fl (x * y).

Definition float_sub (x y : float64) : float64 := fl (x - y).

Definition float_add (x y : float64) : float64 := fl (x + y).

(** [x / y] of floats. *)
Definition float_truediv (x y : float64) : result float64 :=
  if Qeq_bool y 0 then Raise ZeroDivisionError else Ok (fl (x / y)).

(** [a / b] of two [int]s, which Python rounds once, from the exact
    quotient; [timedelta / timedelta] is this division of the two numbers
    of microseconds. *)
Definition int_truediv (a b : Z) : result float64 :=
  if (b =? 0)%Z then Raise ZeroDivisionError
  else Ok (fl (inject_Z a / inject_Z b)).

(** [math.floor(x)]. *)
Definition math_floor (x : float64) : Z := Qfloor x.

(** C's [fmod]: the remainder of the quotient truncated towards zero.  It
    is a float exactly, so that the rounding leaves it as it is. *)
Definition fmod (x y : float64) : float64 :=
  fl (x - inject_Z (py_int (x / y)) * y).

(** [divmod(vx, wx)] of floats, as CPython's [float_divmod] computes it:
    the remainder by [fmod], given the sign of the divisor, and the quotient
    from [(vx - mod) / wx], snapped to the nearest integral value. *)
Definition float_divmod (vx wx : float64) : result (float64 * float64) :=
  if Qeq_bool wx 0 then Raise ZeroDivisionError
  else
    let md := fmod vx wx in
    let div := fl (float_sub vx md / wx) in
    let '(md, div) :=
      if negb (Qeq_bool md 0) && negb (eqb (Qltb wx 0) (Qltb md 0))
      then (float_add md wx, fl (div - 1))
      else (md, div) in
    let floordiv :=
      if Qeq_bool div 0 then fl 0
      else
        let f := fl (inject_Z (Qfloor div)) in
        if Qltb (1 # 2) (float_sub div f) then fl (f + 1) else f in
    Ok (floordiv, md).

(** The search of [str]: the multiples of [10 ^ s] on either side of [x],
    for [s] going down, until one of them reads back as [x]; of two that do,
    the nearer.  [x] is positive. *)
Fixpoint shortest_decimal (fuel : nat) (s : Z) (x : Q) : Q :=
  match fuel with
  | O => x
  | S fuel =>
      let u := 10 ^ s in
      let lo := inject_Z (Qfloor (x / u)) * u in
      let hi := lo + u in
      let ok_lo := Qeq_bool (fl lo) x in
      let ok_hi := Qeq_bool (fl hi) x in
      if ok_lo && ok_hi then (if Qle_bool (x - lo) (hi - x) then Qred lo else Qred hi)
      else if ok_lo then Qred lo
      else if ok_hi then Qred hi
      else shortest_decimal fuel (s - 1) x
  end.

(** [Decimal(str(x))]: the value of the shortest decimal numeral that reads
    back as [x].  The search starts at a power of ten above [|x|] and needs
    at most 17 digits. *)
Definition Decimal_of_str (x : float64) : Q :=
  if Qeq_bool x 0 then 0
  else
    let E := (binade x + 1)%Z in
    let s := if (0 <=? E)%Z then E else Z.quot E 4 in
    let d := shortest_decimal (20 + Z.abs_nat E) s (Qabs x) in
    if Qle_bool 0 x then d else - d.

(** The rational that a binary64 number of the machine stands for, when it
    is finite.  It serves to compare the rounding above with the arithmetic
    of the machine. *)
Definition Q_of_binary64 (f : PrimFloat.float) : option Q :=
  match Prim2SF f with
  | S754_zero _ => Some 0
  | S754_finite s m e => Some ((if s then -1 else 1) * inject_Z (Z.pos m) * 2 ^ e)
  | _ => None
  end.

Definition binary64_agrees (x : float64) (f : PrimFloat.float) : bool :=
  match Q_of_binary64 f with
  | Some q => Qeq_bool x q
  | None => false
  end.

(** ** [split_across_buckets] *)

Definition split_across_buckets (quantity : float64) (n_splits : nat) (ticks : float64)
  : result (list Q) :=
  inv_ticks ← float_truediv (float_of_int 1) ticks;
  let per_unit := float_of_int (py_int (inv_ticks : float64)) in
  '(base_vol, extra_vol) ←
    float_divmod (float_mul quantity per_unit) (float_of_int (Z.of_nat n_splits));
  base_vol ← float_truediv base_vol per_unit;
  let base_vol := Decimal_of_str base_vol in
  extra_vol ← float_truediv extra_vol per_unit;
  let extra_vol := Decimal_of_str extra_vol in
  let ticks_dec := Decimal_of_str ticks in
  Ok (map (λ i : nat,
         base_vol
         + (if Qltb (inject_Z (Z.of_nat i) * ticks_dec) extra_vol then ticks_dec else 0))
        (seq 0 n_splits)).

(** ** [Bucket]: the partition of the order's time span *)

Definition BUCKET_SIZES_IN_SECS : gmap string Q :=
  list_to_map
    [("1m"%string, 7); ("2m"%string, 15); ("3m"%string, 45 # 2);
     ("4m"%string, 24); ("5m"%string, 30); ("10m"%string, 60);
     ("30m"%string, 180); ("1h"%string, 300); ("2h"%string, 600);
     ("3h"%string, 900); ("4h"%string, 1200)].

Record Bucket : Type := {
  start_time : Z;
  end_time : Z;
  duration : Z;
  bucket_width : Q;
  rand_width : option Z;
  bucket_bounds : list Z;
  n_buckets : nat
}.

(** [timedelta.total_seconds()]. *)
Definition total_seconds (td : Z) : Q := inject_Z td / 1000000.

(** [timedelta(days=0, seconds=x)] for a float [x]. *)
Definition timedelta_of_seconds (x : Q) : Z := round_half_even (x * 1000000).

Definition _bucket_size (duration : Z) : result Q :=
  let duration_in_m := total_seconds duration / 60 in
  let dur_key : string :=
    if Qltb 30 duration_in_m then
      let ceil_duration_in_h := (Qfloor (duration_in_m / 60) + 1)%Z in
      let ceil_duration_in_h :=
        if (5 <=? ceil_duration_in_h)%Z then 4%Z else ceil_duration_in_h in
      (pretty ceil_duration_in_h +:+ "h")%string
    else if Qltb 10 duration_in_m && Qle_bool duration_in_m 30 then "30m"%string
    else if Qltb 5 duration_in_m && Qle_bool duration_in_m 10 then "10m"%string
    else (pretty (Qceiling duration_in_m) +:+ "m")%string in
  match BUCKET_SIZES_IN_SECS !! dur_key with
  | Some bucket_width => Ok bucket_width
  | None => Raise KeyError
  end.

(** The draw [randint(-rand_width, rand_width)] of one pass of the loop, or
    0 when no jitter is requested.  [randint] is the oracle, [calls] the number
    of draws made so far. *)
Definition draw_rand_add (randint : nat → Z) (calls : nat) (rand_width : option Z)
  : result (Z * nat) :=
  match rand_width with
  | None => Ok (0%Z, calls)
  | Some w =>
      if (w =? 0)%Z then Ok (0%Z, calls)
      else if (w <? 0)%Z then Raise (ValueError "empty range for randrange()")
      else Ok (randint calls, S calls)
  end.

(** The [while b_bounds[-1] < self.end_time] loop of [bucket_bounds]. *)
Fixpoint bucket_bounds_loop (fuel : nat) (randint : nat → Z) (calls : nat)
    (bucket_width : Q) (rand_width : option Z) (end_time : Z) (b_bounds : list Z)
  : result (list Z * nat) :=
  match fuel with
  | O => OutOfFuel
  | S fuel =>
      let prev := default 0%Z (last b_bounds) in
      if (prev <? end_time)%Z then
        '(rand_add, calls) ← draw_rand_add randint calls rand_width;
        bucket_bounds_loop fuel randint calls bucket_width rand_width end_time
          (b_bounds ++
             [(prev + timedelta_of_seconds
                        (bucket_width * (1 + inject_Z rand_add / 100)))%Z])
      else Ok (b_bounds, calls)
  end.

(** [Bucket.bucket_bounds]: the bounds, the number of buckets and the number
    of draws made. *)
Definition Bucket_bucket_bounds (fuel : nat) (randint : nat → Z) (calls : nat)
    (start_time end_time : Z) (bucket_width : Q) (rand_width : option Z)
  : result (list Z * nat * nat) :=
  '(b_bounds, calls) ←
    bucket_bounds_loop fuel randint calls bucket_width rand_width end_time [start_time];
  let b_bounds :=
    if (end_time <=? default 0%Z (last b_bounds))%Z then removelast b_bounds
    else b_bounds in
  let b_bounds := b_bounds ++ [end_time] in
  Ok (b_bounds, (length b_bounds - 1)%nat, calls).

(** [Bucket.__init__]. *)
Definition Bucket_init (fuel : nat) (randint : nat → Z) (calls : nat)
    (start_time end_time : Z) (rand_width : option Z) : result (Bucket * nat) :=
  let duration := (end_time - start_time)%Z in
  if Qltb (total_seconds duration) 0 then
    Raise (ValueError "start_time can't take place before end_time")
  else
    bucket_width ← _bucket_size duration;
    '(b_bounds, n, calls) ←
      Bucket_bucket_bounds fuel randint calls start_time end_time bucket_width rand_width;
    Ok ({| start_time := start_time; end_time := end_time; duration := duration;
           bucket_width := bucket_width; rand_width := rand_width;
           bucket_bounds := b_bounds; n_buckets := n |}, calls).

(** ** [ExecutionAlgo]: the schedule object *)

Record ExecutionAlgo : Type := {
  trade_direction : Z;
  volume : Q;
  no_of_slices : nat;
  tick_size : Decimal;
  buckets : Bucket;
  bucket_volumes : list Q;
  execution_times : list (list Z);
  algo_events : list Z;
  volumes_per_trade : list (list Q);
  volumes_per_trade_default : list (list Q);
  vol_remaining : Q;
  bucket_vol_remaining : list Q;
  event_idx : nat;
  order_idx : nat;
  bucket_idx : nat
}.

Definition set_vol_remaining (v : Q) (a : ExecutionAlgo) : ExecutionAlgo :=
  {| trade_direction := trade_direction a; volume := volume a;
     no_of_slices := no_of_slices a; tick_size := tick_size a;
     buckets := buckets a; bucket_volumes := bucket_volumes a;
     execution_times := execution_times a; algo_events := algo_events a;
     volumes_per_trade := volumes_per_trade a;
     volumes_per_trade_default := volumes_per_trade_default a;
     vol_remaining := v; bucket_vol_remaining := bucket_vol_remaining a;
     event_idx := event_idx a; order_idx := order_idx a;
     bucket_idx := bucket_idx a |}.

Definition set_bucket_vol_remaining (l : list Q) (a : ExecutionAlgo) : ExecutionAlgo :=
  {| trade_direction := trade_direction a; volume := volume a;
     no_of_slices := no_of_slices a; tick_size := tick_size a;
     buckets := buckets a; bucket_volumes := bucket_volumes a;
     execution_times := execution_times a; algo_events := algo_events a;
     volumes_per_trade := volumes_per_trade a;
     volumes_per_trade_default := volumes_per_trade_default a;
     vol_remaining := vol_remaining a; bucket_vol_remaining := l;
     event_idx := event_idx a; order_idx := order_idx a;
     bucket_idx := bucket_idx a |}.

Definition set_bucket_idx (i : nat) (a : ExecutionAlgo) : ExecutionAlgo :=
  {| trade_direction := trade_direction a; volume := volume a;
     no_of_slices := no_of_slices a; tick_size := tick_size a;
     buckets := buckets a; bucket_volumes := bucket_volumes a;
     execution_times := execution_times a; algo_events := algo_events a;
     volumes_per_trade := volumes_per_trade a;
     volumes_per_trade_default := volumes_per_trade_default a;
     vol_remaining := vol_remaining a;
     bucket_vol_remaining := bucket_vol_remaining a;
     event_idx := event_idx a; order_idx := order_idx a;
     bucket_idx := i |}.

(** *** Sampling of the decision times *)

(** What the configured placement function returns: a list, or a single
    number, which [_get_execution_times] wraps in a list. *)
Inductive placement_sample : Type :=
  | SampleList (l : list Q)
  | SampleScalar (q : Q).

Definition as_list (s : placement_sample) : list Q :=
  match s with
  | SampleList l => l
  | SampleScalar q => [q]
  end.

Section Sampling.
(** [bucket_placement_func]: the value of call number [calls] when asked for
    [no_of_slices] placements. *)
Variable bucket_placement_func : nat → nat → placement_sample.

(** [timedelta * float], rounded to the microsecond. *)
Definition timedelta_mul (t_diff : Z) (plcmt : Q) : Z :=
  round_half_even (inject_Z t_diff * plcmt).

Definition _get_execution_times (calls : nat) (no_of_slices : nat)
    (bucket_bounds : list Z) (idx : nat) : result (list Z * nat) :=
  let sample_placements := as_list (bucket_placement_func calls no_of_slices) in
  hi ← py_index bucket_bounds (idx + 1);
  lo ← py_index bucket_bounds idx;
  let t_diff := (hi - lo)%Z in
  Ok (map (λ plcmt, (lo + timedelta_mul t_diff plcmt)%Z) sample_placements, S calls).

(** The condition of the resampling loop. *)
Definition must_resample (no_of_slices : nat) (bucket_bounds bucket_trades : list Z)
  : bool :=
  bool_decide (size (list_to_set bucket_trades : gset Z) < no_of_slices)%nat
  || existsb (λ trade, bool_decide (trade ∈ bucket_bounds)) bucket_trades.

(** The [while] loop of [_sample_execution_times] for bucket [idx]. *)
Fixpoint resample_loop (fuel : nat) (calls : nat) (no_of_slices : nat)
    (bucket_bounds : list Z) (idx : nat) (bucket_trades : list Z)
  : result (list Z * nat) :=
  match fuel with
  | O => OutOfFuel
  | S fuel =>
      if must_resample no_of_slices bucket_bounds bucket_trades then
        '(bucket_trades, calls) ←
          _get_execution_times calls no_of_slices bucket_bounds idx;
        resample_loop fuel calls no_of_slices bucket_bounds idx bucket_trades
      else Ok (bucket_trades, calls)
  end.

(** The [for] loop of [_sample_execution_times] over the bucket indices. *)
Fixpoint sample_buckets (fuel : nat) (calls : nat) (no_of_slices : nat)
    (bucket_bounds : list Z) (idxs : list nat) (exec_times : list (list Z))
  : result (list (list Z) * nat) :=
  match idxs with
  | [] => Ok (exec_times, calls)
  | i :: idxs =>
      '(bucket_trades, calls) ←
        _get_execution_times calls no_of_slices bucket_bounds i;
      '(bucket_trades, calls) ←
        resample_loop fuel calls no_of_slices bucket_bounds i bucket_trades;
      sample_buckets fuel calls no_of_slices bucket_bounds idxs
        (exec_times ++ [bucket_trades])
  end.

(** [_sample_execution_times]: the execution times, the timeline and the
    number of calls of the placement function made. *)
Definition _sample_execution_times (fuel : nat) (calls : nat) (no_of_slices : nat)
    (b : Bucket) : result (list (list Z) * list Z * nat) :=
  '(exec_times, calls) ←
    sample_buckets fuel calls no_of_slices (bucket_bounds b) (seq 0 (n_buckets b)) [];
  let flat_exec_times := concat exec_times in
  let algo_events :=
    merge_sort Z.le (remove_dups (flat_exec_times ++ drop 1 (bucket_bounds b))) in
  Ok (exec_times, algo_events, calls).
End Sampling.

(** A list of decision times that the resampling loop lets through, with as
    many entries as some sample of the placement function. *)
Definition well_sampled (bucket_placement_func : nat → nat → placement_sample)
    (no_of_slices : nat) (bucket_bounds bucket_trades : list Z) : Prop :=
  must_resample no_of_slices bucket_bounds bucket_trades = false
  ∧ ∃ calls,
      length bucket_trades = length (as_list (bucket_placement_func calls no_of_slices)).

(** *** [TWAPAlgo] *)

(** The tick size implied by the volume of the first book snapshot,
    [Decimal(str(1 / (10 ** abs(e))))] for the exponent [e] of that volume.
    [str(1.0)] is ["1.0"], a decimal with coefficient 10 and exponent -1; for
    [1 <= abs(e)] the float prints as [0.1], [0.01], ..., [1e-05], ..., a
    decimal with coefficient 1 and exponent [- abs(e)] (as long as the float
    does not underflow, [abs(e) <= 323]). *)
Definition tick_size_of_exponent (e : Z) : Decimal :=
  if (Z.abs e =? 0)%Z then {| coefficient := 10; exponent := -1 |}
  else {| coefficient := 1; exponent := - Z.abs e |}.

(** [int(1/self.tick_size)]. *)
Definition tick_multiplier (tick : Decimal) : result Z :=
  inv ← py_truediv 1 (Dval tick);
  Ok (py_int inv).

Definition _split_volume_across_buckets (volume : Q) (tick : Decimal) (b : Bucket)
  : result (list Q) :=
  b_last ← py_index_back (bucket_bounds b) 1;
  b_prev ← py_index_back (bucket_bounds b) 2;
  b_first ← py_index (bucket_bounds b) 0;
  perc_last_bucket ← int_truediv (b_last - b_prev) (b_last - b_first);
  m ← tick_multiplier tick;
  vol_last_bucket ←
    int_truediv
      (math_floor (float_mul (float_mul (py_float volume) perc_last_bucket)
                     (float_of_int m)))
      m;
  bucket_vol ←
    split_across_buckets (float_sub (py_float volume) vol_last_bucket)
      (n_buckets b - 1) (py_float (Dval tick));
  Ok (bucket_vol ++ [Decimal_of_str vol_last_bucket]).

(** The [for i in range(self.buckets.n_buckets)] loop of
    [_split_volume_within_buckets]. *)
Fixpoint split_within (idxs : list nat) (bucket_volumes : list Q) (no_of_slices : nat)
    (tick : Decimal) : result (list (list Q)) :=
  match idxs with
  | [] => Ok []
  | i :: idxs =>
      bucket_volume ← py_index bucket_volumes i;
      vols_per_trade ←
        split_across_buckets (py_float bucket_volume) no_of_slices (py_float (Dval tick));
      split_vols ← split_within idxs bucket_volumes no_of_slices tick;
      Ok (vols_per_trade :: split_vols)
  end.

Definition _split_volume_within_buckets (bucket_volumes : list Q) (no_of_slices : nat)
    (tick : Decimal) (b : Bucket) : result (list (list Q)) :=
  split_within (seq 0 (n_buckets b)) bucket_volumes no_of_slices tick.

(** The arguments of the constructor. *)
Record OrderParams : Type := {
  p_trade_direction : Z;
  p_volume : Q;
  p_no_of_slices : nat;
  p_start_time : Z;
  p_end_time : Z;
  p_rand_bucket_bounds_width : option Z
}.

(** [TWAPAlgo.__init__].  [lob_volume_exponent] is the exponent of the volume
    at the best bid of the first snapshot of the data feed.  The cursor
    attributes, which Python creates in [reset], are carried from the start
    with the values [reset] gives them. *)
Definition TWAPAlgo_init (fuel : nat) (randint : nat → Z)
    (bucket_placement_func : nat → nat → placement_sample)
    (lob_volume_exponent : Z) (p : OrderParams) : result ExecutionAlgo :=
  let tick := tick_size_of_exponent lob_volume_exponent in
  '(b, _) ← Bucket_init fuel randint 0 (p_start_time p) (p_end_time p)
             (p_rand_bucket_bounds_width p);
  bucket_vol ← _split_volume_across_buckets (p_volume p) tick b;
  if Qltb (Dval tick) (Qabs (Qsum bucket_vol - p_volume p)) then
    Raise (ValueError "Volumes split across buckets didn't work out!")
  else
    '(exec_times, events, _) ←
      _sample_execution_times bucket_placement_func fuel 0 (p_no_of_slices p) b;
    split_vols ← _split_volume_within_buckets bucket_vol (p_no_of_slices p) tick b;
    if Qltb (Dval tick) (Qabs (Qsum (concat split_vols) - p_volume p)) then
      Raise (ValueError "Volumes split across orders didn't work out!")
    else
      Ok {| trade_direction := p_trade_direction p; volume := p_volume p;
            no_of_slices := p_no_of_slices p; tick_size := tick;
            buckets := b; bucket_volumes := bucket_vol;
            execution_times := exec_times; algo_events := events;
            volumes_per_trade := split_vols;
            volumes_per_trade_default := split_vols;
            vol_remaining := p_volume p; bucket_vol_remaining := bucket_vol;
            event_idx := 0; order_idx := 0; bucket_idx := 0 |}.

(** [RLAlgo.__init__]: the timeline, buckets and bucket volumes of the
    benchmark, and an allocation table of zeros of the same shape. *)
Definition RLAlgo_init (benchmark_algo : ExecutionAlgo) : ExecutionAlgo :=
  {| trade_direction := trade_direction benchmark_algo;
     volume := volume benchmark_algo;
     no_of_slices := no_of_slices benchmark_algo;
     tick_size := tick_size benchmark_algo;
     buckets := buckets benchmark_algo;
     bucket_volumes := bucket_volumes benchmark_algo;
     execution_times := execution_times benchmark_algo;
     algo_events := algo_events benchmark_algo;
     volumes_per_trade :=
       map (λ orders, map (λ _, 0) orders)
         (take (length (volumes_per_trade benchmark_algo))
            (volumes_per_trade_default benchmark_algo));
     volumes_per_trade_default := volumes_per_trade_default benchmark_algo;
     vol_remaining := volume benchmark_algo;
     bucket_vol_remaining := bucket_volumes benchmark_algo;
     event_idx := 0; order_idx := 0; bucket_idx := 0 |}.

(** *** [update_remaining_volume] *)

(** The entry of a trade log that the schedule reads. *)
Record TradeLog : Type := { quantity : Q }.

Inductive EventType : Type :=
  | order_placement
  | bucket_bound.

#[global] Instance EventType_eq_dec : EqDecision EventType.
Proof. solve_decision. Defined.

(** How a call ended. *)
Inductive outcome : Type :=
  | Returned
  | Raised (e : exn).

(** The error raised by the consistency check. *)
Definition too_much_volume : outcome :=
  Raised (ValueError "More volume than available placed!").

(** [ExecutionAlgo.update_remaining_volume].  The object is mutated in place,
    so the state reached is returned whether the call returns or raises. *)
Definition update_remaining_volume (a : ExecutionAlgo) (trade_log : option TradeLog)
    (event_type : option EventType) : ExecutionAlgo * outcome :=
  let decrement : ExecutionAlgo * outcome :=
    match trade_log with
    | Some log =>
        if Qltb 0 (quantity log) then
          let a := set_vol_remaining (vol_remaining a - quantity log) a in
          match bucket_vol_remaining a !! bucket_idx a with
          | Some v =>
              (set_bucket_vol_remaining
                 (<[bucket_idx a := v - quantity log]> (bucket_vol_remaining a)) a,
               Returned)
          | None => (a, Raised IndexError)
          end
        else (a, Returned)
    | None => (a, Returned)
    end in
  match decrement with
  | (a, Raised e) => (a, Raised e)
  | (a, Returned) =>
      if Qltb (vol_remaining a)
              (- Dval (tick_size a) * inject_Z (Z.of_nat (length (bucket_volumes a))))
      then (a, too_much_volume)
      else
        match bucket_vol_remaining a !! bucket_idx a with
        | None => (a, Raised IndexError)
        | Some v =>
            if Qltb v (- Dval (tick_size a)) then (a, too_much_volume)
            else
              match event_type with
              | Some bucket_bound => (set_bucket_idx (bucket_idx a + 1) a, Returned)
              | _ => (a, Returned)
              end
        end
  end.

(** What the consistency check tests, on the global and the current bucket's
    remaining volume: the floor of the global volume is one tick per bucket. *)
Definition over_drawn (a : ExecutionAlgo) (global current : Q) : Prop :=
  global < - Dval (tick_size a) * inject_Z (Z.of_nat (length (bucket_volumes a)))
  ∨ current < - Dval (tick_size a).

(** ** [BaseEnv]: the coordinator *)

(** The broker is an external collaborator; of it the environment reads the
    two schedules and the volume-weighted average prices of a window of its
    trade logs, [calc_vwap_from_logs(start_date, end_date)], which returns the
    pair (benchmark, adaptive) or raises. *)
Record Broker : Type := {
  benchmark_algo : ExecutionAlgo;
  rl_algo : ExecutionAlgo;
  calc_vwap_from_logs : option Z → option Z → result (Q * Q)
}.

Record BaseEnv : Type := {
  broker : Broker;
  trade_dir : Z;
  done : bool;
  event_time_prev : Z;
  event_time : Z;
  bucket_time_prev : Z;
  bucket_time : Z;
  env_bucket_idx : nat
}.

(** [BaseEnv.infer_volume_from_action]. *)
Definition infer_volume_from_action (env : BaseEnv) (action : Q) : result Q :=
  let rl := rl_algo (broker env) in
  let bmk := benchmark_algo (broker env) in
  row ← py_index (volumes_per_trade rl) (bucket_idx rl);
  current_executing_volume ← py_index row (order_idx rl);
  row_default ← py_index (volumes_per_trade_default bmk) (bucket_idx rl);
  default_volume ← py_index row_default (order_idx rl);
  let vol_to_add := action * default_volume in
  let vol_to_trade := current_executing_volume + vol_to_add in
  let factor := 10 ^ (- exponent (tick_size bmk)) in
  vol_to_trade ← py_truediv (inject_Z (Qfloor (vol_to_trade * factor))) factor;
  remaining ← py_index (bucket_vol_remaining rl) (bucket_idx rl);
  if Qltb remaining vol_to_trade then Ok remaining else Ok vol_to_trade.

(** [try: ... except: reward = 0]. *)
Definition try_except_zero (body : result Q) : result Q :=
  match body with
  | Raise _ => Ok 0
  | r => r
  end.

Definition step_window (env : BaseEnv) : result (Q * Q) :=
  calc_vwap_from_logs (broker env) (Some (event_time_prev env)) (Some (event_time env)).

Definition bucket_window (env : BaseEnv) : result (Q * Q) :=
  calc_vwap_from_logs (broker env) (Some (bucket_time_prev env)) (Some (bucket_time env)).

Module ExampleEnvRewardAtStep.
Definition reward_func (env : BaseEnv) : result Q :=
  '(vwap_bmk, vwap_rl) ← step_window env;
  if (trade_dir env =? 1)%Z then
    Ok (if Qltb vwap_rl vwap_bmk then 1 else 0)
  else
    Ok (if Qltb vwap_bmk vwap_rl then 1 else 0).
End ExampleEnvRewardAtStep.

Module RewardAtStepEnv.
Definition reward_func (env : BaseEnv) : result Q :=
  try_except_zero
    ('(vwap_bmk, vwap_rl) ← step_window env;
     if (trade_dir env =? 1)%Z then
       r ← py_truediv vwap_bmk vwap_rl; Ok (r - 1)
     else
       r ← py_truediv vwap_rl vwap_bmk; Ok (r - 1)).
End RewardAtStepEnv.

Module RewardAtBucketEnv.
Definition reward_func (env : BaseEnv) : result Q :=
  try_except_zero
    (if (bucket_time env =? bucket_time_prev env)%Z then Ok 0
     else
       '(vwap_bmk, vwap_rl) ← bucket_window env;
       if (trade_dir env =? 1)%Z then
         r ← py_truediv vwap_bmk vwap_rl; Ok (r - 1)
       else
         r ← py_truediv vwap_rl vwap_bmk; Ok (r - 1)).
End RewardAtBucketEnv.

Module RewardAtEpisodeEnv.
Definition reward_func (env : BaseEnv) : result Q :=
  try_except_zero
    (if done env then
       '(vwap_bmk, vwap_rl) ← calc_vwap_from_logs (broker env) None None;
       if (trade_dir env =? 1)%Z then
         r ← py_truediv vwap_bmk vwap_rl; Ok (r - 1)
       else
         r ← py_truediv vwap_rl vwap_bmk; Ok (r - 1)
     else Ok 0).
End RewardAtEpisodeEnv.

Module NarrowTradeLimitEnvContinuous.
Definition reward_func (env : BaseEnv) : result Q :=
  try_except_zero
    (if (bucket_time env =? bucket_time_prev env)%Z then Ok 0
     else
       '(vwap_bmk, vwap_rl) ← bucket_window env;
       if (trade_dir env =? 1)%Z then Ok (vwap_bmk - vwap_rl)
       else Ok (vwap_rl - vwap_bmk)).
End NarrowTradeLimitEnvContinuous.

Module NarrowTradeLimitEnvDiscrete.
Definition reward_func (env : BaseEnv) : result Q :=
  row ← py_index (volumes_per_trade (benchmark_algo (broker env))) (env_bucket_idx env);
  let vol := Qsum row in
  try_except_zero
    (if (bucket_time env =? bucket_time_prev env)%Z then Ok 0
     else
       '(vwap_bmk, vwap_rl) ← bucket_window env;
       if (trade_dir env =? 1)%Z then Ok (vol * (vwap_bmk - vwap_rl))
       else Ok (vol * (vwap_rl - vwap_bmk))).
End NarrowTradeLimitEnvDiscrete.

Module DollarRewardAtStepEnv.
Definition reward_func (env : BaseEnv) : result Q :=
  try_except_zero
    ('(vwap_bmk, vwap_rl) ← step_window env;
     if (trade_dir env =? 1)%Z then Ok (vwap_bmk - vwap_rl)
     else Ok (vwap_rl - vwap_bmk)).
End DollarRewardAtStepEnv.

(** The reward policies, one per environment class. *)
Inductive RewardPolicy : Type :=
  | PerStepSign
  | PerStepPercent
  | PerBucketPercent
  | PerEpisodePercent
  | PerBucketDollar
  | PerBucketDollarVolume
  | PerStepDollar.

Definition reward_func (policy : RewardPolicy) (env : BaseEnv) : result Q :=
  match policy with
  | PerStepSign => ExampleEnvRewardAtStep.reward_func env
  | PerStepPercent => RewardAtStepEnv.reward_func env
  | PerBucketPercent => RewardAtBucketEnv.reward_func env
  | PerEpisodePercent => RewardAtEpisodeEnv.reward_func env
  | PerBucketDollar => NarrowTradeLimitEnvContinuous.reward_func env
  | PerBucketDollarVolume => NarrowTradeLimitEnvDiscrete.reward_func env
  | PerStepDollar => DollarRewardAtStepEnv.reward_func env
  end.

(** *** Validation of the configuration *)

(** The numeric entries of the configuration that [_validate_config] reads. *)
Record Config : Type := {
  lob_depth : Z;
  vol_low : Z;
  vol_high : Z;
  no_slices_low : Z;
  no_slices_high : Z;
  rand_bucket_low : Z;
  rand_bucket_high : Z;
  hour_low : Z;
  hour_high : Z;
  minute_low : Z;
  minute_high : Z;
  second_low : Z;
  second_high : Z
}.

(** [BaseEnv._validate_config], without the checks of the key names and of the
    type of the [delete_vol] flag. *)
Definition _validate_config (c : Config) : result unit :=
  if (20 <? lob_depth c)%Z then Raise (ValueError "'lob_depth' must be < 20")
  else if (vol_high c <? vol_low c)%Z then
    Raise (ValueError "'vol_high' must be larger than 'vol_low'")
  else if (no_slices_high c <? no_slices_low c)%Z then
    Raise (ValueError "'no_slices_high' must be larger than 'no_slices_low'")
  else if (rand_bucket_high c <? rand_bucket_low c)%Z then
    Raise (ValueError "'rand_bucket_high' must be larger than 'rand_bucket_low'")
  else if (rand_bucket_low c <? 0)%Z || (100 <? rand_bucket_high c)%Z then
    Raise (ValueError "'rand_bucket_low' and 'rand_bucket_high' have to be percentages")
  else if (hour_high c <? hour_low c)%Z then
    Raise (ValueError "'hour_high' must be larger than 'hour_low'")
  else if (minute_high c <? minute_low c)%Z then
    Raise (ValueError "'minute_high' must be larger than 'minute_low'")
  else if (second_high c <? second_low c)%Z then
    Raise (ValueError "'second_high' must be larger than 'second_low'")
  else Ok tt.

(** ** Concrete schedules used in the examples *)

(** One placement per bucket, in the middle of the bucket. *)
Definition midpoint_placement (calls no_of_slices : nat) : placement_sample :=
  SampleList [1 # 2].

(** A parent order of 2 units over 14 seconds, no jitter, one slice per
    bucket. *)
Definition two_bucket_order : OrderParams :=
  {| p_trade_direction := 1; p_volume := 2; p_no_of_slices := 1;
     p_start_time := 0; p_end_time := 14000000;
     p_rand_bucket_bounds_width := None |}.

(** The schedule built for [two_bucket_order] on a book with whole-number
    volumes (see [two_bucket_algo_built]). *)
Definition two_bucket_algo : ExecutionAlgo :=
  {| trade_direction := 1; volume := 2; no_of_slices := 1;
     tick_size := {| coefficient := 10; exponent := -1 |};
     buckets :=
       {| start_time := 0; end_time := 14000000; duration := 14000000;
          bucket_width := 7; rand_width := None;
          bucket_bounds := [0; 7000000; 14000000]%Z; n_buckets := 2 |};
     bucket_volumes := [1; 1];
     execution_times := [[3500000]; [10500000]]%Z;
     algo_events := [3500000; 7000000; 10500000; 14000000]%Z;
     volumes_per_trade := [[1]; [1]];
     volumes_per_trade_default := [[1]; [1]];
     vol_remaining := 2; bucket_vol_remaining := [1; 1];
     event_idx := 0; order_idx := 0; bucket_idx := 0 |}.

(** An environment around [two_bucket_algo] whose broker answers every
    request for the prices of a window with [vwaps]. *)
Definition env_with (trade_dir : Z) (vwaps : result (Q * Q)) : BaseEnv :=
  {| broker :=
       {| benchmark_algo := two_bucket_algo;
          rl_algo := RLAlgo_init two_bucket_algo;
          calc_vwap_from_logs := λ _ _, vwaps |};
     trade_dir := trade_dir; done := false;
     event_time_prev := 0; event_time := 3500000;
     bucket_time_prev := 0; bucket_time := 0; env_bucket_idx := 0 |}.

(** [x] agrees with [v], a value written with four decimals: [x] is within
    half a unit of the fourth decimal of [v]. *)
Definition approx4 (x v : Q) : Prop := Qabs (x - v) <= 5 # 100000.

(** A placement function that answers a request for two placements with
    three, two of them equal. *)
Definition repeating_placement (calls no_of_slices : nat) : placement_sample :=
  SampleList [1 # 4; 1 # 4; 1 # 2].

(** [two_bucket_order] with two slices per bucket. *)
Definition two_slice_order : OrderParams :=
  {| p_trade_direction := 1; p_volume := 2; p_no_of_slices := 2;
     p_start_time := 0; p_end_time := 14000000;
     p_rand_bucket_bounds_width := None |}.

(** A configuration that asks for a jitter of exactly 100 percent. *)
Definition full_jitter_config : Config :=
  {| lob_depth := 5; vol_low := 500; vol_high := 1000;
     no_slices_low := 5; no_slices_high := 10;
     rand_bucket_low := 100; rand_bucket_high := 100;
     hour_low := 1; hour_high := 19; minute_low := 0; minute_high := 59;
     second_low := 0; second_high := 59 |}.

(** Draws of [randint(-100, 100)]: first -100, then 0. *)
Definition zero_step_draws (calls : nat) : Z :=
  if (calls =? 0)%nat then (-100)%Z else 0%Z.

(** The jitter width is a percentage below 100 and the oracle draws within
    the range that [randint(-rand_width, rand_width)] allows. *)
Definition jitter_below_100 (rand_width : option Z) (randint : nat → Z) : Prop :=
  match rand_width with
  | None => True
  | Some w => (0 ≤ w ≤ 99)%Z ∧ ∀ calls, (- w ≤ randint calls ≤ w)%Z
  end.

(** A parent order as the default configuration draws it for an execution
    time of 5 minutes (500 units, 5 slices), with a jitter width of 100
    percent. *)
Definition full_jitter_order : OrderParams :=
  {| p_trade_direction := 1; p_volume := 500; p_no_of_slices := 5;
     p_start_time := 0; p_end_time := 300000000;
     p_rand_bucket_bounds_width := Some 100%Z |}.

(** The bounds built for [full_jitter_order] when the first draw is -100. *)
Definition full_jitter_bounds : list Z :=
  [0; 0; 30000000; 60000000; 90000000; 120000000; 150000000; 180000000;
   210000000; 240000000; 270000000; 300000000]%Z.


(** Five placements per bucket, evenly spread. *)
Definition even_placement (calls no_of_slices : nat) : placement_sample :=
  SampleList [1 # 6; 1 # 3; 1 # 2; 2 # 3; 5 # 6].

(** A parent order of 644 units over 5 minutes, 5 slices per bucket, no
    jitter. *)
Definition order_644 : OrderParams :=
  {| p_trade_direction := 1; p_volume := 644; p_no_of_slices := 5;
     p_start_time := 0; p_end_time := 300000000;
     p_rand_bucket_bounds_width := None |}.

(** A parent order of 100 units over 14 seconds, one slice per bucket, with
    a jitter width of 14 percent. *)
Definition jittered_order : OrderParams :=
  {| p_trade_direction := 1; p_volume := 100; p_no_of_slices := 1;
     p_start_time := 0; p_end_time := 14000000;
     p_rand_bucket_bounds_width := Some 14%Z |}.

(** [randint(-14, 14)] answering -14 to the first call and 14 afterwards. *)
Definition jitter_draws (calls : nat) : Z :=
  match calls with
  | O => (-14)%Z
  | S _ => 14%Z
  end.

(** ** The rest of [ExecutionAlgo] *)

(** The class of a schedule object, which [reset] asks for. *)
Inductive AlgoClass : Type :=
  | TWAPAlgo
  | RLAlgo.

(** The [for bucket in range(len(self.volumes_per_trade))] loop of [reset]
    for the adaptive schedule: a row of zeros for every row of the default
    table. *)
Fixpoint zero_rows (idxs : list nat) (volumes_per_trade_default : list (list Q))
  : result (list (list Q)) :=
  match idxs with
  | [] => Ok []
  | bucket :: idxs =>
      row ← py_index volumes_per_trade_default bucket;
      rows ← zero_rows idxs volumes_per_trade_default;
      Ok (map (λ _, 0) row :: rows)
  end.

(** [ExecutionAlgo.reset]. *)
Definition reset (cls : AlgoClass) (a : ExecutionAlgo) : result ExecutionAlgo :=
  table ←
    match cls with
    | TWAPAlgo => Ok (volumes_per_trade_default a)
    | RLAlgo =>
        zero_rows (seq 0 (length (volumes_per_trade a))) (volumes_per_trade_default a)
    end;
  Ok {| trade_direction := trade_direction a; volume := volume a;
        no_of_slices := no_of_slices a; tick_size := tick_size a;
        buckets := buckets a; bucket_volumes := bucket_volumes a;
        execution_times := execution_times a; algo_events := algo_events a;
        volumes_per_trade := table;
        volumes_per_trade_default := volumes_per_trade_default a;
        vol_remaining := volume a; bucket_vol_remaining := bucket_volumes a;
        event_idx := 0; order_idx := 0; bucket_idx := 0 |}.

Definition set_event_idx (i : nat) (a : ExecutionAlgo) : ExecutionAlgo :=
  {| trade_direction := trade_direction a; volume := volume a;
     no_of_slices := no_of_slices a; tick_size := tick_size a;
     buckets := buckets a; bucket_volumes := bucket_volumes a;
     execution_times := execution_times a; algo_events := algo_events a;
     volumes_per_trade := volumes_per_trade a;
     volumes_per_trade_default := volumes_per_trade_default a;
     vol_remaining := vol_remaining a;
     bucket_vol_remaining := bucket_vol_remaining a;
     event_idx := i; order_idx := order_idx a;
     bucket_idx := bucket_idx a |}.

Definition set_order_idx (i : nat) (a : ExecutionAlgo) : ExecutionAlgo :=
  {| trade_direction := trade_direction a; volume := volume a;
     no_of_slices := no_of_slices a; tick_size := tick_size a;
     buckets := buckets a; bucket_volumes := bucket_volumes a;
     execution_times := execution_times a; algo_events := algo_events a;
     volumes_per_trade := volumes_per_trade a;
     volumes_per_trade_default := volumes_per_trade_default a;
     vol_remaining := vol_remaining a;
     bucket_vol_remaining := bucket_vol_remaining a;
     event_idx := event_idx a; order_idx := i;
     bucket_idx := bucket_idx a |}.

(** An event of the timeline: the dictionary [{'type': ..., 'time': ...}]. *)
Record Event : Type := { ev_type : string; ev_time : Z }.

(** [ExecutionAlgo.get_next_event]: the event, the [done] flag and the
    schedule with its event cursor moved. *)
Definition get_next_event (a : ExecutionAlgo) : result (Event * bool * ExecutionAlgo) :=
  event_time ← py_index (algo_events a) (event_idx a);
  let event_type :=
    if existsb (λ sublist, bool_decide (event_time ∈ sublist)) (execution_times a)
    then "order_placement"%string else "bucket_bound"%string in
  let event := {| ev_type := event_type; ev_time := event_time |} in
  if bool_decide (Z.of_nat (event_idx a) = Z.of_nat (length (algo_events a)) - 1)%Z
  then Ok (event, true, set_event_idx 0 a)
  else Ok (event, false, set_event_idx (event_idx a + 1) a).

(** Of the order book, the two prices that [get_order_at_event] reads. *)
Record LOB : Type := { get_best_bid : Q; get_best_ask : Q }.

(** The order dictionary; a market order has no price.  The time stamp is
    kept as a time, not formatted. *)
Record Order : Type := {
  o_type : string;
  o_timestamp : Z;
  o_side : string;
  o_quantity : Q;
  o_price : option Q;
  o_trade_id : Z
}.

(** The wrap of the slice cursor at the end of [get_order_at_event]:
    [if self.order_idx / self.no_of_slices >= 1: self.order_idx = 0]. *)
Definition wrap_order_idx (a : ExecutionAlgo) : ExecutionAlgo * result unit :=
  if (no_of_slices a =? 0)%nat then (a, Raise ZeroDivisionError)
  else if (no_of_slices a <=? order_idx a)%nat then (set_order_idx 0 a, Ok tt)
  else (a, Ok tt).

(** [ExecutionAlgo.get_order_at_event].  The object is mutated in place, so
    the state reached is returned whether the call returns or raises. *)
Definition get_order_at_event (a : ExecutionAlgo) (event : Event) (lob : LOB)
    (trade_id : option Z) : ExecutionAlgo * result Order :=
  let trade_id := default 1%Z trade_id in
  let side := if (trade_direction a =? 1)%Z then "bid"%string else "ask"%string in
  let placed : ExecutionAlgo * result Order :=
    if String.eqb (ev_type event) "order_placement" then
      let p := if String.eqb side "bid" then get_best_bid lob - Dval (tick_size a)
               else get_best_ask lob + Dval (tick_size a) in
      match py_index (volumes_per_trade a) (bucket_idx a)
              ≫= λ row, py_index row (order_idx a) with
      | Ok q =>
          (set_order_idx (order_idx a + 1) a,
           Ok {| o_type := "limit"; o_timestamp := ev_time event; o_side := side;
                 o_quantity := q; o_price := Some p; o_trade_id := trade_id |})
      | Raise e => (a, Raise e)
      | OutOfFuel => (a, OutOfFuel)
      end
    else if String.eqb (ev_type event) "bucket_bound" then
      match py_index (bucket_vol_remaining a) (bucket_idx a) with
      | Ok q =>
          (a, Ok {| o_type := "market"; o_timestamp := ev_time event; o_side := side;
                    o_quantity := q; o_price := None; o_trade_id := trade_id |})
      | Raise e => (a, Raise e)
      | OutOfFuel => (a, OutOfFuel)
      end
    else (a, Raise (ValueError "No such event type allowed !!!")) in
  match placed with
  | (a, Ok order) =>
      match wrap_order_idx a with
      | (a, Ok _) => (a, Ok order)
      | (a, Raise e) => (a, Raise e)
      | (a, OutOfFuel) => (a, OutOfFuel)
      end
  | r => r
  end.

(** The write of [BaseEnv.step] into the allocation table of a schedule:
    [volumes_per_trade[bucket_idx][order_idx] = vol_to_trade]. *)
Definition write_cell (a : ExecutionAlgo) (vol_to_trade : Q) : result ExecutionAlgo :=
  row ← py_index (volumes_per_trade a) (bucket_idx a);
  _ ← py_index row (order_idx a);
  Ok {| trade_direction := trade_direction a; volume := volume a;
        no_of_slices := no_of_slices a; tick_size := tick_size a;
        buckets := buckets a; bucket_volumes := bucket_volumes a;
        execution_times := execution_times a; algo_events := algo_events a;
        volumes_per_trade :=
          <[bucket_idx a := <[order_idx a := vol_to_trade]> row]> (volumes_per_trade a);
        volumes_per_trade_default := volumes_per_trade_default a;
        vol_remaining := vol_remaining a;
        bucket_vol_remaining := bucket_vol_remaining a;
        event_idx := event_idx a; order_idx := order_idx a;
        bucket_idx := bucket_idx a |}.

(** A call on a schedule object in the course of an episode. *)
Inductive Call : Type :=
  | CallUpdate (trade_log : option TradeLog) (event_type : option EventType)
  | CallNextEvent
  | CallOrder (event : Event) (lob : LOB) (trade_id : option Z)
  | CallWrite (vol_to_trade : Q).

(** The object after a call, whether the call returned or raised. *)
Definition after_call (a : ExecutionAlgo) (c : Call) : ExecutionAlgo :=
  match c with
  | CallUpdate trade_log event_type => (update_remaining_volume a trade_log event_type).1
  | CallNextEvent =>
      match get_next_event a with
      | Ok (_, _, a') => a'
      | _ => a
      end
  | CallOrder event lob trade_id => (get_order_at_event a event lob trade_id).1
  | CallWrite vol_to_trade =>
      match write_cell a vol_to_trade with
      | Ok a' => a'
      | _ => a
      end
  end.

(** [k] calls of [get_next_event] in a row: the events with their [done]
    flags, and the schedule reached. *)
Fixpoint run_events (k : nat) (a : ExecutionAlgo)
  : result (list (Event * bool) * ExecutionAlgo) :=
  match k with
  | O => Ok ([], a)
  | S k =>
      '(event, done, a) ← get_next_event a;
      '(rest, a) ← run_events k a;
      Ok ((event, done) :: rest, a)
  end.

(** What no method of the schedule changes after construction. *)
Definition same_schedule (a b : ExecutionAlgo) : Prop :=
  trade_direction a = trade_direction b ∧ volume a = volume b
  ∧ no_of_slices a = no_of_slices b ∧ tick_size a = tick_size b
  ∧ buckets a = buckets b ∧ bucket_volumes a = bucket_volumes b
  ∧ execution_times a = execution_times b ∧ algo_events a = algo_events b
  ∧ volumes_per_trade_default a = volumes_per_trade_default b
  ∧ length (volumes_per_trade a) = length (volumes_per_trade b).

(** Calls of [get_order_at_event] in a row, one for each event of a list, up
    to the first that raises: the orders, and the schedule reached. *)
Fixpoint run_orders (events : list Event) (lob : LOB) (a : ExecutionAlgo)
  : ExecutionAlgo * result (list Order) :=
  match events with
  | [] => (a, Ok [])
  | event :: events =>
      match get_order_at_event a event lob None with
      | (a, Ok order) =>
          match run_orders events lob a with
          | (a, Ok orders) => (a, Ok (order :: orders))
          | r => r
          end
      | (a, Raise e) => (a, Raise e)
      | (a, OutOfFuel) => (a, OutOfFuel)
      end
  end.

(** Calls of [update_remaining_volume] in a row, up to the first that
    raises. *)
Fixpoint run_updates (updates : list (option TradeLog * option EventType))
    (a : ExecutionAlgo) : ExecutionAlgo * outcome :=
  match updates with
  | [] => (a, Returned)
  | (trade_log, event_type) :: updates =>
      match update_remaining_volume a trade_log event_type with
      | (a, Returned) => run_updates updates a
      | r => r
      end
  end.

(** The quantity that [update_remaining_volume] books for a trade log. *)
Definition filled (trade_log : option TradeLog) : Q :=
  match trade_log with
  | Some log => if Qltb 0 (quantity log) then quantity log else 0
  | None => 0
  end.

(** The price of the limit order placed by a schedule: one tick behind the
    best price of its own side. *)
Definition passive_price (a : ExecutionAlgo) (lob : LOB) : Q :=
  if (trade_direction a =? 1)%Z then get_best_bid lob - Dval (tick_size a)
  else get_best_ask lob + Dval (tick_size a).

(** ** Buckets without jitter *)

(** The first [k] points of the grid of step [W] that starts at [s]. *)
Definition grid (s W : Z) (k : nat) : list Z :=
  map (λ i, (s + Z.of_nat i * W)%Z) (seq 0 k).

(** ** Placements and buckets *)

(** The placement function returns fractions of the bucket: numbers from 0
    to 1. *)
Definition unit_placements (bucket_placement_func : nat → nat → placement_sample)
  : Prop :=
  ∀ calls n q, q ∈ as_list (bucket_placement_func calls n) → 0 <= q ∧ q <= 1.

(** The times [trades] lie between the two bounds of bucket [i]. *)
Definition within_bucket (bounds : list Z) (i : nat) (trades : list Z) : Prop :=
  ∃ lo hi, bounds !! i = Some lo ∧ bounds !! (i + 1)%nat = Some hi
           ∧ ∀ t, t ∈ trades → (Z.min lo hi ≤ t ≤ Z.max lo hi)%Z.

(** ** From the action to the volume of the next order *)

(** [NarrowTradeLimitEnvDiscrete._convert_action]: the three actions stand
    for 0.8, 1 and 1.2 times the benchmark's volume; [raise ValueError]
    carries no message. *)
Definition shift : Q := 2 # 10.

Definition discrete_convert_action (action : Z) : result Q :=
  if (action =? 0)%Z then Ok (1 - shift)
  else if (action =? 1)%Z then Ok 1
  else if (action =? 2)%Z then Ok (1 + shift)
  else Raise (ValueError "").

(** The first statements of [BaseEnv.step] after its assertion that [reset]
    has been called: the action is converted, the volume inferred and written
    into the cell of the adaptive schedule under its cursors.  Returns the
    volume and the adaptive schedule. *)
Definition step_volume {A} (_convert_action : A → result Q) (env : BaseEnv) (action : A)
  : result (Q * ExecutionAlgo) :=
  action ← _convert_action action;
  vol_to_trade ← infer_volume_from_action env action;
  rl ← write_cell (rl_algo (broker env)) vol_to_trade;
  Ok (vol_to_trade, rl).

(** ** The random parameters of an episode *)

(** [random.choice(seq)]; [draw] is the number that the generator draws, of
    which the index is taken within the bounds of the sequence. *)
Definition random_choice (draw : nat) (seq : list Z) : result Z :=
  match seq with
  | [] => Raise IndexError
  | _ => py_index seq (draw mod length seq)
  end.

(** [min] and [max] of a list of integers. *)
Definition py_min (l : list Z) : result Z :=
  match l with
  | [] => Raise (ValueError "min() arg is an empty sequence")
  | x :: l => Ok (foldr Z.min x l)
  end.

Definition py_max (l : list Z) : result Z :=
  match l with
  | [] => Raise (ValueError "max() arg is an empty sequence")
  | x :: l => Ok (foldr Z.max x l)
  end.

(** [BaseEnv._reset_volume_and_slices] for the execution times
    [config['exec_config']['exec_times']] (in minutes): the execution time
    drawn, the volume and the number of slices. *)
Definition _reset_volume_and_slices (c : Config) (exec_times : list Z) (draw : nat)
  : result (Z * Z * Z) :=
  exec_time ← random_choice draw exec_times;
  lo ← py_min exec_times;
  hi ← py_max exec_times;
  lo' ← py_min exec_times;
  perc ← py_truediv (inject_Z (exec_time - lo)) (inject_Z (hi - lo'));
  let volume :=
    round_half_even (inject_Z (vol_low c) + perc * inject_Z (vol_high c - vol_low c)) in
  let no_of_slices :=
    round_half_even (inject_Z (no_slices_low c)
                     + perc * inject_Z (no_slices_high c - no_slices_low c)) in
  Ok (exec_time, volume, no_of_slices).

(** ** The sign of a reward *)

(** The adaptive schedule traded at a better average price than the
    benchmark: lower when buying, higher when selling; and at a worse one. *)
Definition beats_benchmark (env : BaseEnv) (vwap_bmk vwap_rl : Q) : Prop :=
  if (trade_dir env =? 1)%Z then vwap_rl < vwap_bmk else vwap_bmk < vwap_rl.

Definition trails_benchmark (env : BaseEnv) (vwap_bmk vwap_rl : Q) : Prop :=
  if (trade_dir env =? 1)%Z then vwap_bmk < vwap_rl else vwap_rl < vwap_bmk.

(** ** The helpers of the observation *)

(** A side of the order book, as [lob_to_numpy] reads it: the prices in
    increasing order and the volume resting at a price,
    [get_price_list(p).volume]. *)
Record OrderTree : Type := {
  prices : list Q;
  get_price_list_volume : Q → Q
}.

Record LOBSnapshot : Type := { bids : OrderTree; asks : OrderTree }.

(** The slices [l[-depth:]] and [l[:depth]] of a list, for any integer. *)
Definition slice_last {A} (depth : Z) (l : list A) : list A :=
  if (depth =? 0)%Z then l
  else if (0 <? depth)%Z then drop (length l - Z.to_nat depth) l
  else drop (Z.to_nat (- depth)) l.

Definition slice_first {A} (depth : Z) (l : list A) : list A :=
  if (0 <=? depth)%Z then take (Z.to_nat depth) l
  else take (length l - Z.to_nat (- depth)) l.

(** The truth value of an optional number: [None] and zero are false. *)
Definition truthy (x : option Q) : bool :=
  match x with
  | Some q => negb (Qeq_bool q 0)
  | None => false
  end.

(** [lob_to_numpy]: the prices and the volumes of the [depth] best levels of
    each side, bids first. *)
Definition lob_to_numpy (lob : LOBSnapshot) (depth : Z)
    (norm_price norm_vol_bid norm_vol_ask : option Q) : list Q * list Q :=
  let bid_prices := slice_last depth (prices (bids lob)) in
  let bid_volumes := map (get_price_list_volume (bids lob)) bid_prices in
  let ask_prices := slice_first depth (prices (asks lob)) in
  let ask_volumes := map (get_price_list_volume (asks lob)) ask_prices in
  let prices :=
    if truthy norm_price
    then map (λ x, x / default 0 norm_price) (bid_prices ++ ask_prices)
    else bid_prices ++ ask_prices in
  let volumes :=
    if truthy norm_vol_bid && truthy norm_vol_ask
    then map (λ x, x / default 0 norm_vol_bid) bid_volumes
         ++ map (λ x, x / default 0 norm_vol_ask) ask_volumes
    else bid_volumes ++ ask_volumes in
  (prices, volumes).

(** A number of a numpy array: a finite value, an infinity or not-a-number.
    Division by zero gives one of the last three and raises nothing. *)
Inductive npfloat : Type :=
  | Finite (q : Q)
  | PosInf
  | NegInf
  | NaN.

Definition np_truediv (x y : Q) : npfloat :=
  if Qeq_bool y 0 then
    if Qeq_bool x 0 then NaN else if Qltb 0 x then PosInf else NegInf
  else Finite (x / y).

(** [np.min] and [np.max] of an array of finite numbers. *)
Definition np_minimum (x y : Q) : Q := if Qltb y x then y else x.

Definition np_maximum (x y : Q) : Q := if Qltb x y then y else x.

Definition np_min (array : list Q) : result Q :=
  match array with
  | [] => Raise (ValueError "zero-size array to reduction operation minimum which has no identity")
  | x :: l => Ok (foldr np_minimum x l)
  end.

Definition np_max (array : list Q) : result Q :=
  match array with
  | [] => Raise (ValueError "zero-size array to reduction operation maximum which has no identity")
  | x :: l => Ok (foldr np_maximum x l)
  end.

(** [min_max_rescaling] on an array of finite numbers. *)
Definition min_max_rescaling (array : list Q) : result (list npfloat) :=
  min ← np_min array;
  max ← np_max array;
  Ok (map (λ x, np_truediv (x - min) (max - min)) array).

(** ** The conversions of the action *)

(** A numpy number times, and plus, a finite constant. *)
Definition np_scale (x : npfloat) (c : Q) : npfloat :=
  match x with
  | Finite q => Finite (q * c)
  | PosInf => if Qeq_bool c 0 then NaN else if Qltb 0 c then PosInf else NegInf
  | NegInf => if Qeq_bool c 0 then NaN else if Qltb 0 c then NegInf else PosInf
  | NaN => NaN
  end.

Definition np_shift (c : Q) (x : npfloat) : npfloat :=
  match x with
  | Finite q => Finite (c + q)
  | other => other
  end.

(** [NarrowTradeLimitEnvContinuous._convert_action] for the action [action[0]]
    and the bounds [action_space.low[0]] and [action_space.high[0]]. *)
Definition continuous_convert_action (low high action : Q) : npfloat :=
  let action_min := 8 # 10 in
  let action_max := 12 # 10 in
  let action_rescaled := np_truediv (action - low) (high - low) in
  np_shift action_min (np_scale action_rescaled (action_max - action_min)).

(** [DollarRewardAtStepEnv._convert_action] for the action [action[0]] and
    the benchmark's number of slices. *)
Definition dollar_convert_action (no_of_slices : nat) (action : npfloat)
  : result npfloat :=
  let action := np_scale action (1 # 10) in
  match action with
  | NaN =>
      share ← py_truediv 1 (inject_Z (Z.of_nat no_of_slices));
      Ok (Finite share)
  | _ => Ok action
  end.

(** ** The configuration as a dictionary *)

(** The values of the settings: an integer, a Boolean, or something that is
    no number (a string, a list, a function). *)
Inductive value : Type :=
  | VInt (z : Z)
  | VBool (b : bool)
  | VOther.

(** A dictionary with string keys: its items, in the order of insertion. *)
Definition dict (V : Type) : Type := list (string * V).

Fixpoint dict_get {V} (d : dict V) (k : string) : option V :=
  match d with
  | [] => None
  | (k', v) :: d => if String.eqb k' k then Some v else dict_get d k
  end.

(** [d[k] = v]: the value of an old key is replaced in place, a new key is
    appended. *)
Fixpoint dict_set {V} (d : dict V) (k : string) (v : V) : dict V :=
  match d with
  | [] => [(k, v)]
  | (k', v') :: d =>
      if String.eqb k' k then (k', v) :: d else (k', v') :: dict_set d k v
  end.

(** [{**base, **over}]. *)
Definition dict_merge {V} (base over : dict V) : dict V :=
  foldl (λ acc item, dict_set acc item.1 item.2) base over.

Definition DEFAULT_ENV_CONFIG : dict (dict value) :=
  [("obs_config"%string,
    [("lob_depth"%string, VInt 5); ("nr_of_lobs"%string, VInt 5);
     ("norm"%string, VBool true)]);
   ("train_config"%string,
    [("train"%string, VBool true); ("symbol"%string, VOther);
     ("train_data_periods"%string, VOther); ("eval_data_periods"%string, VOther)]);
   ("trade_config"%string,
    [("trade_direction"%string, VInt 1); ("vol_low"%string, VInt 500);
     ("vol_high"%string, VInt 1000); ("no_slices_low"%string, VInt 5);
     ("no_slices_high"%string, VInt 10); ("bucket_func"%string, VOther);
     ("rand_bucket_low"%string, VInt 0); ("rand_bucket_high"%string, VInt 0)]);
   ("start_config"%string,
    [("hour_low"%string, VInt 1); ("hour_high"%string, VInt 19);
     ("minute_low"%string, VInt 0); ("minute_high"%string, VInt 59);
     ("second_low"%string, VInt 0); ("second_high"%string, VInt 59)]);
   ("exec_config"%string,
    [("exec_times"%string, VOther); ("delete_vol"%string, VBool false)]);
   ("reset_config"%string, [("reset_num_episodes"%string, VInt 1)]);
   ("seed_config"%string, [("seed"%string, VInt 0)])].

(** [BaseEnv.add_default_dict]. *)
Definition add_default_dict (config : dict (dict value)) : dict (dict value) :=
  dict_merge DEFAULT_ENV_CONFIG config.

(** What the validation of a dictionary can raise. *)
Inductive config_error : Type :=
  | ConfigValueError (msg : string)
  | ConfigKeyError (key : string)
  | ConfigTypeError.

(** [config[section][key]]. *)
Definition config_item (config : dict (dict value)) (section key : string)
  : config_error + value :=
  match dict_get config section with
  | None => inl (ConfigKeyError section)
  | Some d =>
      match dict_get d key with
      | None => inl (ConfigKeyError key)
      | Some v => inr v
      end
  end.

(** [x > y] on two settings; a Boolean counts as 0 or 1. *)
Definition value_gt (x y : value) : config_error + bool :=
  let as_int (v : value) : option Z :=
    match v with
    | VInt z => Some z
    | VBool b => Some (if b then 1 else 0)%Z
    | VOther => None
    end in
  match as_int x, as_int y with
  | Some a, Some b => inr (b <? a)%Z
  | _, _ => inl ConfigTypeError
  end.

Definition not_allowed (k : string) : config_error :=
  ConfigValueError ("Config key '" +:+ k +:+ "' is not allowed !!!").

(** The loop over the keys of one section. *)
Fixpoint check_keys (allowed : dict value) (items : dict value) : option config_error :=
  match items with
  | [] => None
  | (ky, _) :: items =>
      match dict_get allowed ky with
      | None => Some (not_allowed ky)
      | Some _ => check_keys allowed items
      end
  end.

(** The loop over the sections. *)
Fixpoint check_sections (items : dict (dict value)) : option config_error :=
  match items with
  | [] => None
  | (k, v) :: items =>
      match dict_get DEFAULT_ENV_CONFIG k with
      | None => Some (not_allowed k)
      | Some allowed =>
          match check_keys allowed v with
          | Some e => Some e
          | None => check_sections items
          end
      end
  end.

(** One test [config[section][low] > config[section][high]] with its
    message. *)
Definition check_order (config : dict (dict value)) (section low high msg : string)
  : option config_error :=
  match config_item config section low with
  | inl e => Some e
  | inr x =>
      match config_item config section high with
      | inl e => Some e
      | inr y =>
          match value_gt x y with
          | inl e => Some e
          | inr true => Some (ConfigValueError msg)
          | inr false => None
          end
      end
  end.

(** The first error among checks made in a row. *)
Fixpoint first_error (checks : list (option config_error)) : option config_error :=
  match checks with
  | [] => None
  | Some e :: _ => Some e
  | None :: checks => first_error checks
  end.

(** [BaseEnv._validate_config] on the dictionary: the error raised, if any. *)
Definition validate_config_dict (config : dict (dict value)) : option config_error :=
  first_error
    [check_sections config;
     match config_item config "obs_config" "lob_depth" with
     | inl e => Some e
     | inr x =>
         match value_gt x (VInt 20) with
         | inl e => Some e
         | inr true => Some (ConfigValueError "'lob_depth' must be < 20")
         | inr false => None
         end
     end;
     check_order config "trade_config" "vol_low" "vol_high"
       "'vol_high' must be larger than 'vol_low'";
     check_order config "trade_config" "no_slices_low" "no_slices_high"
       "'no_slices_high' must be larger than 'no_slices_low'";
     check_order config "trade_config" "rand_bucket_low" "rand_bucket_high"
       "'rand_bucket_high' must be larger than 'rand_bucket_low'";
     match config_item config "trade_config" "rand_bucket_low" with
     | inl e => Some e
     | inr x =>
         match value_gt (VInt 0) x with
         | inl e => Some e
         | inr true =>
             Some (ConfigValueError
                     "'rand_bucket_low' and 'rand_bucket_high' have to be percentages")
         | inr false =>
             match config_item config "trade_config" "rand_bucket_high" with
             | inl e => Some e
             | inr y =>
                 match value_gt y (VInt 100) with
                 | inl e => Some e
                 | inr true =>
                     Some (ConfigValueError
                             "'rand_bucket_low' and 'rand_bucket_high' have to be percentages")
                 | inr false => None
                 end
             end
         end
     end;
     check_order config "start_config" "hour_low" "hour_high"
       "'hour_high' must be larger than 'hour_low'";
     check_order config "start_config" "minute_low" "minute_high"
       "'minute_high' must be larger than 'minute_low'";
     check_order config "start_config" "second_low" "second_high"
       "'second_high' must be larger than 'second_low'";
     match config_item config "exec_config" "delete_vol" with
     | inl e => Some e
     | inr (VBool _) => None
     | inr _ => Some (ConfigValueError "Deleting volume flag must be a Boolean!")
     end].

(** The settings that the validation reads, by section. *)
Definition validated_keys : list (string * string) :=
  [("obs_config", "lob_depth"); ("trade_config", "vol_low");
   ("trade_config", "vol_high"); ("trade_config", "no_slices_low");
   ("trade_config", "no_slices_high"); ("trade_config", "rand_bucket_low");
   ("trade_config", "rand_bucket_high"); ("start_config", "hour_low");
   ("start_config", "hour_high"); ("start_config", "minute_low");
   ("start_config", "minute_high"); ("start_config", "second_low");
   ("start_config", "second_high"); ("exec_config", "delete_vol")]%string.
(** ** Facts about the run-time notions *)

Lemma Qltb_lt (x y : Q) : Qltb x y = true ↔ x < y.
Proof.
  unfold Qltb. rewrite negb_true_iff, <- not_true_iff_false, Qle_bool_iff.
  split; [apply Qnot_le_lt | apply Qlt_not_le].
Qed.

Lemma Qltb_ge (x y : Q) : Qltb x y = false ↔ y <= x.
Proof.
  unfold Qltb. rewrite negb_false_iff, Qle_bool_iff. reflexivity.
Qed.

Lemma Qfloor_div_pos (a : Z) (b : positive) :
  Qfloor (inject_Z a / inject_Z (Z.pos b)) = (a / Z.pos b)%Z.
Proof.
  unfold Qdiv, Qinv, Qmult, inject_Z. simpl.
  rewrite Z.mul_1_r. reflexivity.
Qed.

Lemma py_int_inject_Z (z : Z) : py_int (inject_Z z) = z.
Proof.
  unfold py_int. destruct (Qle_bool 0 (inject_Z z)).
  - apply Qfloor_Z.
  - apply Qceiling_Z.
Qed.

Lemma py_int_comp (x y : Q) : x == y → py_int x = py_int y.
Proof.
  intros E. unfold py_int.
  assert (Qle_bool 0 x = Qle_bool 0 y) as ->.
  { apply eq_true_iff_eq. rewrite !Qle_bool_iff, E. reflexivity. }
  rewrite (Qfloor_comp _ _ E), (Qceiling_comp _ _ E). reflexivity.
Qed.

Lemma py_truediv_ok (x y : Q) : ¬ y == 0 → py_truediv x y = Ok (x / y).
Proof.
  intros H. unfold py_truediv.
  destruct (Qeq_bool y 0) eqn:E; [|reflexivity].
  apply Qeq_bool_iff in E. contradiction.
Qed.

(** ** Rounding to an integer *)

Lemma round_half_even_comp (x y : Q) : x == y → round_half_even x = round_half_even y.
Proof.
  intros E. unfold round_half_even. rewrite (Qfloor_comp _ _ E).
  assert (H1 : Qltb (x - inject_Z (Qfloor y)) (1 # 2)
               = Qltb (y - inject_Z (Qfloor y)) (1 # 2)).
  { apply eq_true_iff_eq. rewrite !Qltb_lt, E. reflexivity. }
  assert (H2 : Qltb (1 # 2) (x - inject_Z (Qfloor y))
               = Qltb (1 # 2) (y - inject_Z (Qfloor y))).
  { apply eq_true_iff_eq. rewrite !Qltb_lt, E. reflexivity. }
  rewrite H1, H2. reflexivity.
Qed.

Lemma round_half_even_bounds (x : Q) :
  (Qfloor x ≤ round_half_even x ≤ Qfloor x + 1)%Z.
Proof.
  unfold round_half_even.
  destruct (Qltb _ _); [lia|]. destruct (Qltb _ _); [lia|].
  destruct (Z.even _); lia.
Qed.

Lemma round_half_even_between (a b : Z) (x : Q) :
  inject_Z a <= x → x <= inject_Z b → (a ≤ round_half_even x ≤ b)%Z.
Proof.
  intros Ha Hb. pose proof (round_half_even_bounds x) as [Hlo Hhi].
  assert (a ≤ Qfloor x)%Z as Hfa.
  { rewrite <- (Qfloor_Z a). apply Qfloor_resp_le. exact Ha. }
  split; [lia|].
  pose proof (Qfloor_le x) as Hfl.
  assert (Qfloor x ≤ b)%Z as Hfb by (rewrite Zle_Qle; lra).
  destruct (decide (Qfloor x = b)) as [Heq|Hne]; [|lia].
  unfold round_half_even. cbv zeta.
  assert (Qltb (x - inject_Z (Qfloor x)) (1 # 2) = true) as ->; [|lia].
  apply Qltb_lt. rewrite Heq. lra.
Qed.


(** ** Rounding to binary64 *)

Lemma pow2_pos (e : Z) : 0 < 2 ^ e.
Proof. apply Qpower_0_lt. reflexivity. Qed.

Lemma pow2_succ (e : Z) : 2 ^ (e + 1) == 2 * 2 ^ e.
Proof. rewrite Qpower_plus by discriminate. change (2 ^ 1) with 2. ring. Qed.

Lemma pow2_pred (e : Z) : 2 * 2 ^ (e - 1) == 2 ^ e.
Proof. rewrite <- pow2_succ. replace (e - 1 + 1)%Z with e by lia. reflexivity. Qed.

Lemma pow2_le (a b : Z) : (a ≤ b)%Z → 2 ^ a <= 2 ^ b.
Proof. intros H. apply Qpower_le_compat_l; [exact H|discriminate]. Qed.

Lemma pow2_inject (n : Z) : (0 ≤ n)%Z → inject_Z (2 ^ n) == 2 ^ n.
Proof. intros H. rewrite Zpower_Qpower by exact H. reflexivity. Qed.

(** A positive integer lies in the binade of its [log2]. *)
Lemma log2_binade (a : Z) :
  (0 < a)%Z → 2 ^ Z.log2 a <= inject_Z a ∧ inject_Z a < 2 * 2 ^ Z.log2 a.
Proof.
  intros Ha. pose proof (Z.log2_spec a Ha) as [Hlo Hhi].
  pose proof (Z.log2_nonneg a) as Hnn.
  rewrite <- pow2_succ, <- !pow2_inject by lia.
  rewrite <- Zle_Qle, <- Zlt_Qlt. split; [exact Hlo|]. exact Hhi.
Qed.

Lemma binade_spec (x : Q) :
  ¬ x == 0 → 2 ^ binade x <= Qabs x ∧ Qabs x < 2 * 2 ^ binade x.
Proof.
  intros Hx.
  set (a := Z.abs (Qnum x)). set (d := Z.pos (Qden x)).
  assert (0 < a)%Z as Ha.
  { subst a. apply Z.abs_pos. intros H. apply Hx. unfold Qeq. cbn. lia. }
  assert (0 < d)%Z as Hd by (subst d; lia).
  assert (Qabs x * inject_Z d == inject_Z a) as Hxa.
  { destruct x as [n dd]. unfold Qabs, Qeq, Qmult, inject_Z. subst a d. cbn. lia. }
  destruct (log2_binade a Ha) as [Ha1 Ha2]. destruct (log2_binade d Hd) as [Hd1 Hd2].
  assert (2 ^ (Z.log2 a - Z.log2 d) * 2 ^ Z.log2 d == 2 ^ Z.log2 a) as Hp.
  { rewrite <- Qpower_plus by discriminate. replace (Z.log2 a - Z.log2 d + Z.log2 d)%Z
      with (Z.log2 a) by lia. reflexivity. }
  pose proof (pow2_pos (Z.log2 a - Z.log2 d)) as HP.
  pose proof (pow2_pos (Z.log2 d)) as HPD.
  pose proof (pow2_pred (Z.log2 a - Z.log2 d)) as Hpred.
  pose proof (pow2_pos (Z.log2 a - Z.log2 d - 1)) as HP1.
  assert (Qabs x < 2 * 2 ^ (Z.log2 a - Z.log2 d)
          ∧ 2 ^ (Z.log2 a - Z.log2 d - 1) <= Qabs x) as [Hup Hlow].
  { revert Hxa Ha1 Ha2 Hd1 Hd2 Hp HP HPD Hpred HP1.
    generalize (Qabs x) (inject_Z a) (inject_Z d) (2 ^ (Z.log2 a - Z.log2 d))
      (2 ^ Z.log2 d) (2 ^ Z.log2 a) (2 ^ (Z.log2 a - Z.log2 d - 1)).
    intros y A D P PD PA P1 Hxa Ha1 Ha2 Hd1 Hd2 Hp HP HPD Hpred HP1. split.
    - apply Qnot_le_lt. intros Hc.
      assert (2 * P * PD <= y * D) by nra. nra.
    - apply Qnot_lt_le. intros Hc.
      assert (y * D < P1 * (2 * PD)) by nra. nra. }
  unfold binade. fold a d. cbv zeta.
  destruct (Qle_bool (2 ^ (Z.log2 a - Z.log2 d)) (Qabs x)) eqn:E.
  - apply Qle_bool_iff in E. split; assumption.
  - split; [exact Hlow|]. rewrite Hpred. apply Qnot_le_lt. intros Hc.
    apply Qle_bool_iff in Hc. congruence.
Qed.

Lemma F2Q_float_of_mant (m e : Z) :
  (Z.abs m ≤ 2 ^ 53)%Z → F2Q (float_of_mant m e) == inject_Z m * 2 ^ e.
Proof.
  intros Hm. unfold float_of_mant.
  generalize (eq_refl (Z.abs m <? 2 ^ 53)%Z).
  generalize (Z.abs m <? 2 ^ 53)%Z at 2 3.
  intros [] H; [reflexivity|].
  apply Z.ltb_ge in H. assert (Z.abs m = 2 ^ 53)%Z as Habs by lia.
  destruct (Z.ltb_spec 0 m) as [Hpos|Hneg]; unfold F2Q; cbn [mant expo];
    rewrite pow2_succ.
  - replace m with (2 ^ 53)%Z by lia. change (inject_Z (2 ^ 53)) with (2 * inject_Z (2 ^ 52)).
    ring.
  - replace m with (- 2 ^ 53)%Z by lia.
    change (inject_Z (- 2 ^ 53)) with (2 * inject_Z (- 2 ^ 52)). ring.
Qed.

Lemma F2Q_float_neg (x : float64) : F2Q (float_neg x) == - F2Q x.
Proof.
  unfold float_neg. rewrite F2Q_float_of_mant.
  - unfold F2Q. rewrite inject_Z_opp. ring.
  - pose proof (mant_bound x) as H. apply Z.ltb_lt in H. lia.
Qed.

(** The rounding of a positive number stays in the closure of its binade. *)
Lemma fl_pos_spec (x : Q) :
  0 < x →
  ∃ r : Z, r = round_half_even (x * 2 ^ (52 - binade x))
    ∧ (2 ^ 52 ≤ r ≤ 2 ^ 53)%Z
    ∧ F2Q (fl_pos x) == inject_Z r * 2 ^ (binade x - 52).
Proof.
  intros Hx. eexists. split; [reflexivity|].
  destruct (binade_spec x) as [Hlo Hhi]; [lra|]. rewrite Qabs_pos in Hlo, Hhi by lra.
  assert (2 ^ binade x * 2 ^ (52 - binade x) == inject_Z (2 ^ 52)) as Hs.
  { rewrite <- Qpower_plus by discriminate.
    replace (binade x + (52 - binade x))%Z with 52%Z by lia. reflexivity. }
  pose proof (pow2_pos (52 - binade x)) as Hp.
  assert (2 ^ 52 ≤ round_half_even (x * 2 ^ (52 - binade x)) ≤ 2 ^ 53)%Z as Hr.
  { apply round_half_even_between.
    - rewrite <- Hs. apply Qmult_le_compat_r; lra.
    - change (inject_Z (2 ^ 53)) with (2 * inject_Z (2 ^ 52)). rewrite <- Hs.
      rewrite Qmult_assoc. apply Qmult_le_compat_r; lra. }
  split; [exact Hr|]. unfold fl_pos. cbv zeta. apply F2Q_float_of_mant. lia.
Qed.

Lemma fl_pos_between (x : Q) :
  0 < x → 2 ^ binade x <= F2Q (fl_pos x) ∧ F2Q (fl_pos x) <= 2 * 2 ^ binade x.
Proof.
  intros Hx. destruct (fl_pos_spec x Hx) as (r & _ & [Hr1 Hr2] & ->).
  assert (2 ^ binade x == inject_Z (2 ^ 52) * 2 ^ (binade x - 52)) as Hs.
  { change (inject_Z (2 ^ 52)) with (2 ^ 52).
    rewrite <- Qpower_plus by discriminate.
    replace (52 + (binade x - 52))%Z with (binade x) by lia. reflexivity. }
  pose proof (pow2_pos (binade x - 52)) as Hp.
  rewrite Zle_Qle in Hr1, Hr2.
  change (inject_Z (2 ^ 53)) with (2 * inject_Z (2 ^ 52)) in Hr2.
  rewrite Hs. split.
  - apply Qmult_le_compat_r; lra.
  - rewrite Qmult_assoc. apply Qmult_le_compat_r; lra.
Qed.

Lemma fl_zero (x : Q) : x == 0 → F2Q (fl x) == 0.
Proof.
  intros Hx. unfold fl.
  assert (Qle_bool 0 x = true) as -> by (apply Qle_bool_iff; lra).
  unfold fl_pos. cbv zeta.
  rewrite (round_half_even_comp _ 0); [reflexivity|].
  generalize (2 ^ (52 - binade x)). intros c. rewrite Hx. ring.
Qed.

Lemma fl_of_pos (x : Q) : 0 < x → fl x = fl_pos x.
Proof.
  intros Hx. unfold fl.
  assert (Qle_bool 0 x = true) as -> by (apply Qle_bool_iff; lra). reflexivity.
Qed.

Lemma fl_of_neg (x : Q) : x < 0 → F2Q (fl x) == - F2Q (fl_pos (- x)).
Proof.
  intros Hx. unfold fl. destruct (Qle_bool 0 x) eqn:E.
  - apply Qle_bool_iff in E. lra.
  - apply F2Q_float_neg.
Qed.

Lemma fl_pos_gt_0 (x : Q) : 0 < x → 0 < F2Q (fl_pos x).
Proof.
  intros Hx. pose proof (fl_pos_between x Hx) as [H _].
  pose proof (pow2_pos (binade x)). lra.
Qed.

(** Only 0 rounds to 0. *)
Lemma fl_eq_0_iff (x : Q) : F2Q (fl x) == 0 ↔ x == 0.
Proof.
  split; [|apply fl_zero]. intros H.
  destruct (Q_dec x 0) as [[Hneg|Hpos]|E]; [| |exact E].
  - rewrite fl_of_neg in H by exact Hneg.
    assert (0 < - x) as Hp by lra. apply fl_pos_gt_0 in Hp. lra.
  - rewrite fl_of_pos in H by exact Hpos. apply fl_pos_gt_0 in Hpos. lra.
Qed.





Lemma inject_Z_pred (z : Z) : inject_Z (z - 1) == inject_Z z - 1.
Proof. unfold Qeq, Qminus, Qplus, Qopp, inject_Z. simpl. lia. Qed.








(** Rounding to an integer gives a nearest integer. *)
Lemma round_half_even_nearest (x : Q) (n : Z) :
  Qabs (inject_Z (round_half_even x) - x) <= Qabs (inject_Z n - x).
Proof.
  pose proof (Qfloor_le x) as Hlo. pose proof (Qlt_floor x) as Hhi.
  rewrite inject_Z_plus in Hhi. change (inject_Z 1) with 1 in Hhi.
  assert (inject_Z n <= inject_Z (Qfloor x) ∨ inject_Z (Qfloor x) + 1 <= inject_Z n)
    as Hn.
  { destruct (Z.le_gt_cases n (Qfloor x)) as [H|H].
    - left. rewrite <- Zle_Qle. exact H.
    - right. assert (Qfloor x + 1 ≤ n)%Z as H' by lia.
      rewrite Zle_Qle, inject_Z_plus in H'. exact H'. }
  unfold round_half_even. cbv zeta.
  destruct (Qltb (x - inject_Z (Qfloor x)) (1 # 2)) eqn:E1.
  - apply Qltb_lt in E1.
    apply Qabs_case; intros; apply Qabs_case; intros; destruct Hn; lra.
  - apply Qltb_ge in E1.
    destruct (Qltb (1 # 2) (x - inject_Z (Qfloor x))) eqn:E2;
      [apply Qltb_lt in E2|apply Qltb_ge in E2; destruct (Z.even (Qfloor x))];
      rewrite ?inject_Z_plus; change (inject_Z 1) with 1;
      apply Qabs_case; intros; apply Qabs_case; intros; destruct Hn; lra.
Qed.

Lemma fl_pos_nearest (x : Q) (y : float64) :
  0 < x → Qabs (F2Q (fl_pos x) - x) <= Qabs (F2Q y - x).
Proof.
  intros Hx. destruct (fl_pos_spec x Hx) as (r & Hr & [Hr1 Hr2] & Hval).
  destruct (binade_spec x) as [Hlo _]; [lra|]. rewrite Qabs_pos in Hlo by lra.
  set (e := binade x) in *.
  assert (2 ^ (52 - e) * 2 ^ (e - 52) == 1) as Hinv.
  { rewrite <- Qpower_plus by discriminate.
    replace (52 - e + (e - 52))%Z with 0%Z by lia. reflexivity. }
  pose proof (pow2_pos (52 - e)) as HP. pose proof (pow2_pos (e - 52)) as HPi.
  assert (∀ n : Z, Qabs (F2Q (fl_pos x) - x)
                   <= Qabs (inject_Z n - x * 2 ^ (52 - e)) * 2 ^ (e - 52)) as Hnear.
  { intros n. rewrite Hval.
    assert (inject_Z r * 2 ^ (e - 52) - x
            == (inject_Z r - x * 2 ^ (52 - e)) * 2 ^ (e - 52)) as ->.
    { transitivity (inject_Z r * 2 ^ (e - 52) - x * (2 ^ (52 - e) * 2 ^ (e - 52))).
      - rewrite Hinv. ring.
      - ring. }
    rewrite Qabs_Qmult, (Qabs_pos (2 ^ (e - 52))) by lra.
    apply Qmult_le_compat_r; [|lra]. rewrite Hr. apply round_half_even_nearest. }
  destruct y as [m k Hm]. unfold F2Q. cbn [mant expo].
  destruct (Z.le_gt_cases (e - 52) k) as [Hk|Hk].
  - specialize (Hnear (m * 2 ^ (k - (e - 52)))%Z).
    eapply Qle_trans; [exact Hnear|]. apply Qle_lteq. right.
    rewrite <- (Qabs_pos (2 ^ (e - 52))) at 1 by lra. rewrite <- Qabs_Qmult.
    apply Qabs_wd. rewrite inject_Z_mult, pow2_inject by lia.
    assert (2 ^ (k - (e - 52)) * 2 ^ (e - 52) == 2 ^ k) as Hk2.
    { rewrite <- Qpower_plus by discriminate.
      replace (k - (e - 52) + (e - 52))%Z with k by lia. reflexivity. }
    transitivity (inject_Z m * (2 ^ (k - (e - 52)) * 2 ^ (e - 52))
                  - x * (2 ^ (52 - e) * 2 ^ (e - 52))).
    + ring.
    + rewrite Hk2, Hinv. ring.
  - specialize (Hnear (2 ^ 52)%Z).
    assert (2 ^ e == inject_Z (2 ^ 52) * 2 ^ (e - 52)) as He.
    { change (inject_Z (2 ^ 52)) with (2 ^ 52). rewrite <- Qpower_plus by discriminate.
      replace (52 + (e - 52))%Z with e by lia. reflexivity. }
    assert (inject_Z (2 ^ 52) <= x * 2 ^ (52 - e)) as HX.
    { apply Qle_trans with (2 ^ e * 2 ^ (52 - e)).
      - rewrite He. apply Qle_lteq. right.
        transitivity (inject_Z (2 ^ 52) * (2 ^ (52 - e) * 2 ^ (e - 52))).
        + rewrite Hinv. ring.
        + ring.
      - apply Qmult_le_compat_r; lra. }
    rewrite (Qabs_neg (inject_Z (2 ^ 52) - x * 2 ^ (52 - e))) in Hnear by lra.
    assert (- (inject_Z (2 ^ 52) - x * 2 ^ (52 - e)) * 2 ^ (e - 52) == x - 2 ^ e) as Hd.
    { rewrite He.
      transitivity (x * (2 ^ (52 - e) * 2 ^ (e - 52)) - inject_Z (2 ^ 52) * 2 ^ (e - 52)).
      - ring.
      - rewrite Hinv. ring. }
    rewrite Hd in Hnear.
    assert (inject_Z m * 2 ^ k <= 2 ^ e) as Hy.
    { apply Z.ltb_lt in Hm.
      assert (inject_Z m <= inject_Z (2 ^ 53)) as Hm' by (rewrite <- Zle_Qle; lia).
      assert (2 ^ k <= 2 ^ (e - 53)) as Hk' by (apply pow2_le; lia).
      pose proof (pow2_pos k) as Hkp.
      assert (inject_Z (2 ^ 53) * 2 ^ (e - 53) == 2 ^ e) as He2.
      { change (inject_Z (2 ^ 53)) with (2 ^ 53). rewrite <- Qpower_plus by discriminate.
        replace (53 + (e - 53))%Z with e by lia. reflexivity. }
      rewrite <- He2.
      apply Qle_trans with (inject_Z (2 ^ 53) * 2 ^ k).
      - apply Qmult_le_compat_r; lra.
      - rewrite !(Qmult_comm (inject_Z (2 ^ 53))). apply Qmult_le_compat_r; [exact Hk'|].
        apply Qlt_le_weak. reflexivity. }
    assert (inject_Z m * 2 ^ k - x <= 0) as Hle by (clear - Hy Hlo; lra).
    rewrite (Qabs_neg (inject_Z m * 2 ^ k - x)) by exact Hle.
    unfold F2Q in Hnear. clear - Hnear Hy. lra.
Qed.

(** [fl x] is a float nearest to [x]: no float is nearer. *)
Lemma fl_nearest (x : Q) (y : float64) : Qabs (F2Q (fl x) - x) <= Qabs (F2Q y - x).
Proof.
  destruct (Q_dec x 0) as [[Hneg|Hpos]|E].
  - assert (0 < - x) as Hp by lra.
    pose proof (fl_pos_nearest (- x) (float_neg y) Hp) as H.
    rewrite F2Q_float_neg in H. rewrite fl_of_neg by exact Hneg.
    assert (- F2Q (fl_pos (- x)) - x == - (F2Q (fl_pos (- x)) - - x)) as -> by ring.
    assert (F2Q y - x == - (- F2Q y - - x)) as -> by ring.
    rewrite !Qabs_opp. exact H.
  - rewrite fl_of_pos by exact Hpos. apply fl_pos_nearest. exact Hpos.
  - assert (F2Q (fl x) - x == 0) as -> by (rewrite (fl_zero x E), E; ring).
    apply Qabs_nonneg.
Qed.

(** Rounding leaves a float as it is. *)
Lemma fl_float (x : float64) : F2Q (fl x) == F2Q x.
Proof.
  pose proof (fl_nearest x x) as H.
  assert (F2Q x - F2Q x == 0) as E by ring. rewrite E in H.
  change (Qabs 0) with 0 in H.
  pose proof (Qabs_nonneg (F2Q (fl x) - x)) as H0.
  assert (Qabs (F2Q (fl x) - x) == 0) as Hz by lra.
  revert Hz. apply Qabs_case; intros; lra.
Qed.

(** A number with a significand below [2 ^ 53] is a float, and rounding
    leaves it as it is. *)
Lemma fl_exact (R e : Z) (q : Q) :
  (Z.abs R < 2 ^ 53)%Z → q == inject_Z R * 2 ^ e → F2Q (fl q) == q.
Proof.
  intros HR Hq.
  pose proof (fl_nearest q (float_of_mant R e)) as H.
  rewrite F2Q_float_of_mant in H by lia.
  assert (inject_Z R * 2 ^ e - q == 0) as E by (rewrite Hq; ring).
  rewrite E in H. change (Qabs 0) with 0 in H.
  pose proof (Qabs_nonneg (F2Q (fl q) - q)) as H0.
  assert (Qabs (F2Q (fl q) - q) == 0) as Hz by lra.
  revert Hz. apply Qabs_case; intros; lra.
Qed.

(** Truncation towards zero: [int(t)] lies between 0 and [t], less than 1
    away from [t]. *)
Lemma py_int_trunc (t : Q) :
  Qabs (t - inject_Z (py_int t)) < 1 ∧ Qabs (t - inject_Z (py_int t)) <= Qabs t.
Proof.
  unfold py_int. destruct (Qle_bool 0 t) eqn:E.
  - apply Qle_bool_iff in E. pose proof (Qfloor_le t) as H1.
    pose proof (Qlt_floor t) as H2.
    rewrite inject_Z_plus in H2. change (inject_Z 1) with 1 in H2.
    assert (0 <= inject_Z (Qfloor t)) as H0.
    { change 0 with (inject_Z 0). rewrite <- Zle_Qle.
      rewrite <- (Qfloor_Z 0). apply Qfloor_resp_le. exact E. }
    rewrite (Qabs_pos t) by exact E. rewrite Qabs_pos by lra. split; lra.
  - assert (t < 0) as Hneg.
    { apply Qnot_le_lt. intros H. apply Qle_bool_iff in H. congruence. }
    pose proof (Qle_ceiling t) as H1. pose proof (Qceiling_lt t) as H2.
    rewrite inject_Z_pred in H2.
    assert (inject_Z (Qceiling t) <= 0) as H0.
    { change 0 with (inject_Z 0). rewrite <- Zle_Qle.
      rewrite <- (Qceiling_Z 0). apply Qceiling_resp_le.
      change (inject_Z 0) with 0. lra. }
    rewrite (Qabs_neg t) by lra. rewrite Qabs_neg by lra. split; lra.
Qed.

(** The remainder of [fmod] is a float: the rounding in [fmod] is exact. *)
Lemma fmod_exact (x y : float64) :
  ¬ F2Q y == 0 → F2Q (fmod x y) == F2Q x - inject_Z (py_int (F2Q x / F2Q y)) * F2Q y.
Proof.
  intros Hy. unfold fmod.
  destruct (py_int_trunc (F2Q x / F2Q y)) as [Hlt Hle].
  set (q := py_int (F2Q x / F2Q y)) in *.
  assert (0 < Qabs (F2Q y)) as Hypos.
  { pose proof (Qabs_nonneg (F2Q y)) as H. apply Qle_lteq in H as [H|H]; [exact H|].
    exfalso. apply Hy. revert H. apply Qabs_case; intros; lra. }
  assert (F2Q x - inject_Z q * F2Q y == (F2Q x / F2Q y - inject_Z q) * F2Q y) as Hr
    by (field; exact Hy).
  assert (Qabs (F2Q x - inject_Z q * F2Q y) < Qabs (F2Q y)) as Hr1.
  { rewrite Hr, Qabs_Qmult.
    assert (Qabs (F2Q x / F2Q y - inject_Z q) * Qabs (F2Q y) < 1 * Qabs (F2Q y))
      by (apply Qmult_lt_compat_r; assumption). lra. }
  assert (Qabs (F2Q x - inject_Z q * F2Q y) <= Qabs (F2Q x)) as Hr2.
  { rewrite Hr, Qabs_Qmult.
    assert (Qabs (F2Q x) == Qabs (F2Q x / F2Q y) * Qabs (F2Q y)) as ->.
    { rewrite <- Qabs_Qmult. apply Qabs_wd. field. exact Hy. }
    apply Qmult_le_compat_r; [exact Hle|lra]. }
  clearbody q. clear Hlt Hle Hr Hypos Hy.
  destruct x as [mx ex Hx], y as [my ey Hmy]. unfold F2Q in *. cbn [mant expo] in *.
  apply Z.ltb_lt in Hx, Hmy.
  set (e := Z.min ex ey).
  assert (2 ^ ex == inject_Z (2 ^ (ex - e)) * 2 ^ e) as Hex.
  { rewrite pow2_inject by lia. rewrite <- Qpower_plus by discriminate.
    replace (ex - e + e)%Z with ex by lia. reflexivity. }
  assert (2 ^ ey == inject_Z (2 ^ (ey - e)) * 2 ^ e) as Hey.
  { rewrite pow2_inject by lia. rewrite <- Qpower_plus by discriminate.
    replace (ey - e + e)%Z with ey by lia. reflexivity. }
  pose proof (pow2_pos e) as He.
  set (R := (mx * 2 ^ (ex - e) - q * (my * 2 ^ (ey - e)))%Z).
  assert (inject_Z mx * 2 ^ ex - inject_Z q * (inject_Z my * 2 ^ ey)
          == inject_Z R * 2 ^ e) as HR.
  { subst R. unfold Z.sub at 1. rewrite inject_Z_plus, inject_Z_opp, !inject_Z_mult.
    rewrite Hex, Hey. ring. }
  apply (fl_exact R e); [|exact HR].
  assert (∀ (z k : Z), Qabs (inject_Z z * 2 ^ k) == inject_Z (Z.abs z) * 2 ^ k) as Habs.
  { intros z k. rewrite Qabs_Qmult, (Qabs_pos (2 ^ k)) by (apply Qlt_le_weak, pow2_pos).
    reflexivity. }
  rewrite HR in Hr1, Hr2. rewrite !Habs in Hr1, Hr2.
  clearbody R.
  destruct (Z.le_ge_cases ex ey) as [Hc|Hc].
  - assert (e = ex) as Ee by (subst e; lia). clearbody e. subst e.
    assert (inject_Z (Z.abs R) <= inject_Z (Z.abs mx)) as H.
    { apply Qnot_lt_le. intros Hcontra.
      assert (inject_Z (Z.abs mx) * 2 ^ ex < inject_Z (Z.abs R) * 2 ^ ex)
        by (apply Qmult_lt_compat_r; assumption).
      clear - H Hr2. lra. }
    rewrite <- Zle_Qle in H. lia.
  - assert (e = ey) as Ee by (subst e; lia). clearbody e. subst e.
    assert (inject_Z (Z.abs R) < inject_Z (Z.abs my)) as H.
    { apply Qnot_le_lt. intros Hcontra.
      assert (inject_Z (Z.abs my) * 2 ^ ey <= inject_Z (Z.abs R) * 2 ^ ey)
        by (apply Qmult_le_compat_r; [exact Hcontra|apply Qlt_le_weak; exact He]).
      clear - H Hr1. lra. }
    rewrite <- Zlt_Qlt in H. lia.
Qed.

(** The floor of a float is a float. *)
Lemma fl_floor (x : float64) :
  F2Q (fl (inject_Z (Qfloor (F2Q x)))) == inject_Z (Qfloor (F2Q x)).
Proof.
  destruct x as [m e Hm]. unfold F2Q. cbn [mant expo]. apply Z.ltb_lt in Hm.
  destruct (Z.le_gt_cases 0 e) as [He|He].
  - assert (inject_Z m * 2 ^ e == inject_Z (m * 2 ^ e)) as E
      by (rewrite inject_Z_mult, pow2_inject by exact He; reflexivity).
    rewrite (Qfloor_comp _ _ E), Qfloor_Z.
    apply (fl_exact m e); [exact Hm|]. rewrite E. reflexivity.
  - apply (fl_exact (Qfloor (inject_Z m * 2 ^ e)) 0); [|change (2 ^ 0) with 1; ring].
    assert (2 ^ e <= 1) as H1.
    { change 1 with (2 ^ 0). apply pow2_le. lia. }
    pose proof (pow2_pos e) as Hp.
    assert (inject_Z (- Z.abs m) <= inject_Z m * 2 ^ e
            ∧ inject_Z m * 2 ^ e <= inject_Z (Z.abs m)) as [Ha Hb].
    { rewrite inject_Z_opp.
      assert (inject_Z (Z.abs m) == Qabs (inject_Z m)) as -> by reflexivity.
      revert H1 Hp. generalize (2 ^ e). intros c H1 Hp.
      apply Qabs_case; intros; split; nra. }
    apply Qfloor_resp_le in Ha, Hb. rewrite Qfloor_Z in Ha, Hb. lia.
Qed.

(** ** Float operations of Python *)

Lemma float_truediv_ok (x y : float64) :
  ¬ F2Q y == 0 → float_truediv x y = Ok (fl (x / y)).
Proof.
  intros H. unfold float_truediv.
  destruct (Qeq_bool y 0) eqn:E; [|reflexivity].
  apply Qeq_bool_iff in E. contradiction.
Qed.


Lemma float_divmod_zero (vx wx : float64) :
  F2Q wx == 0 → float_divmod vx wx = Raise ZeroDivisionError.
Proof.
  intros H. unfold float_divmod. apply Qeq_bool_iff in H. rewrite H. reflexivity.
Qed.


Lemma float_divmod_Ok_inv (vx wx : float64) (r : float64 * float64) :
  float_divmod vx wx = Ok r → ¬ F2Q wx == 0.
Proof.
  intros H Hz. rewrite (float_divmod_zero _ _ Hz) in H. discriminate.
Qed.

Lemma float_of_int_eq_0 (n : Z) : F2Q (float_of_int n) == 0 ↔ n = 0%Z.
Proof.
  unfold float_of_int. rewrite fl_eq_0_iff. unfold Qeq, inject_Z. cbn. lia.
Qed.

Lemma int_truediv_ok (a b : Z) :
  b ≠ 0%Z → int_truediv a b = Ok (fl (inject_Z a / inject_Z b)).
Proof.
  intros H. unfold int_truediv. destruct (Z.eqb_spec b 0); [contradiction|reflexivity].
Qed.

Lemma int_truediv_Ok_inv (a b : Z) (x : float64) :
  int_truediv a b = Ok x → x = fl (inject_Z a / inject_Z b) ∧ b ≠ 0%Z.
Proof.
  unfold int_truediv. destruct (Z.eqb_spec b 0); [discriminate|].
  intros [= <-]. split; [reflexivity|assumption].
Qed.


(** The model against the binary64 arithmetic of the machine, on the
    numbers that the examples below go through: conversions, products,
    quotients and differences agree. *)
Lemma model_agrees_with_binary64 :
  binary64_agrees (py_float (7 # 100)) (7 / 100)%float = true
  ∧ binary64_agrees (py_float (1 # 100000)) (1 / 100000)%float = true
  ∧ binary64_agrees (py_float (644 # 10)) (644 / 10)%float = true
  ∧ binary64_agrees (float_of_int (2 ^ 53 + 1)) (9007199254740992 + 1)%float = true
  ∧ binary64_agrees (float_mul (py_float (7 # 100)) (float_of_int 100))
      (7 / 100 * 100)%float = true
  ∧ binary64_agrees (float_mul (py_float (644 # 10)) (float_of_int 100))
      (644 / 10 * 100)%float = true
  ∧ (λ x, binary64_agrees x (1 / (1 / 100))%float)
      <$> float_truediv (float_of_int 1) (py_float (1 # 100)) = Ok true
  ∧ (λ x, binary64_agrees x (1 / (1 / 100000))%float)
      <$> float_truediv (float_of_int 1) (py_float (1 # 100000)) = Ok true
  ∧ (λ x, binary64_agrees x (7980000 / 14000000)%float)
      <$> int_truediv 7980000 14000000 = Ok true
  ∧ (λ x, binary64_agrees (float_mul (py_float 100) x)
            (100 * (7980000 / 14000000))%float)
      <$> int_truediv 7980000 14000000 = Ok true
  ∧ binary64_agrees (float_sub (py_float 100) (float_of_int 56)) (100 - 56)%float = true
  ∧ binary64_agrees (float_add (py_float (1 # 10)) (py_float (2 # 10)))
      (1 / 10 + 2 / 10)%float = true.
Proof. repeat split; vm_compute; reflexivity. Qed.

(** ** The volume splitter *)

(** Dividing by zero parts raises, whatever the quantity. *)
Lemma split_across_buckets_no_parts (quantity ticks : float64) :
  ¬ F2Q ticks == 0 → split_across_buckets quantity 0 ticks = Raise ZeroDivisionError.
Proof.
  intros H. unfold split_across_buckets.
  rewrite (float_truediv_ok _ _ H). cbn [mbind result_bind]. cbv zeta.
  rewrite float_divmod_zero; [reflexivity|].
  apply float_of_int_eq_0. reflexivity.
Qed.


(** C2.  The splitter on 7 ticks of 0.01 in 3 parts.  [int(1 / 0.01)] is
    100 and the float product [0.07 * 100] is 7.000000000000001, not 7, so
    that [divmod] by 3 leaves a remainder of more than one tick and the
    second part gets a tick as well: the parts are [0.03; 0.03; 0.02], 8
    ticks in all, where 7 ticks dealt out from the first part on are
    [0.03; 0.02; 0.02].  The same happens inside the constructor: an order of
    644 units in 10 buckets of 5 slices, at tick size 0.01, gets 64.41 units
    per bucket and is turned down by the constructor's own check of the
    sum.  The scenario of the claim, 1000 in 3 parts at tick size 1, does
    give [334; 333; 333]. *)
Theorem split_across_buckets_spurious_tick :
  (λ x : float64, py_int x) <$> float_truediv (float_of_int 1) (py_float (1 # 100))
    = Ok 100%Z
  ∧ Decimal_of_str (float_mul (py_float (7 # 100)) (float_of_int 100))
    = 7000000000000001 # 1000000000000000
  ∧ (∃ parts,
       split_across_buckets (py_float (7 # 100)) 3 (py_float (1 # 100)) = Ok parts
       ∧ Forall2 Qeq parts [3 # 100; 3 # 100; 2 # 100]
       ∧ Qsum parts == 8 # 100
       ∧ ¬ Qsum parts == 7 # 100)
  ∧ TWAPAlgo_init 20 (λ _, 0%Z) even_placement (-2) order_644
    = Raise (ValueError "Volumes split across orders didn't work out!")
  ∧ split_across_buckets (py_float 1000) 3 (py_float 1) = Ok [334; 333; 333].
Proof.
  split; [vm_compute; reflexivity|]. split; [vm_compute; reflexivity|]. split.
  - eexists. split; [vm_compute; reflexivity|]. split.
    + repeat constructor.
    + split; [reflexivity|discriminate].
  - split; vm_compute; reflexivity.
Qed.

(** ** Remaining volume *)

Example two_bucket_algo_built :
  TWAPAlgo_init 5 (λ _, 0%Z) midpoint_placement 0 two_bucket_order = Ok two_bucket_algo.
Proof. vm_compute. reflexivity. Qed.

Lemma update_remaining_volume_fill (a : ExecutionAlgo) (log : TradeLog)
    (event_type : option EventType) (v : Q) :
  0 < quantity log →
  bucket_vol_remaining a !! bucket_idx a = Some v →
  update_remaining_volume a (Some log) event_type =
    let a' :=
      set_bucket_vol_remaining
        (<[bucket_idx a := v - quantity log]> (bucket_vol_remaining a))
        (set_vol_remaining (vol_remaining a - quantity log) a) in
    if Qltb (vol_remaining a - quantity log)
            (- Dval (tick_size a) * inject_Z (Z.of_nat (length (bucket_volumes a))))
    then (a', too_much_volume)
    else if Qltb (v - quantity log) (- Dval (tick_size a))
    then (a', too_much_volume)
    else match event_type with
         | Some bucket_bound => (set_bucket_idx (bucket_idx a + 1) a', Returned)
         | _ => (a', Returned)
         end.
Proof.
  intros Hq Hv. apply Qltb_lt in Hq.
  unfold update_remaining_volume. rewrite Hq. cbn -[Qltb Qminus Qmult Qopp].
  rewrite Hv. cbn -[Qltb Qminus Qmult Qopp].
  destruct (Qltb (vol_remaining a - quantity log) _); [reflexivity|].
  rewrite list_lookup_insert_eq by (eapply lookup_lt_Some; eassumption).
  reflexivity.
Qed.

(** C1 (amended).  For a schedule whose bucket cursor designates a bucket and
    a fill of positive quantity, [update_remaining_volume] decrements the
    global and the current bucket's remaining volume by the quantity and
    leaves the other buckets alone; it raises the consistency error exactly
    when the decremented global remaining volume is below
    [- tick_size * number of buckets] or the decremented remaining volume of
    the current bucket is below [- tick_size], and otherwise returns, the
    bucket cursor having advanced by one exactly on a [bucket_bound] event. *)
Theorem update_remaining_volume_fill_spec (a : ExecutionAlgo) (log : TradeLog)
    (event_type : option EventType) (v : Q) :
  0 < quantity log →
  bucket_vol_remaining a !! bucket_idx a = Some v →
  let r := update_remaining_volume a (Some log) event_type in
  vol_remaining r.1 = vol_remaining a - quantity log
  ∧ bucket_vol_remaining r.1
    = <[bucket_idx a := v - quantity log]> (bucket_vol_remaining a)
  ∧ (r.2 = too_much_volume
     ↔ over_drawn a (vol_remaining a - quantity log) (v - quantity log))
  ∧ (r.2 = Returned
     ↔ ¬ over_drawn a (vol_remaining a - quantity log) (v - quantity log))
  ∧ (r.2 = Returned →
     bucket_idx r.1
     = if decide (event_type = Some bucket_bound) then S (bucket_idx a)
       else bucket_idx a).
Proof.
  intros Hq Hv r. subst r.
  rewrite (update_remaining_volume_fill a log event_type v Hq Hv).
  unfold over_drawn. cbv zeta.
  destruct (Qltb (vol_remaining a - quantity log) _) eqn:Eg.
  { apply Qltb_lt in Eg. cbn [fst snd].
    repeat split; try reflexivity; try discriminate; intros; try tauto. }
  apply Qltb_ge in Eg.
  destruct (Qltb (v - quantity log) _) eqn:Eb.
  { apply Qltb_lt in Eb. cbn [fst snd].
    repeat split; try reflexivity; try discriminate; intros; try tauto. }
  apply Qltb_ge in Eb.
  assert (Hno : ¬ (vol_remaining a - quantity log
                     < - Dval (tick_size a)
                       * inject_Z (Z.of_nat (length (bucket_volumes a)))
                   ∨ v - quantity log < - Dval (tick_size a))).
  { intros [H|H]; lra. }
  destruct event_type as [[|]|]; cbn [fst snd];
    (split; [reflexivity|]); (split; [reflexivity|]);
    (split; [split; [discriminate|tauto]|]);
    (split; [tauto|]); intros _;
    destruct (decide _) as [E|E]; try discriminate; try reflexivity;
    try (exfalso; apply E; reflexivity).
  cbn. lia.
Qed.

Lemma update_remaining_volume_fill_spec_witness :
  let r :=
    update_remaining_volume two_bucket_algo (Some {| quantity := 2 |})
      (Some bucket_bound) in
  vol_remaining r.1 = 2 - 2
  ∧ bucket_vol_remaining r.1 = <[0%nat := 1 - 2]> [1; 1]
  ∧ (r.2 = too_much_volume ↔ over_drawn two_bucket_algo (2 - 2) (1 - 2))
  ∧ (r.2 = Returned ↔ ¬ over_drawn two_bucket_algo (2 - 2) (1 - 2))
  ∧ (r.2 = Returned →
     bucket_idx r.1
     = if decide (Some bucket_bound = Some bucket_bound) then 1%nat else 0%nat).
Proof.
  apply (update_remaining_volume_fill_spec two_bucket_algo {| quantity := 2 |}
           (Some bucket_bound) 1).
  - reflexivity.
  - reflexivity.
Defined.

(** C1 as stated fails: after two fills of 2 units the global remaining volume
    of [two_bucket_algo] is -2, below [- tick_size = -1], and neither call
    raises. *)
Lemma update_remaining_volume_global_floor_counterexample :
  let fill := Some {| quantity := 2 |} in
  let r1 := update_remaining_volume two_bucket_algo fill (Some bucket_bound) in
  let r2 := update_remaining_volume r1.1 fill None in
  r1.2 = Returned ∧ r2.2 = Returned
  ∧ vol_remaining r2.1 < - Dval (tick_size two_bucket_algo)
  ∧ ¬ (r2.2 = too_much_volume
       ↔ (vol_remaining r2.1 < - Dval (tick_size two_bucket_algo)
          ∨ default 0 (bucket_vol_remaining r2.1 !! bucket_idx r2.1)
            < - Dval (tick_size two_bucket_algo))).
Proof.
  cbv zeta. split; [reflexivity|]. split; [reflexivity|].
  assert (H : vol_remaining
                (update_remaining_volume
                   (update_remaining_volume two_bucket_algo
                      (Some {| quantity := 2 |}) (Some bucket_bound)).1
                   (Some {| quantity := 2 |}) None).1
              < - Dval (tick_size two_bucket_algo)).
  { vm_compute. reflexivity. }
  split; [exact H|].
  intros [_ Himp]. specialize (Himp (or_introl H)). vm_compute in Himp. discriminate.
Qed.

(** Without a fill the call only runs the consistency check and the cursor
    update. *)
Lemma update_remaining_volume_no_fill (a : ExecutionAlgo) (trade_log : option TradeLog)
    (event_type : option EventType) :
  (trade_log = None ∨ ∃ log, trade_log = Some log ∧ quantity log <= 0) →
  update_remaining_volume a trade_log event_type =
    if Qltb (vol_remaining a)
            (- Dval (tick_size a) * inject_Z (Z.of_nat (length (bucket_volumes a))))
    then (a, too_much_volume)
    else match bucket_vol_remaining a !! bucket_idx a with
         | None => (a, Raised IndexError)
         | Some v =>
             if Qltb v (- Dval (tick_size a)) then (a, too_much_volume)
             else match event_type with
                  | Some bucket_bound => (set_bucket_idx (bucket_idx a + 1) a, Returned)
                  | _ => (a, Returned)
                  end
         end.
Proof.
  intros [->|(log & -> & Hq)]; unfold update_remaining_volume.
  - reflexivity.
  - apply Qltb_ge in Hq. rewrite Hq. reflexivity.
Qed.

(** C10 (amended).  A call with a missing trade log, or with a fill quantity of
    zero or less, leaves the global and every per-bucket remaining volume
    unchanged in every state.  When the state passes the consistency check
    (the bucket cursor designates a bucket, the global remaining volume is not
    below [- tick_size * number of buckets] and the current bucket's is not
    below [- tick_size]) the call returns and the bucket cursor advances by one
    exactly on a [bucket_bound] event; in any other state the call raises and
    the cursor stays. *)
Theorem update_remaining_volume_no_fill_spec (a : ExecutionAlgo)
    (trade_log : option TradeLog) (event_type : option EventType) :
  (trade_log = None ∨ ∃ log, trade_log = Some log ∧ quantity log <= 0) →
  let r := update_remaining_volume a trade_log event_type in
  vol_remaining r.1 = vol_remaining a
  ∧ bucket_vol_remaining r.1 = bucket_vol_remaining a
  ∧ (∀ v, bucket_vol_remaining a !! bucket_idx a = Some v →
          ¬ over_drawn a (vol_remaining a) v →
          r.2 = Returned
          ∧ bucket_idx r.1
            = if decide (event_type = Some bucket_bound) then S (bucket_idx a)
              else bucket_idx a)
  ∧ ((bucket_vol_remaining a !! bucket_idx a = None
      ∨ ∃ v, bucket_vol_remaining a !! bucket_idx a = Some v
             ∧ over_drawn a (vol_remaining a) v) →
     r.2 ≠ Returned ∧ bucket_idx r.1 = bucket_idx a).
Proof.
  intros Hlog r. subst r.
  rewrite (update_remaining_volume_no_fill a trade_log event_type Hlog).
  unfold over_drawn.
  destruct (Qltb (vol_remaining a) _) eqn:Eg.
  { apply Qltb_lt in Eg. cbn [fst snd].
    split; [reflexivity|]. split; [reflexivity|]. split.
    - intros v _ Hno. exfalso. apply Hno. left. exact Eg.
    - intros _. split; [discriminate|reflexivity]. }
  apply Qltb_ge in Eg.
  destruct (bucket_vol_remaining a !! bucket_idx a) as [v|] eqn:Ev.
  2:{ cbn [fst snd]. split; [reflexivity|]. split; [reflexivity|]. split.
      - intros v Hv. discriminate.
      - intros _. split; [discriminate|reflexivity]. }
  destruct (Qltb v _) eqn:Eb.
  { apply Qltb_lt in Eb. cbn [fst snd].
    split; [reflexivity|]. split; [reflexivity|]. split.
    - intros v' [= <-] Hno. exfalso. apply Hno. right. exact Eb.
    - intros _. split; [discriminate|reflexivity]. }
  apply Qltb_ge in Eb.
  assert (Hbad :
    ¬ (Some v = None ∨ ∃ v', Some v = Some v'
         ∧ (vol_remaining a
              < - Dval (tick_size a)
                * inject_Z (Z.of_nat (length (bucket_volumes a)))
            ∨ v' < - Dval (tick_size a)))).
  { intros [?|(v' & [= <-] & [H|H])]; [discriminate|lra|lra]. }
  destruct event_type as [[|]|]; cbn [fst snd];
    (split; [reflexivity|]); (split; [reflexivity|]);
    (split; [|intros Hc; exfalso; exact (Hbad Hc)]);
    intros v' _ _; (split; [reflexivity|]);
    destruct (decide _) as [E|E]; try discriminate; try reflexivity;
    try (exfalso; apply E; reflexivity).
  cbn. lia.
Qed.

Lemma update_remaining_volume_no_fill_spec_witness :
  let a := two_bucket_algo in
  let r := update_remaining_volume a None (Some bucket_bound) in
  vol_remaining r.1 = vol_remaining a
  ∧ bucket_vol_remaining r.1 = bucket_vol_remaining a
  ∧ r.2 = Returned
  ∧ bucket_idx r.1 = S (bucket_idx a).
Proof.
  destruct (update_remaining_volume_no_fill_spec two_bucket_algo None
              (Some bucket_bound)) as (Hglobal & Hbuckets & Hadvance & _).
  - left. reflexivity.
  - split; [exact Hglobal|]. split; [exact Hbuckets|].
    apply (Hadvance 1); [reflexivity|].
    unfold over_drawn. intros [H|H]; vm_compute in H; discriminate.
Defined.

(** C10 as stated fails in a state that does not pass the consistency check.
    A fill of 5 units on [two_bucket_algo] raises and leaves the global
    remaining volume at -3; a later call without trade log on a [bucket_bound]
    event raises again, and the bucket cursor does not advance. *)
Lemma update_remaining_volume_cursor_counterexample :
  let r1 := update_remaining_volume two_bucket_algo (Some {| quantity := 5 |}) None in
  let r2 := update_remaining_volume r1.1 None (Some bucket_bound) in
  r1.2 = too_much_volume
  ∧ r2.2 = too_much_volume
  ∧ bucket_idx r2.1 = bucket_idx r1.1
  ∧ bucket_idx r2.1 ≠ S (bucket_idx r1.1).
Proof.
  cbv zeta. split; [reflexivity|]. split; [reflexivity|].
  split; [reflexivity|]. vm_compute. discriminate.
Qed.

(** ** Reward policies *)

(** Every policy whose body sits in [try ... except] answers zero when the
    broker cannot compute the prices of the window. *)
Lemma guarded_rewards_neutral (policy : RewardPolicy) (env : BaseEnv) (e : exn) :
  (∀ s t, calc_vwap_from_logs (broker env) s t = Raise e) →
  policy ≠ PerStepSign →
  is_Some (volumes_per_trade (benchmark_algo (broker env)) !! env_bucket_idx env) →
  reward_func policy env = Ok 0.
Proof.
  intros Hraise Hpol [row Hrow].
  destruct policy; try contradiction; cbn [reward_func].
  - unfold RewardAtStepEnv.reward_func, step_window. rewrite Hraise. reflexivity.
  - unfold RewardAtBucketEnv.reward_func, bucket_window. rewrite Hraise.
    destruct (_ =? _)%Z; reflexivity.
  - unfold RewardAtEpisodeEnv.reward_func. rewrite Hraise.
    destruct (done env); reflexivity.
  - unfold NarrowTradeLimitEnvContinuous.reward_func, bucket_window. rewrite Hraise.
    destruct (_ =? _)%Z; reflexivity.
  - unfold NarrowTradeLimitEnvDiscrete.reward_func, bucket_window, py_index.
    rewrite Hrow, Hraise. cbn [mbind result_bind].
    destruct (_ =? _)%Z; reflexivity.
  - unfold DollarRewardAtStepEnv.reward_func, step_window. rewrite Hraise. reflexivity.
Qed.

(** The per-step sign policy has no [try ... except]: the error of the broker
    propagates. *)
Lemma sign_reward_propagates (env : BaseEnv) (e : exn) :
  step_window env = Raise e → ExampleEnvRewardAtStep.reward_func env = Raise e.
Proof.
  intros H. unfold ExampleEnvRewardAtStep.reward_func. rewrite H. reflexivity.
Qed.

(** C6, at a window without trades (the broker raises): the per-step sign
    policy raises, while the six other policies answer zero. *)
Theorem sign_reward_raises_on_empty_window :
  let env := env_with 1 (Raise ZeroDivisionError) in
  reward_func PerStepSign env = Raise ZeroDivisionError
  ∧ reward_func PerStepPercent env = Ok 0
  ∧ reward_func PerBucketPercent env = Ok 0
  ∧ reward_func PerEpisodePercent env = Ok 0
  ∧ reward_func PerBucketDollar env = Ok 0
  ∧ reward_func PerBucketDollarVolume env = Ok 0
  ∧ reward_func PerStepDollar env = Ok 0.
Proof. cbv zeta. repeat split. Qed.

(** C8 (amended).  Per-step percentage policy: a buy window with benchmark
    price 100 and adaptive price 99 yields [100/99 - 1], which is 0.0101 to
    four decimals; a sell window with benchmark price 100 and adaptive price
    101 yields [101/100 - 1 = 0.01].  Per-step dollar policy: the buy window
    yields 1. *)
Theorem step_rewards_scenarios (buy sell : BaseEnv) :
  trade_dir buy = 1%Z →
  step_window buy = Ok (100, 99) →
  trade_dir sell = (-1)%Z →
  step_window sell = Ok (100, 101) →
  RewardAtStepEnv.reward_func buy = Ok (100 / 99 - 1)
  ∧ approx4 (100 / 99 - 1) (101 # 10000)
  ∧ RewardAtStepEnv.reward_func sell = Ok (101 / 100 - 1)
  ∧ 101 / 100 - 1 == 1 # 100
  ∧ DollarRewardAtStepEnv.reward_func buy = Ok (100 - 99)
  ∧ 100 - 99 == 1.
Proof.
  intros Hb Hwb Hs Hws.
  unfold RewardAtStepEnv.reward_func, DollarRewardAtStepEnv.reward_func.
  rewrite Hb, Hwb, Hs, Hws.
  repeat split; vm_compute; congruence.
Qed.

Lemma step_rewards_scenarios_witness :
  RewardAtStepEnv.reward_func (env_with 1 (Ok (100, 99))) = Ok (100 / 99 - 1)
  ∧ approx4 (100 / 99 - 1) (101 # 10000)
  ∧ RewardAtStepEnv.reward_func (env_with (-1) (Ok (100, 101))) = Ok (101 / 100 - 1)
  ∧ 101 / 100 - 1 == 1 # 100
  ∧ DollarRewardAtStepEnv.reward_func (env_with 1 (Ok (100, 99))) = Ok (100 - 99)
  ∧ 100 - 99 == 1.
Proof.
  apply (step_rewards_scenarios (env_with 1 (Ok (100, 99)))
           (env_with (-1) (Ok (100, 101)))); reflexivity.
Defined.

(** C8 as stated fails for the sell window: the reward is [101/100 - 1 = 0.01],
    which is not 0.0099 to four decimals. *)
Lemma sell_reward_counterexample :
  RewardAtStepEnv.reward_func (env_with (-1) (Ok (100, 101))) = Ok (101 / 100 - 1)
  ∧ ¬ approx4 (101 / 100 - 1) (99 # 10000).
Proof.
  split; [reflexivity|]. unfold approx4. vm_compute. intros H. apply H. reflexivity.
Qed.

(** ** Inversion of the error monad *)

Lemma bind_Ok {A B} (m : result A) (f : A → result B) (b : B) :
  (m ≫= f) = Ok b → ∃ a, m = Ok a ∧ f a = Ok b.
Proof. destruct m as [a| |]; cbn; intros H; [eauto|discriminate..]. Qed.

Lemma py_index_Ok {A} (l : list A) (i : nat) (x : A) :
  py_index l i = Ok x ↔ l !! i = Some x.
Proof.
  unfold py_index. destruct (l !! i); split; intros H; congruence.
Qed.

(** Splits a hypothesis [(x ← m; k) = Ok b] into [m = Ok x] and [k = Ok b]. *)
Ltac inv_bind H :=
  let x := fresh "x" in
  let E := fresh "E" in
  apply bind_Ok in H as (x & E & H).

(** ** The volume inferred from an action *)

Lemma py_truediv_Ok_inv (x y q : Q) : py_truediv x y = Ok q → q = x / y ∧ ¬ y == 0.
Proof.
  unfold py_truediv. destruct (Qeq_bool y 0) eqn:E; [discriminate|].
  intros [= <-]. split; [reflexivity|]. intros H. apply Qeq_bool_iff in H. congruence.
Qed.

(** What [infer_volume_from_action] returns: the raw volume [cur + action *
    default] is rounded down to a multiple [q] of [10 ^ exponent] of the tick
    size, and [q] is replaced by the remaining volume of the bucket when it
    exceeds it.  [q] is a multiple of the tick size when the coefficient of
    the tick size is 1. *)
Lemma infer_volume_from_action_inv (env : BaseEnv) (action v : Q) :
  infer_volume_from_action env action = Ok v →
  let rl := rl_algo (broker env) in
  let bmk := benchmark_algo (broker env) in
  ∃ row cur row_default default_volume remaining,
    volumes_per_trade rl !! bucket_idx rl = Some row
    ∧ row !! order_idx rl = Some cur
    ∧ volumes_per_trade_default bmk !! bucket_idx rl = Some row_default
    ∧ row_default !! order_idx rl = Some default_volume
    ∧ bucket_vol_remaining rl !! bucket_idx rl = Some remaining
    ∧ let raw := cur + action * default_volume in
      let factor := 10 ^ (- exponent (tick_size bmk)) in
      let q := inject_Z (Qfloor (raw * factor)) / factor in
      q <= raw
      ∧ q == inject_Z (Qfloor (raw * factor)) * 10 ^ exponent (tick_size bmk)
      ∧ (coefficient (tick_size bmk) = 1%Z →
         q == inject_Z (Qfloor (raw * factor)) * Dval (tick_size bmk))
      ∧ v = (if Qltb remaining q then remaining else q)
      ∧ v <= remaining.
Proof.
  intros H rl bmk. unfold infer_volume_from_action in H. fold rl bmk in H.
  inv_bind H. rename x into row, E into Hrow. apply py_index_Ok in Hrow.
  inv_bind H. rename x into cur, E into Hcur. apply py_index_Ok in Hcur.
  inv_bind H. rename x into row_default, E into Hrowd. apply py_index_Ok in Hrowd.
  inv_bind H. rename x into default_volume, E into Hdef. apply py_index_Ok in Hdef.
  inv_bind H. rename x into q, E into Hq. apply py_truediv_Ok_inv in Hq as [-> Hf].
  inv_bind H. rename x into remaining, E into Hrem. apply py_index_Ok in Hrem.
  exists row, cur, row_default, default_volume, remaining.
  repeat (split; [assumption|]). cbv zeta.
  set (raw := cur + action * default_volume) in *.
  set (e := exponent (tick_size bmk)) in *.
  assert (Hpos : 0 < 10 ^ (- e)) by (apply Qpower_0_lt; reflexivity).
  assert (Hpos' : 0 < 10 ^ e) by (apply Qpower_0_lt; reflexivity).
  assert (Hinv : 10 ^ (- e) == / 10 ^ e) by apply Qpower_opp.
  assert (Hmul : inject_Z (Qfloor (raw * 10 ^ (- e))) / 10 ^ (- e)
                 == inject_Z (Qfloor (raw * 10 ^ (- e))) * 10 ^ e).
  { unfold Qdiv. rewrite Hinv at 2. rewrite Qinv_involutive. reflexivity. }
  split; [|split; [exact Hmul|split]].
  - apply Qle_shift_div_r; [exact Hpos|]. apply Qfloor_le.
  - intros Hc. rewrite Hmul. unfold Dval. fold e. rewrite Hc. ring.
  - destruct (Qltb remaining _) eqn:Ec.
    + injection H as <-. split; [reflexivity|]. lra.
    + injection H as <-. split; [reflexivity|]. apply Qltb_ge in Ec. exact Ec.
Qed.

(** C5, on a book with whole-number volumes: the tick size is the decimal
    [1.0], the volume inferred for action 0.8 on a default slice volume of 1 is
    0.8, which is not a multiple of the tick size. *)
Theorem infer_volume_not_tick_multiple :
  let env := env_with 1 (Ok (100, 99)) in
  tick_size (benchmark_algo (broker env)) = tick_size_of_exponent 0
  ∧ Dval (tick_size (benchmark_algo (broker env))) == 1
  ∧ infer_volume_from_action env (8 # 10) = Ok (8 # 10)
  ∧ ¬ ∃ k : Z, 8 # 10 == inject_Z k * Dval (tick_size (benchmark_algo (broker env))).
Proof.
  cbv zeta. split; [reflexivity|]. split; [reflexivity|]. split; [reflexivity|].
  intros [k Hk]. unfold Qeq, Dval, Qmult, inject_Z in Hk. cbn in Hk. lia.
Qed.

(** ** The tick size *)

Lemma Dval_tick_size_of_exponent (e : Z) :
  Dval (tick_size_of_exponent e) == / inject_Z (10 ^ Z.abs e).
Proof.
  unfold tick_size_of_exponent.
  destruct (Z.eqb_spec (Z.abs e) 0) as [E|E].
  - rewrite E. reflexivity.
  - unfold Dval. cbn [coefficient exponent].
    rewrite Qpower_opp, Zpower_Qpower by lia.
    assert (inject_Z 1 == 1) as -> by reflexivity.
    assert (inject_Z 10 == 10) as -> by reflexivity. ring.
Qed.

Lemma pow10_pos (n : Z) : (0 ≤ n)%Z → 0 < inject_Z (10 ^ n).
Proof.
  intros Hn. assert (inject_Z 0 == 0) as <- by reflexivity.
  rewrite <- Zlt_Qlt. apply Z.pow_pos_nonneg; lia.
Qed.

Lemma Dval_tick_pos (e : Z) : 0 < Dval (tick_size_of_exponent e).
Proof.
  rewrite Dval_tick_size_of_exponent. apply Qinv_lt_0_compat, pow10_pos. lia.
Qed.

(** The tick multiplier of a tick size [10^-d] is [10^d]. *)
Lemma tick_multiplier_tick (e : Z) :
  tick_multiplier (tick_size_of_exponent e) = Ok (10 ^ Z.abs e)%Z.
Proof.
  unfold tick_multiplier. pose proof (Dval_tick_pos e) as Hpos.
  rewrite py_truediv_ok by lra. cbn [mbind result_bind]. f_equal.
  rewrite <- (py_int_inject_Z (10 ^ Z.abs e)). apply py_int_comp.
  rewrite Dval_tick_size_of_exponent. pose proof (pow10_pos (Z.abs e) ltac:(lia)).
  field. lra.
Qed.

(** ** The loop that builds the bounds *)

Lemma bucket_bounds_loop_exit (fuel : nat) (randint : nat → Z) (calls : nat)
    (w : Q) (rand_width : option Z) (end_time : Z) (b : list Z) (prev : Z) :
  last b = Some prev →
  (end_time ≤ prev)%Z →
  bucket_bounds_loop (S fuel) randint calls w rand_width end_time b = Ok (b, calls).
Proof.
  intros Hlast Hge. cbn [bucket_bounds_loop]. rewrite Hlast. cbn [default from_option id].
  destruct (Z.ltb_spec prev end_time); [lia|reflexivity].
Qed.

Lemma bucket_bounds_loop_step (fuel : nat) (randint : nat → Z) (calls calls' : nat)
    (w : Q) (rand_width : option Z) (end_time : Z) (b : list Z) (prev r : Z) :
  last b = Some prev →
  (prev < end_time)%Z →
  draw_rand_add randint calls rand_width = Ok (r, calls') →
  bucket_bounds_loop (S fuel) randint calls w rand_width end_time b =
    bucket_bounds_loop fuel randint calls' w rand_width end_time
      (b ++ [(prev + timedelta_of_seconds (w * (1 + inject_Z r / 100)))%Z]).
Proof.
  intros Hlast Hlt Hdraw. cbn [bucket_bounds_loop]. rewrite Hlast. cbn [default from_option id].
  destruct (Z.ltb_spec prev end_time); [|lia].
  rewrite Hdraw. reflexivity.
Qed.

(** ** A span of at most one bucket width *)

(** Without jitter, a span that does not exceed the bucket width gives the
    bounds [start, end]: one bucket. *)
Lemma Bucket_init_single (fuel : nat) (randint : nat → Z) (calls : nat)
    (start_time end_time : Z) (rand_width : option Z) (w : Q) :
  (start_time < end_time)%Z →
  _bucket_size (end_time - start_time) = Ok w →
  (end_time - start_time ≤ timedelta_of_seconds w)%Z →
  rand_width = None ∨ rand_width = Some 0%Z →
  (2 ≤ fuel)%nat →
  Bucket_init fuel randint calls start_time end_time rand_width =
    Ok ({| start_time := start_time; end_time := end_time;
           duration := end_time - start_time; bucket_width := w;
           rand_width := rand_width;
           bucket_bounds := [start_time; end_time]; n_buckets := 1 |}, calls).
Proof.
  intros Hlt Hw Hspan Hrw Hfuel.
  unfold Bucket_init.
  assert (Hd : Qltb (total_seconds (end_time - start_time)) 0 = false).
  { apply Qltb_ge. unfold total_seconds.
    apply Qle_shift_div_l; [reflexivity|]. rewrite Qmult_0_l.
    assert (inject_Z 0 == 0) as <- by reflexivity. rewrite <- Zle_Qle. lia. }
  rewrite Hd, Hw. cbn [mbind result_bind].
  destruct fuel as [|[|fuel]]; try lia.
  assert (Hdraw : draw_rand_add randint calls rand_width = Ok (0%Z, calls)).
  { destruct Hrw as [-> | ->]; reflexivity. }
  assert (Hstep : timedelta_of_seconds (w * (1 + inject_Z 0 / 100))
                  = timedelta_of_seconds w).
  { unfold timedelta_of_seconds. apply round_half_even_comp.
    assert (inject_Z 0 == 0) as -> by reflexivity. field. }
  unfold Bucket_bucket_bounds.
  rewrite (bucket_bounds_loop_step _ _ _ calls _ _ _ [start_time] start_time 0%Z
             eq_refl Hlt Hdraw).
  rewrite Hstep.
  rewrite (bucket_bounds_loop_exit _ _ _ _ _ _ _ (start_time + timedelta_of_seconds w)%Z)
    by (reflexivity || lia).
  cbn [mbind result_bind app last default from_option id].
  destruct (Z.leb_spec end_time (start_time + timedelta_of_seconds w)) as [_|]; [|lia].
  reflexivity.
Qed.

Lemma split_volume_single_bucket (vol : Q) (e : Z) (b : Bucket) (s t : Z) :
  bucket_bounds b = [s; t] →
  n_buckets b = 1%nat →
  (s < t)%Z →
  ∃ m perc vol_last,
    tick_multiplier (tick_size_of_exponent e) = Ok m
    ∧ int_truediv (t - s) (t - s) = Ok perc
    ∧ int_truediv
        (math_floor (float_mul (float_mul (py_float vol) perc) (float_of_int m))) m
      = Ok vol_last
    ∧ split_across_buckets (float_sub (py_float vol) vol_last) (n_buckets b - 1)
        (py_float (Dval (tick_size_of_exponent e))) = Raise ZeroDivisionError
    ∧ _split_volume_across_buckets vol (tick_size_of_exponent e) b
      = Raise ZeroDivisionError.
Proof.
  intros Hb Hn Hlt.
  assert (Hm : (10 ^ Z.abs e ≠ 0)%Z) by (apply Z.pow_nonzero; lia).
  exists (10 ^ Z.abs e)%Z. eexists. eexists.
  split; [apply tick_multiplier_tick|].
  split; [apply int_truediv_ok; lia|].
  split; [apply int_truediv_ok; exact Hm|].
  assert (Hsplit : ∀ q, split_across_buckets q (n_buckets b - 1)
                          (py_float (Dval (tick_size_of_exponent e)))
                        = Raise ZeroDivisionError).
  { intros q. rewrite Hn. apply split_across_buckets_no_parts.
    unfold py_float. rewrite fl_eq_0_iff. pose proof (Dval_tick_pos e). lra. }
  split; [apply Hsplit|].
  unfold _split_volume_across_buckets. rewrite Hb.
  unfold py_index_back, py_index. cbn [length lookup list_lookup].
  destruct (decide (1 ≤ 2)%nat); [|lia]. destruct (decide (2 ≤ 2)%nat); [|lia].
  cbn [Nat.sub lookup list_lookup mbind result_bind].
  rewrite int_truediv_ok by lia.
  cbn [mbind result_bind]. rewrite tick_multiplier_tick. cbn [mbind result_bind].
  rewrite int_truediv_ok by exact Hm. cbn [mbind result_bind].
  rewrite Hsplit. reflexivity.
Qed.

(** C9.  For an order whose span is positive and does not exceed the bucket
    width of its duration range, without jitter, there is exactly one bucket;
    the last (only) bucket's volume is computed, and splitting the rest across
    [n_buckets - 1 = 0] buckets raises [ZeroDivisionError], which is what the
    construction of the benchmark schedule raises. *)
Theorem single_bucket_division_by_zero (fuel : nat) (randint : nat → Z)
    (bucket_placement_func : nat → nat → placement_sample) (e : Z)
    (p : OrderParams) (w : Q) :
  (p_start_time p < p_end_time p)%Z →
  _bucket_size (p_end_time p - p_start_time p) = Ok w →
  (p_end_time p - p_start_time p ≤ timedelta_of_seconds w)%Z →
  p_rand_bucket_bounds_width p = None ∨ p_rand_bucket_bounds_width p = Some 0%Z →
  (2 ≤ fuel)%nat →
  ∃ b m perc vol_last,
    Bucket_init fuel randint 0 (p_start_time p) (p_end_time p)
      (p_rand_bucket_bounds_width p) = Ok (b, 0%nat)
    ∧ bucket_bounds b = [p_start_time p; p_end_time p]
    ∧ n_buckets b = 1%nat
    ∧ tick_multiplier (tick_size_of_exponent e) = Ok m
    ∧ int_truediv (p_end_time p - p_start_time p) (p_end_time p - p_start_time p)
      = Ok perc
    ∧ int_truediv
        (math_floor (float_mul (float_mul (py_float (p_volume p)) perc)
                       (float_of_int m))) m
      = Ok vol_last
    ∧ split_across_buckets (float_sub (py_float (p_volume p)) vol_last)
        (n_buckets b - 1) (py_float (Dval (tick_size_of_exponent e)))
      = Raise ZeroDivisionError
    ∧ TWAPAlgo_init fuel randint bucket_placement_func e p = Raise ZeroDivisionError.
Proof.
  intros Hlt Hw Hspan Hrw Hfuel.
  pose proof (Bucket_init_single fuel randint 0 _ _ _ w Hlt Hw Hspan Hrw Hfuel) as Hb.
  set (b := {| start_time := p_start_time p; end_time := p_end_time p;
               duration := p_end_time p - p_start_time p; bucket_width := w;
               rand_width := p_rand_bucket_bounds_width p;
               bucket_bounds := [p_start_time p; p_end_time p];
               n_buckets := 1 |}) in *.
  exists b.
  destruct (split_volume_single_bucket (p_volume p) e b (p_start_time p) (p_end_time p)
              eq_refl eq_refl Hlt) as (m & perc & vol_last & Hm & Hp & Hv & Hs & Hsv).
  exists m, perc, vol_last.
  split; [exact Hb|]. split; [reflexivity|]. split; [reflexivity|].
  split; [exact Hm|]. split; [exact Hp|]. split; [exact Hv|]. split; [exact Hs|].
  unfold TWAPAlgo_init. rewrite Hb. cbn [mbind result_bind].
  rewrite Hsv. reflexivity.
Qed.

Lemma single_bucket_division_by_zero_witness :
  let p := {| p_trade_direction := 1; p_volume := 1000; p_no_of_slices := 3;
              p_start_time := 0; p_end_time := 5000000;
              p_rand_bucket_bounds_width := None |} in
  ∃ b m perc vol_last,
    Bucket_init 2 (λ _, 0%Z) 0 (p_start_time p) (p_end_time p)
      (p_rand_bucket_bounds_width p) = Ok (b, 0%nat)
    ∧ bucket_bounds b = [p_start_time p; p_end_time p]
    ∧ n_buckets b = 1%nat
    ∧ tick_multiplier (tick_size_of_exponent (-2)) = Ok m
    ∧ int_truediv (p_end_time p - p_start_time p) (p_end_time p - p_start_time p)
      = Ok perc
    ∧ int_truediv
        (math_floor (float_mul (float_mul (py_float (p_volume p)) perc)
                       (float_of_int m))) m
      = Ok vol_last
    ∧ split_across_buckets (float_sub (py_float (p_volume p)) vol_last)
        (n_buckets b - 1) (py_float (Dval (tick_size_of_exponent (-2))))
      = Raise ZeroDivisionError
    ∧ TWAPAlgo_init 2 (λ _, 0%Z) midpoint_placement (-2) p = Raise ZeroDivisionError.
Proof.
  intros p.
  apply (single_bucket_division_by_zero 2 (λ _, 0%Z) midpoint_placement (-2) p 7).
  - reflexivity.
  - vm_compute. reflexivity.
  - vm_compute. discriminate.
  - left. reflexivity.
  - lia.
Defined.

(** ** Construction of the benchmark schedule *)

(** What a successful construction went through. *)
Lemma TWAPAlgo_init_inv (fuel : nat) (randint : nat → Z)
    (bucket_placement_func : nat → nat → placement_sample) (e : Z)
    (p : OrderParams) (a : ExecutionAlgo) :
  TWAPAlgo_init fuel randint bucket_placement_func e p = Ok a →
  let tick := tick_size_of_exponent e in
  ∃ b draws bucket_vol exec_times events calls split_vols,
    Bucket_init fuel randint 0 (p_start_time p) (p_end_time p)
      (p_rand_bucket_bounds_width p) = Ok (b, draws)
    ∧ _split_volume_across_buckets (p_volume p) tick b = Ok bucket_vol
    ∧ Qabs (Qsum bucket_vol - p_volume p) <= Dval tick
    ∧ _sample_execution_times bucket_placement_func fuel 0 (p_no_of_slices p) b
      = Ok (exec_times, events, calls)
    ∧ _split_volume_within_buckets bucket_vol (p_no_of_slices p) tick b = Ok split_vols
    ∧ Qabs (Qsum (concat split_vols) - p_volume p) <= Dval tick
    ∧ a = {| trade_direction := p_trade_direction p; volume := p_volume p;
             no_of_slices := p_no_of_slices p; tick_size := tick;
             buckets := b; bucket_volumes := bucket_vol;
             execution_times := exec_times; algo_events := events;
             volumes_per_trade := split_vols;
             volumes_per_trade_default := split_vols;
             vol_remaining := p_volume p; bucket_vol_remaining := bucket_vol;
             event_idx := 0; order_idx := 0; bucket_idx := 0 |}.
Proof.
  intros H tick. unfold TWAPAlgo_init in H. fold tick in H.
  inv_bind H. destruct x as [b draws]. rename E into Hb.
  inv_bind H. rename x into bucket_vol, E into Hbv.
  destruct (Qltb (Dval tick) (Qabs (Qsum bucket_vol - p_volume p))) eqn:Hc1;
    [discriminate|].
  inv_bind H. destruct x as [[exec_times events] calls]. rename E into Hs.
  inv_bind H. rename x into split_vols, E into Hsv.
  destruct (Qltb (Dval tick) (Qabs (Qsum (concat split_vols) - p_volume p))) eqn:Hc2;
    [discriminate|].
  injection H as <-.
  apply Qltb_ge in Hc1, Hc2.
  exists b, draws, bucket_vol, exec_times, events, calls, split_vols.
  repeat (split; [assumption|]). reflexivity.
Qed.

(** What a successful split across the buckets computed. *)
Lemma split_volume_across_buckets_inv (vol : Q) (tick : Decimal) (b : Bucket)
    (bucket_vol : list Q) :
  _split_volume_across_buckets vol tick b = Ok bucket_vol →
  ∃ b_first b_prev b_last m rest,
    bucket_bounds b !! 0%nat = Some b_first
    ∧ (2 ≤ length (bucket_bounds b))%nat
    ∧ bucket_bounds b !! (length (bucket_bounds b) - 2)%nat = Some b_prev
    ∧ bucket_bounds b !! (length (bucket_bounds b) - 1)%nat = Some b_last
    ∧ tick_multiplier tick = Ok m
    ∧ m ≠ 0%Z
    ∧ (b_last - b_first ≠ 0)%Z
    ∧ let perc := fl (inject_Z (b_last - b_prev) / inject_Z (b_last - b_first)) in
      let vol_last :=
        fl (inject_Z (math_floor (float_mul (float_mul (py_float vol) perc)
                                    (float_of_int m)))
            / inject_Z m) in
      split_across_buckets (float_sub (py_float vol) vol_last) (n_buckets b - 1)
        (py_float (Dval tick)) = Ok rest
      ∧ bucket_vol = rest ++ [Decimal_of_str vol_last].
Proof.
  intros H. unfold _split_volume_across_buckets in H.
  inv_bind H. rename x into b_last, E into Hlast.
  inv_bind H. rename x into b_prev, E into Hprev.
  inv_bind H. rename x into b_first, E into Hfirst.
  inv_bind H. rename x into perc, E into Hperc.
  inv_bind H. rename x into m, E into Hm.
  inv_bind H. rename x into vol_last, E into Hvl.
  inv_bind H. rename x into rest, E into Hrest.
  injection H as <-.
  unfold py_index_back in Hlast, Hprev.
  destruct (decide (1 ≤ length (bucket_bounds b))%nat); [|discriminate].
  destruct (decide (2 ≤ length (bucket_bounds b))%nat) as [Hlen|]; [|discriminate].
  apply py_index_Ok in Hlast, Hprev, Hfirst.
  apply int_truediv_Ok_inv in Hperc as [-> Hd0].
  apply int_truediv_Ok_inv in Hvl as [-> Hm0].
  exists b_first, b_prev, b_last, m, rest.
  split; [exact Hfirst|]. split; [exact Hlen|]. split; [exact Hprev|].
  split; [exact Hlast|]. split; [exact Hm|]. split; [exact Hm0|].
  split; [exact Hd0|]. cbv zeta. split; [exact Hrest|reflexivity].
Qed.

Lemma bucket_bounds_loop_head (fuel : nat) (randint : nat → Z) (calls calls' : nat)
    (w : Q) (rand_width : option Z) (end_time s : Z) (l b' : list Z) :
  bucket_bounds_loop fuel randint calls w rand_width end_time (s :: l) = Ok (b', calls') →
  ∃ l', b' = s :: l'.
Proof.
  revert calls l. induction fuel as [|fuel IH]; intros calls l H; [discriminate|].
  cbn [bucket_bounds_loop] in H.
  destruct (_ <? _)%Z.
  - inv_bind H. destruct x as [r c]. rewrite <- app_comm_cons in H.
    eapply IH. exact H.
  - injection H as <- <-. eauto.
Qed.

(** The bounds of a bucket set end with [end_time]; when there is at least
    one bucket they begin with [start_time]. *)
Lemma Bucket_init_bounds (fuel : nat) (randint : nat → Z) (calls calls' : nat)
    (s e : Z) (rand_width : option Z) (b : Bucket) :
  Bucket_init fuel randint calls s e rand_width = Ok (b, calls') →
  start_time b = s ∧ end_time b = e
  ∧ _bucket_size (e - s) = Ok (bucket_width b)
  ∧ last (bucket_bounds b) = Some e
  ∧ n_buckets b = (length (bucket_bounds b) - 1)%nat
  ∧ ((2 ≤ length (bucket_bounds b))%nat → bucket_bounds b !! 0%nat = Some s).
Proof.
  intros H. unfold Bucket_init in H.
  destruct (Qltb _ _); [discriminate|].
  inv_bind H. rename x into w, E into Hw.
  inv_bind H. destruct x as [[bounds n] c]. rename E into Hbb.
  injection H as <- <-. cbn [start_time end_time bucket_width bucket_bounds n_buckets].
  unfold Bucket_bucket_bounds in Hbb.
  inv_bind Hbb. destruct x as [b0 c0]. rename E into Hloop.
  injection Hbb as <- <- <-.
  apply bucket_bounds_loop_head in Hloop as [l' ->].
  repeat (split; [reflexivity || assumption|]).
  split; [apply last_snoc|]. split; [reflexivity|].
  intros Hlen.
  destruct (_ <=? _)%Z; [|reflexivity].
  destruct l' as [|x l']; [cbn in Hlen; lia|reflexivity].
Qed.

(** C3 (amended).  In every constructed benchmark schedule the volume of the
    last bucket is [floor(total * (last_bucket_duration / total_duration) * m)
    / m] as binary floating point evaluates it, for the tick multiplier
    [m = int(1 / tick_size)]: the ratio of the two durations, the two products
    and the final quotient are each rounded to a float, and the floor is
    taken of the rounded product.  The volumes of the other buckets are what
    the volume splitter returns for the rest of the total, a float
    difference, and [n_buckets - 1] parts; and the sum of the bucket volumes
    and the sum of all per-slice volumes are both within one tick size of the
    total volume (the construction raises otherwise). *)
Theorem TWAPAlgo_init_volumes (fuel : nat) (randint : nat → Z)
    (bucket_placement_func : nat → nat → placement_sample) (e : Z)
    (p : OrderParams) (a : ExecutionAlgo) :
  TWAPAlgo_init fuel randint bucket_placement_func e p = Ok a →
  let bounds := bucket_bounds (buckets a) in
  ∃ b_prev m rest,
    volume a = p_volume p
    ∧ (2 ≤ length bounds)%nat
    ∧ n_buckets (buckets a) = (length bounds - 1)%nat
    ∧ bounds !! 0%nat = Some (p_start_time p)
    ∧ bounds !! (length bounds - 2)%nat = Some b_prev
    ∧ bounds !! (length bounds - 1)%nat = Some (p_end_time p)
    ∧ tick_multiplier (tick_size a) = Ok m
    ∧ m ≠ 0%Z
    ∧ p_start_time p ≠ p_end_time p
    ∧ let last_bucket_duration := (p_end_time p - b_prev)%Z in
      let total_duration := (p_end_time p - p_start_time p)%Z in
      let perc := fl (inject_Z last_bucket_duration / inject_Z total_duration) in
      let vol_last :=
        fl (inject_Z (math_floor (float_mul (float_mul (py_float (volume a)) perc)
                                    (float_of_int m)))
            / inject_Z m) in
      split_across_buckets (float_sub (py_float (volume a)) vol_last)
        (n_buckets (buckets a) - 1) (py_float (Dval (tick_size a))) = Ok rest
      ∧ bucket_volumes a = rest ++ [Decimal_of_str vol_last]
      ∧ Qabs (Qsum (bucket_volumes a) - volume a) <= Dval (tick_size a)
      ∧ Qabs (Qsum (concat (volumes_per_trade a)) - volume a) <= Dval (tick_size a).
Proof.
  intros H bounds.
  apply TWAPAlgo_init_inv in H
    as (b & draws & bv & ex & ev & calls & sv & Hb & Hbv & Hc1 & _ & _ & Hc2 & ->).
  subst bounds. cbn [buckets volume tick_size bucket_volumes volumes_per_trade].
  apply Bucket_init_bounds in Hb as (_ & _ & _ & Hlast & Hn & Hhead).
  apply split_volume_across_buckets_inv in Hbv
    as (b_first & b_prev & b_last & m & rest & Hf & Hlen & Hp & Hl & Hm & Hm0 & Hd0
        & Hrest & ->).
  rewrite last_lookup in Hlast.
  replace (Init.Nat.pred (length (bucket_bounds b)))
    with (length (bucket_bounds b) - 1)%nat in Hlast by lia.
  rewrite Hlast in Hl. injection Hl as <-.
  rewrite (Hhead Hlen) in Hf. injection Hf as <-.
  exists b_prev, m, rest.
  split; [reflexivity|]. split; [exact Hlen|]. split; [exact Hn|].
  split; [exact (Hhead Hlen)|]. split; [exact Hp|]. split; [exact Hlast|].
  split; [exact Hm|]. split; [exact Hm0|]. split; [lia|]. cbv zeta.
  split; [exact Hrest|]. split; [reflexivity|]. split; assumption.
Qed.

(** The two checks of the constructor: a sum that is off by more than a tick
    size makes the construction raise. *)
Lemma TWAPAlgo_init_bucket_check (fuel : nat) (randint : nat → Z)
    (bucket_placement_func : nat → nat → placement_sample) (e : Z)
    (p : OrderParams) (b : Bucket) (draws : nat) (bucket_vol : list Q) :
  Bucket_init fuel randint 0 (p_start_time p) (p_end_time p)
    (p_rand_bucket_bounds_width p) = Ok (b, draws) →
  _split_volume_across_buckets (p_volume p) (tick_size_of_exponent e) b = Ok bucket_vol →
  Dval (tick_size_of_exponent e) < Qabs (Qsum bucket_vol - p_volume p) →
  TWAPAlgo_init fuel randint bucket_placement_func e p
  = Raise (ValueError "Volumes split across buckets didn't work out!").
Proof.
  intros Hb Hbv Hc. apply Qltb_lt in Hc.
  unfold TWAPAlgo_init. rewrite Hb. cbn [mbind result_bind].
  rewrite Hbv. cbn [mbind result_bind]. rewrite Hc. reflexivity.
Qed.

Lemma TWAPAlgo_init_slice_check (fuel : nat) (randint : nat → Z)
    (bucket_placement_func : nat → nat → placement_sample) (e : Z)
    (p : OrderParams) (b : Bucket) (draws calls : nat) (bucket_vol : list Q)
    (exec_times : list (list Z)) (events : list Z) (split_vols : list (list Q)) :
  Bucket_init fuel randint 0 (p_start_time p) (p_end_time p)
    (p_rand_bucket_bounds_width p) = Ok (b, draws) →
  _split_volume_across_buckets (p_volume p) (tick_size_of_exponent e) b = Ok bucket_vol →
  Qabs (Qsum bucket_vol - p_volume p) <= Dval (tick_size_of_exponent e) →
  _sample_execution_times bucket_placement_func fuel 0 (p_no_of_slices p) b
  = Ok (exec_times, events, calls) →
  _split_volume_within_buckets bucket_vol (p_no_of_slices p) (tick_size_of_exponent e) b
  = Ok split_vols →
  Dval (tick_size_of_exponent e) < Qabs (Qsum (concat split_vols) - p_volume p) →
  TWAPAlgo_init fuel randint bucket_placement_func e p
  = Raise (ValueError "Volumes split across orders didn't work out!").
Proof.
  intros Hb Hbv Hc1 Hs Hsv Hc2. apply Qltb_ge in Hc1. apply Qltb_lt in Hc2.
  unfold TWAPAlgo_init. rewrite Hb. cbn [mbind result_bind].
  rewrite Hbv. cbn [mbind result_bind]. rewrite Hc1, Hs. cbn [mbind result_bind].
  rewrite Hsv. cbn [mbind result_bind]. rewrite Hc2. reflexivity.
Qed.

Lemma TWAPAlgo_init_volumes_witness :
  let a := two_bucket_algo in
  let p := two_bucket_order in
  let bounds := bucket_bounds (buckets a) in
  ∃ b_prev m rest,
    volume a = p_volume p
    ∧ (2 ≤ length bounds)%nat
    ∧ n_buckets (buckets a) = (length bounds - 1)%nat
    ∧ bounds !! 0%nat = Some (p_start_time p)
    ∧ bounds !! (length bounds - 2)%nat = Some b_prev
    ∧ bounds !! (length bounds - 1)%nat = Some (p_end_time p)
    ∧ tick_multiplier (tick_size a) = Ok m
    ∧ m ≠ 0%Z
    ∧ p_start_time p ≠ p_end_time p
    ∧ let last_bucket_duration := (p_end_time p - b_prev)%Z in
      let total_duration := (p_end_time p - p_start_time p)%Z in
      let perc := fl (inject_Z last_bucket_duration / inject_Z total_duration) in
      let vol_last :=
        fl (inject_Z (math_floor (float_mul (float_mul (py_float (volume a)) perc)
                                    (float_of_int m)))
            / inject_Z m) in
      split_across_buckets (float_sub (py_float (volume a)) vol_last)
        (n_buckets (buckets a) - 1) (py_float (Dval (tick_size a))) = Ok rest
      ∧ bucket_volumes a = rest ++ [Decimal_of_str vol_last]
      ∧ Qabs (Qsum (bucket_volumes a) - volume a) <= Dval (tick_size a)
      ∧ Qabs (Qsum (concat (volumes_per_trade a)) - volume a) <= Dval (tick_size a).
Proof.
  apply (TWAPAlgo_init_volumes 5 (λ _, 0%Z) midpoint_placement 0
           two_bucket_order two_bucket_algo).
  vm_compute. reflexivity.
Defined.

(** C3 as stated, with the formula read over the rationals, fails: for 100
    units at tick size 1 over the buckets [0 s, 6.02 s] and [6.02 s, 14 s] the
    last bucket's share is 7.98 / 14 = 0.57 and the formula gives
    [floor(100 * 0.57 * 1) / 1 = 57], but the float product [100 * 0.57] is
    56.99999999999999, so that the constructor gives the last bucket 56 and
    the first 44. *)
Lemma last_bucket_volume_counterexample :
  (∃ a, TWAPAlgo_init 5 jitter_draws midpoint_placement 0 jittered_order = Ok a
        ∧ bucket_bounds (buckets a) = [0; 6020000; 14000000]%Z
        ∧ tick_multiplier (tick_size a) = Ok 1%Z
        ∧ bucket_volumes a = [44; 56])
  ∧ inject_Z (Qfloor (100 * (inject_Z (14000000 - 6020000) / inject_Z (14000000 - 0))
                      * inject_Z 1)) / inject_Z 1 == 57
  ∧ Decimal_of_str (float_mul (py_float 100) (fl (inject_Z (14000000 - 6020000)
                                                    / inject_Z (14000000 - 0))))
    = 5699999999999999 # 100000000000000.
Proof.
  split; [|split; vm_compute; reflexivity].
  eexists. split; [vm_compute; reflexivity|]. repeat split.
Qed.

(** ** Sampling of the decision times *)

Lemma size_list_to_set_le (l : list Z) : (size (list_to_set l : gset Z) ≤ length l)%nat.
Proof.
  induction l as [|x l IH]; [rewrite list_to_set_nil, size_empty; lia|].
  rewrite list_to_set_cons, size_union_alt, size_singleton. cbn [length].
  assert (Hsub : (list_to_set l : gset Z) ∖ {[x]} ⊆ list_to_set l).
  { apply subseteq_difference_l. reflexivity. }
  apply subseteq_size in Hsub. lia.
Qed.

(** A list with as many distinct elements as entries has no repetition. *)
Lemma NoDup_of_size (l : list Z) :
  (length l ≤ size (list_to_set l : gset Z))%nat → NoDup l.
Proof.
  induction l as [|x l IH]; intros H; [constructor|].
  rewrite list_to_set_cons in H. cbn [length] in H.
  pose proof (size_list_to_set_le l) as Hle.
  destruct (decide (x ∈ l)) as [Hin|Hnin].
  - exfalso.
    assert (E : ({[x]} ∪ list_to_set l : gset Z) = list_to_set l).
    { apply subseteq_union_1_L, singleton_subseteq_l, elem_of_list_to_set. exact Hin. }
    rewrite E in H. lia.
  - constructor; [exact Hnin|]. apply IH.
    rewrite size_union, size_singleton in H.
    + lia.
    + apply disjoint_singleton_l. rewrite elem_of_list_to_set. exact Hnin.
Qed.

Lemma must_resample_false (n : nat) (bounds trades : list Z) :
  must_resample n bounds trades = false →
  (n ≤ size (list_to_set trades : gset Z))%nat ∧ ∀ t, t ∈ trades → t ∉ bounds.
Proof.
  unfold must_resample. intros H. apply orb_false_iff in H as [H1 H2].
  apply bool_decide_eq_false in H1. split; [lia|].
  intros t Ht Hb. apply list_elem_of_In in Ht.
  assert (existsb (λ trade, bool_decide (trade ∈ bounds)) trades = true) as E.
  { apply existsb_exists. exists t. split; [exact Ht|]. apply bool_decide_eq_true. exact Hb. }
  congruence.
Qed.

Section SamplingFacts.
Variable bucket_placement_func : nat → nat → placement_sample.

Lemma get_execution_times_length (calls n : nat) (bounds : list Z) (idx : nat)
    (trades : list Z) (calls' : nat) :
  _get_execution_times bucket_placement_func calls n bounds idx = Ok (trades, calls') →
  length trades = length (as_list (bucket_placement_func calls n)).
Proof.
  unfold _get_execution_times. intros H.
  inv_bind H. inv_bind H. injection H as <- <-. apply length_map.
Qed.

(** What the resampling loop hands back passes the test of the loop, and is
    either what it was given or a later sample. *)
Lemma resample_loop_inv (fuel calls n : nat) (bounds : list Z) (idx : nat)
    (trades trades' : list Z) (calls' : nat) :
  resample_loop bucket_placement_func fuel calls n bounds idx trades
    = Ok (trades', calls') →
  must_resample n bounds trades' = false
  ∧ (trades' = trades
     ∨ ∃ c, length trades' = length (as_list (bucket_placement_func c n))).
Proof.
  revert calls trades. induction fuel as [|fuel IH]; intros calls trades H;
    [discriminate|].
  cbn [resample_loop] in H.
  destruct (must_resample n bounds trades) eqn:Em.
  - inv_bind H. destruct x as [bt c]. rename E into Hget.
    apply IH in H as [Hm [->|Hlen]].
    + split; [exact Hm|]. right. exists calls.
      eapply get_execution_times_length. exact Hget.
    + split; [exact Hm|]. right. exact Hlen.
  - injection H as <- <-. split; [exact Em|]. left. reflexivity.
Qed.

Lemma sample_buckets_inv (fuel calls n : nat) (bounds : list Z) (idxs : list nat)
    (acc exec_times : list (list Z)) (calls' : nat) :
  sample_buckets bucket_placement_func fuel calls n bounds idxs acc
    = Ok (exec_times, calls') →
  Forall (well_sampled bucket_placement_func n bounds) acc →
  Forall (well_sampled bucket_placement_func n bounds) exec_times.
Proof.
  revert calls acc. induction idxs as [|i idxs IH]; intros calls acc H Hacc.
  - injection H as <- <-. exact Hacc.
  - cbn [sample_buckets] in H.
    inv_bind H. destruct x as [bt c]. rename E into Hget.
    inv_bind H. destruct x as [bt' c']. rename E into Hloop.
    apply IH in H; [exact H|].
    apply Forall_app. split; [exact Hacc|]. constructor; [|constructor].
    apply resample_loop_inv in Hloop as [Hm [->|Hlen]].
    + split; [exact Hm|]. exists calls.
      eapply get_execution_times_length. exact Hget.
    + split; [exact Hm|exact Hlen].
Qed.
End SamplingFacts.

(** A sample that passes the test of the loop is handed back at once. *)
Lemma resample_loop_accepts (bucket_placement_func : nat → nat → placement_sample)
    (fuel calls n : nat) (bounds : list Z) (idx : nat) (trades : list Z) :
  must_resample n bounds trades = false →
  resample_loop bucket_placement_func (S fuel) calls n bounds idx trades
  = Ok (trades, calls).
Proof. intros H. cbn [resample_loop]. rewrite H. reflexivity. Qed.

Lemma sample_execution_times_inv (bucket_placement_func : nat → nat → placement_sample)
    (fuel calls n : nat) (b : Bucket) (exec_times : list (list Z)) (events : list Z)
    (calls' : nat) :
  _sample_execution_times bucket_placement_func fuel calls n b
    = Ok (exec_times, events, calls') →
  Forall (well_sampled bucket_placement_func n (bucket_bounds b)) exec_times.
Proof.
  unfold _sample_execution_times. intros H.
  inv_bind H. destruct x as [ex c]. injection H as <- _ _.
  eapply sample_buckets_inv; [eassumption|constructor].
Qed.

(** Within the contract of the placement function the loop does what its
    comment says: in every constructed benchmark schedule no retained decision
    time equals a bucket bound; and when every output of the placement
    function has [no_of_slices] values, the retained decision times of each
    bucket are [no_of_slices] pairwise distinct values. *)
Lemma sampled_times_distinct (fuel : nat) (randint : nat → Z)
    (bucket_placement_func : nat → nat → placement_sample) (e : Z)
    (p : OrderParams) (a : ExecutionAlgo) :
  TWAPAlgo_init fuel randint bucket_placement_func e p = Ok a →
  (∀ trades t, trades ∈ execution_times a → t ∈ trades →
               t ∉ bucket_bounds (buckets a))
  ∧ ((∀ calls, length (as_list (bucket_placement_func calls (no_of_slices a)))
               = no_of_slices a) →
     ∀ trades, trades ∈ execution_times a →
               NoDup trades ∧ length trades = no_of_slices a).
Proof.
  intros H.
  apply TWAPAlgo_init_inv in H
    as (b & draws & bv & ex & ev & calls & sv & _ & _ & _ & Hs & _ & _ & ->).
  cbn [execution_times buckets no_of_slices].
  apply sample_execution_times_inv in Hs. rewrite Forall_forall in Hs.
  split.
  - intros trades t Htr Ht. destruct (Hs trades Htr) as [Hm _].
    apply must_resample_false in Hm as [_ Hm]. apply Hm. exact Ht.
  - intros Hlen trades Htr. destruct (Hs trades Htr) as [Hm [c Hc]].
    apply must_resample_false in Hm as [Hm _]. rewrite Hlen in Hc.
    split; [|exact Hc]. apply NoDup_of_size. lia.
Qed.

Lemma sampled_times_distinct_witness :
  let a := two_bucket_algo in
  (∀ trades t, trades ∈ execution_times a → t ∈ trades →
               t ∉ bucket_bounds (buckets a))
  ∧ (∀ trades, trades ∈ execution_times a →
               NoDup trades ∧ length trades = no_of_slices a).
Proof.
  destruct (sampled_times_distinct 5 (λ _, 0%Z) midpoint_placement 0
              two_bucket_order two_bucket_algo) as [Hbound Hdistinct].
  - vm_compute. reflexivity.
  - split; [exact Hbound|]. apply Hdistinct. intros calls. reflexivity.
Defined.

(** C7.  The loop of [_sample_execution_times] is to make the decision times
    of a bucket differ from each other and from the bounds (the comment above
    it), but it compares the number of distinct times with [no_of_slices], not
    with the number of times sampled.  For a placement function that answers
    the request for two slices with [1/4, 1/4, 1/2], the sample has two
    distinct times and meets no bound, so the loop retains it at once, the
    repeated time included. *)
Theorem repeated_decision_time_retained :
  as_list (repeating_placement 0 (p_no_of_slices two_slice_order))
    = [1 # 4; 1 # 4; 1 # 2]
  ∧ must_resample (p_no_of_slices two_slice_order) [0; 7000000; 14000000]%Z
      [1750000; 1750000; 3500000]%Z = false
  ∧ execution_times <$> TWAPAlgo_init 5 (λ _, 0%Z) repeating_placement 0 two_slice_order
    = Ok [[1750000; 1750000; 3500000]; [8750000; 8750000; 10500000]]%Z
  ∧ ¬ NoDup [1750000; 1750000; 3500000]%Z.
Proof.
  split; [reflexivity|]. split; [vm_compute; reflexivity|].
  split; [vm_compute; reflexivity|].
  intros H. apply NoDup_cons in H as [Hin _]. apply Hin. left.
Qed.

(** ** The bucket bounds *)

Lemma bucket_size_in_table (d : Z) (w : Q) :
  _bucket_size d = Ok w → ∃ key, BUCKET_SIZES_IN_SECS !! key = Some w.
Proof.
  unfold _bucket_size. intros H.
  match type of H with
  | match BUCKET_SIZES_IN_SECS !! ?k with _ => _ end = _ =>
      exists k; destruct (BUCKET_SIZES_IN_SECS !! k); [congruence|discriminate]
  end.
Qed.

(** Every bucket width of the table is at least 7 seconds. *)
Lemma bucket_size_ge_7 (d : Z) (w : Q) : _bucket_size d = Ok w → 7 <= w.
Proof.
  intros H. apply bucket_size_in_table in H as [key Hkey].
  unfold BUCKET_SIZES_IN_SECS in Hkey.
  apply elem_of_list_to_map_2 in Hkey.
  repeat (apply elem_of_cons in Hkey as [[= _ ->]|Hkey]; [vm_compute; discriminate|]).
  apply elem_of_nil in Hkey. contradiction.
Qed.

Lemma step_positive (w : Q) (r : Z) :
  7 <= w → (-99 ≤ r)%Z →
  (0 < timedelta_of_seconds (w * (1 + inject_Z r / 100)))%Z.
Proof.
  intros Hw Hr. unfold timedelta_of_seconds.
  set (x := w * (1 + inject_Z r / 100) * 1000000).
  pose proof (round_half_even_bounds x) as [Hlo _].
  assert (Hx : inject_Z 70000 <= x).
  { subst x. rewrite Zle_Qle in Hr.
    assert (inject_Z (-99) == -99) as E by reflexivity. rewrite E in Hr.
    assert (inject_Z 70000 == 70000) as -> by reflexivity.
    assert (E2 : inject_Z r / 100 == inject_Z r * (1 # 100)) by reflexivity.
    assert (H1 : 1 # 100 <= 1 + inject_Z r / 100).
    { rewrite E2. lra. }
    assert (H2 : 7 * (1 # 100) <= w * (1 + inject_Z r / 100)).
    { apply Qmult_le_compat_nonneg; split; lra. }
    lra. }
  apply Qfloor_resp_le in Hx. rewrite Qfloor_Z in Hx. lia.
Qed.

Lemma draw_rand_add_below_100 (randint : nat → Z) (calls : nat) (rand_width : option Z) :
  jitter_below_100 rand_width randint →
  ∃ r calls', draw_rand_add randint calls rand_width = Ok (r, calls') ∧ (-99 ≤ r)%Z.
Proof.
  unfold jitter_below_100, draw_rand_add. destruct rand_width as [w|].
  - intros [Hw Hdraw]. destruct (Z.eqb_spec w 0); [eexists _, _; split; [reflexivity|lia]|].
    destruct (Z.ltb_spec w 0); [lia|].
    eexists _, _. split; [reflexivity|]. specialize (Hdraw calls). lia.
  - intros _. eexists _, _. split; [reflexivity|lia].
Qed.

Section BoundsLoop.
Variables (randint : nat → Z) (w : Q) (rand_width : option Z) (end_time : Z).
Hypothesis Hw : 7 <= w.
Hypothesis Hjitter : jitter_below_100 rand_width randint.

(** The loop keeps the bounds strictly increasing, with every bound but the
    last before [end_time], and leaves with a last bound at or after
    [end_time]; it appends a bound when the last one is before [end_time]. *)
Lemma bucket_bounds_loop_sorted (fuel calls : nat) (pre : list Z) (x : Z)
    (b' : list Z) (calls' : nat) :
  StronglySorted Z.lt (pre ++ [x]) →
  (∀ y, y ∈ pre → (y < end_time)%Z) →
  bucket_bounds_loop fuel randint calls w rand_width end_time (pre ++ [x])
    = Ok (b', calls') →
  ∃ pre' x', b' = pre' ++ [x']
    ∧ StronglySorted Z.lt b'
    ∧ (∀ y, y ∈ pre' → (y < end_time)%Z)
    ∧ (end_time ≤ x')%Z
    ∧ (length pre + 1 ≤ length b')%nat
    ∧ ((x < end_time)%Z → (length pre + 2 ≤ length b')%nat).
Proof.
  revert calls pre x. induction fuel as [|fuel IH]; intros calls pre x Hs Hpre H;
    [discriminate|].
  destruct (Z.lt_ge_cases x end_time) as [Hlt|Hge].
  - destruct (draw_rand_add_below_100 randint calls rand_width Hjitter)
      as (r & c & Hdraw & Hr).
    rewrite (bucket_bounds_loop_step _ _ _ c _ _ _ _ x r (last_snoc _ _) Hlt Hdraw) in H.
    pose proof (step_positive w r Hw Hr) as Hstep.
    apply (IH c (pre ++ [x])) in H.
    + destruct H as (pre' & x' & -> & Hs' & Hpre' & Hx' & Hlen & _).
      exists pre', x'. repeat (split; [reflexivity || assumption|]).
      rewrite length_app in Hlen. cbn [length] in Hlen. split; [lia|intros _; lia].
    + apply StronglySorted_app_2; [|exact Hs|repeat constructor].
      intros y1 y2 Hy1 Hy2. apply list_elem_of_singleton in Hy2 as ->.
      apply elem_of_app in Hy1 as [Hy1|Hy1].
      * eapply StronglySorted_app_1_elem_of in Hs; [|exact Hy1|left]. lia.
      * apply list_elem_of_singleton in Hy1 as ->. lia.
    + intros y Hy. apply elem_of_app in Hy as [Hy|Hy]; [auto|].
      apply list_elem_of_singleton in Hy as ->. exact Hlt.
  - rewrite (bucket_bounds_loop_exit _ _ _ _ _ _ _ x (last_snoc _ _) Hge) in H.
    injection H as <- <-. exists pre, x.
    repeat (split; [reflexivity || assumption|]).
    rewrite length_app. cbn [length]. split; [lia|intros; lia].
Qed.

(** The loop ends: every pass moves the last bound forward by at least a
    microsecond. *)
Lemma bucket_bounds_loop_terminates (fuel calls : nat) (pre : list Z) (x : Z) :
  (Z.to_nat (end_time - x) < fuel)%nat →
  ∃ b' calls',
    bucket_bounds_loop fuel randint calls w rand_width end_time (pre ++ [x])
      = Ok (b', calls').
Proof.
  revert calls pre x. induction fuel as [|fuel IH]; intros calls pre x Hfuel; [lia|].
  destruct (Z.lt_ge_cases x end_time) as [Hlt|Hge].
  - destruct (draw_rand_add_below_100 randint calls rand_width Hjitter)
      as (r & c & Hdraw & Hr).
    rewrite (bucket_bounds_loop_step _ _ _ c _ _ _ _ x r (last_snoc _ _) Hlt Hdraw).
    pose proof (step_positive w r Hw Hr) as Hstep.
    apply (IH c (pre ++ [x])). lia.
  - rewrite (bucket_bounds_loop_exit _ _ _ _ _ _ _ x (last_snoc _ _) Hge). eauto.
Qed.
End BoundsLoop.

(** Every positive span has a bucket width. *)
Lemma bucket_size_total (d : Z) : (0 < d)%Z → ∃ w, _bucket_size d = Ok w.
Proof.
  intros Hd. unfold _bucket_size. cbv zeta.
  set (dm := total_seconds d / 60).
  assert (Hdm : 0 < dm).
  { subst dm. unfold total_seconds.
    assert (0 < inject_Z d) as H0.
    { assert (inject_Z 0 == 0) as <- by reflexivity. rewrite <- Zlt_Qlt. exact Hd. }
    apply Qlt_shift_div_l; [reflexivity|]. rewrite Qmult_0_l.
    apply Qlt_shift_div_l; [reflexivity|]. rewrite Qmult_0_l. exact H0. }
  destruct (Qltb 30 dm) eqn:E30.
  - set (h := (Qfloor (dm / 60) + 1)%Z).
    assert (Hh : (1 ≤ h)%Z).
    { subst h. assert (0 <= dm / 60) as H0.
      { apply Qle_shift_div_l; [reflexivity|]. lra. }
      apply Qfloor_resp_le in H0. change (Qfloor 0) with 0%Z in H0. lia. }
    destruct (Z.leb_spec 5 h) as [_|Hlt]; [vm_compute; eauto|].
    assert (h = 1 ∨ h = 2 ∨ h = 3 ∨ h = 4)%Z as Hcases by lia.
    destruct Hcases as [-> | [-> | [-> | ->]]]; vm_compute; eauto.
  - apply Qltb_ge in E30.
    destruct (Qltb 10 dm && Qle_bool dm 30) eqn:E10; [vm_compute; eauto|].
    destruct (Qltb 5 dm && Qle_bool dm 10) eqn:E5; [vm_compute; eauto|].
    assert (H10 : dm <= 10).
    { apply andb_false_iff in E10 as [E|E]; [apply Qltb_ge; exact E|].
      exfalso. apply not_true_iff_false in E. apply E, Qle_bool_iff. exact E30. }
    assert (H5 : dm <= 5).
    { apply andb_false_iff in E5 as [E|E]; [apply Qltb_ge; exact E|].
      exfalso. apply not_true_iff_false in E. apply E, Qle_bool_iff. exact H10. }
    set (c := Qceiling dm).
    assert (Hc : (1 ≤ c ≤ 5)%Z).
    { subst c. pose proof (Qle_ceiling dm) as Hle. pose proof (Qceiling_lt dm) as Hlt.
      split.
      - assert (0 < inject_Z (Qceiling dm)) as H0 by lra.
        assert (inject_Z 0 == 0) as E by reflexivity. rewrite <- E in H0.
        rewrite <- Zlt_Qlt in H0. lia.
      - assert (inject_Z (Qceiling dm - 1) < inject_Z 5) as H0.
        { assert (inject_Z 5 == 5) as -> by reflexivity. lra. }
        rewrite <- Zlt_Qlt in H0. lia. }
    assert (c = 1 ∨ c = 2 ∨ c = 3 ∨ c = 4 ∨ c = 5)%Z as Hcases by lia.
    destruct Hcases as [-> | [-> | [-> | [-> | ->]]]]; vm_compute; eauto.
Qed.

(** For a jitter width below 100 percent and an end after the start, the
    bounds are built, are strictly increasing, begin at [start_time] and end
    with [end_time]. *)
Lemma Bucket_init_increasing (randint : nat → Z) (calls : nat)
    (start_time end_time : Z) (rand_width : option Z) :
  (start_time < end_time)%Z →
  jitter_below_100 rand_width randint →
  (∀ fuel, (Z.to_nat (end_time - start_time) < fuel)%nat →
     ∃ b calls', Bucket_init fuel randint calls start_time end_time rand_width
                 = Ok (b, calls'))
  ∧ (∀ fuel b calls',
       Bucket_init fuel randint calls start_time end_time rand_width = Ok (b, calls') →
       StronglySorted Z.lt (bucket_bounds b)
       ∧ (1 ≤ n_buckets b)%nat
       ∧ head (bucket_bounds b) = Some start_time
       ∧ last (bucket_bounds b) = Some end_time).
Proof.
  intros Hlt Hjitter.
  destruct (bucket_size_total (end_time - start_time) ltac:(lia)) as [w Hw].
  pose proof (bucket_size_ge_7 _ _ Hw) as Hw7.
  assert (Hd : Qltb (total_seconds (end_time - start_time)) 0 = false).
  { apply Qltb_ge. unfold total_seconds.
    apply Qle_shift_div_l; [reflexivity|]. rewrite Qmult_0_l.
    assert (inject_Z 0 == 0) as <- by reflexivity. rewrite <- Zle_Qle. lia. }
  split.
  - intros fuel Hfuel. unfold Bucket_init, Bucket_bucket_bounds.
    rewrite Hd, Hw. cbn [mbind result_bind].
    destruct (bucket_bounds_loop_terminates randint w rand_width end_time Hw7 Hjitter
                fuel calls [] start_time Hfuel) as (b' & c' & Hloop).
    cbn [app] in Hloop. rewrite Hloop. cbn [mbind result_bind]. eauto.
  - intros fuel b calls' H. unfold Bucket_init, Bucket_bucket_bounds in H.
    rewrite Hd, Hw in H. cbn [mbind result_bind] in H.
    inv_bind H. destruct x as [[bounds n] c]. rename E into Hbb.
    injection H as <- <-. cbn [bucket_bounds n_buckets].
    inv_bind Hbb. destruct x as [b0 c0]. rename E into Hloop.
    injection Hbb as <- <- <-.
    change [start_time] with ([] ++ [start_time]) in Hloop.
    pose proof Hloop as Hhead.
    apply bucket_bounds_loop_head in Hhead as [l' Hl'].
    apply (bucket_bounds_loop_sorted randint w rand_width end_time Hw7 Hjitter) in Hloop
      as (pre' & x' & -> & Hs & Hpre & Hx & _ & Hlen);
      [|repeat constructor|intros y Hy; apply elem_of_nil in Hy; contradiction].
    specialize (Hlen Hlt). rewrite length_app in Hlen. cbn [length] in Hlen.
    rewrite last_snoc. cbn [default from_option id].
    destruct (Z.leb_spec end_time x') as [_|]; [|lia].
    rewrite removelast_last.
    destruct pre' as [|y pre']; [cbn in Hlen; lia|].
    cbn [app] in Hl'. injection Hl' as -> _.
    split; [|split; [rewrite length_app; cbn; lia|split; [reflexivity|apply last_snoc]]].
    apply StronglySorted_app_2; [|eapply StronglySorted_app_1_l; exact Hs|repeat constructor].
    intros y1 y2 Hy1 Hy2. apply list_elem_of_singleton in Hy2 as ->. apply Hpre. exact Hy1.
Qed.

(** C4, at a jitter width of 100 percent, which the validation of the
    configuration accepts: when [randint(-100, 100)] draws -100 the step is
    zero, the bound is repeated, and the bounds of the bucket set are not
    strictly increasing. *)
Theorem zero_width_bucket_at_full_jitter :
  _validate_config full_jitter_config = Ok tt
  ∧ rand_bucket_low full_jitter_config = 100%Z
  ∧ rand_bucket_high full_jitter_config = 100%Z
  ∧ p_rand_bucket_bounds_width full_jitter_order = Some 100%Z
  ∧ (∀ calls, (-100 ≤ zero_step_draws calls ≤ 100)%Z)
  ∧ bucket_bounds <$>
      (fst <$> Bucket_init 12 zero_step_draws 0 (p_start_time full_jitter_order)
                 (p_end_time full_jitter_order)
                 (p_rand_bucket_bounds_width full_jitter_order))
    = Ok full_jitter_bounds
  ∧ ¬ StronglySorted Z.lt full_jitter_bounds.
Proof.
  split; [reflexivity|]. split; [reflexivity|]. split; [reflexivity|].
  split; [reflexivity|].
  split; [intros calls; unfold zero_step_draws; destruct (_ =? _)%nat; lia|].
  split; [vm_compute; reflexivity|].
  intros H. apply StronglySorted_cons in H as [H _].
  apply Forall_cons in H as [H _]. lia.
Qed.

Lemma timedelta_mul_zero (plcmt : Q) : timedelta_mul 0 plcmt = 0%Z.
Proof.
  unfold timedelta_mul. rewrite (round_half_even_comp _ 0); [reflexivity|].
  assert (inject_Z 0 == 0) as -> by reflexivity. ring.
Qed.

(** The resampling of a bucket of zero width never ends: every sample lands
    on the bound. *)
Lemma resample_loop_zero_width (bucket_placement_func : nat → nat → placement_sample)
    (n : nat) (bounds : list Z) (idx : nat) (x : Z) :
  (1 ≤ n)%nat →
  bounds !! idx = Some x →
  bounds !! (idx + 1)%nat = Some x →
  ∀ fuel calls trades,
    (∀ t, t ∈ trades → t = x) →
    resample_loop bucket_placement_func fuel calls n bounds idx trades = OutOfFuel.
Proof.
  intros Hn Hlo Hhi. induction fuel as [|fuel IH]; intros calls trades Htr; [reflexivity|].
  cbn [resample_loop].
  assert (Hm : must_resample n bounds trades = true).
  { unfold must_resample. destruct trades as [|t trades].
    - rewrite list_to_set_nil, size_empty.
      rewrite bool_decide_eq_true_2 by lia. reflexivity.
    - apply orb_true_iff. right. cbn [existsb].
      rewrite (Htr t) by left. rewrite bool_decide_eq_true_2; [reflexivity|].
      eapply list_elem_of_lookup_2. exact Hlo. }
  rewrite Hm. unfold _get_execution_times, py_index. rewrite Hhi, Hlo.
  cbn [mbind result_bind]. apply IH.
  intros t Ht. apply list_elem_of_fmap in Ht as (plcmt & -> & _).
  rewrite Z.sub_diag, timedelta_mul_zero. lia.
Qed.

Lemma sample_buckets_zero_width (bucket_placement_func : nat → nat → placement_sample)
    (n : nat) (bounds : list Z) (idx : nat) (x : Z) (fuel calls : nat)
    (idxs : list nat) (acc : list (list Z)) :
  (1 ≤ n)%nat →
  bounds !! idx = Some x →
  bounds !! (idx + 1)%nat = Some x →
  sample_buckets bucket_placement_func fuel calls n bounds (idx :: idxs) acc = OutOfFuel.
Proof.
  intros Hn Hlo Hhi. cbn [sample_buckets].
  unfold _get_execution_times, py_index. rewrite Hhi, Hlo. cbn [mbind result_bind].
  rewrite (resample_loop_zero_width bucket_placement_func n bounds idx x Hn Hlo Hhi);
    [reflexivity|].
  intros t Ht. apply list_elem_of_fmap in Ht as (plcmt & -> & _).
  rewrite Z.sub_diag, timedelta_mul_zero. lia.
Qed.

(** With the repeated bound, on a book with whole-number volumes, the
    construction of the benchmark schedule does not return, whatever the
    placement function answers and however much fuel it is given. *)
Lemma full_jitter_construction_diverges
    (bucket_placement_func : nat → nat → placement_sample) (fuel : nat) :
  TWAPAlgo_init fuel zero_step_draws bucket_placement_func 0 full_jitter_order
  = OutOfFuel.
Proof.
  unfold TWAPAlgo_init.
  destruct (Nat.lt_ge_cases fuel 12) as [Hlt|Hge].
  { do 12 (destruct fuel as [|fuel]; [reflexivity|]). lia. }
  replace fuel with (12 + (fuel - 12))%nat by lia.
  generalize (fuel - 12)%nat as spare. intros spare.
  set (b := {| start_time := 0; end_time := 300000000; duration := 300000000;
               bucket_width := 30; rand_width := Some 100%Z;
               bucket_bounds := full_jitter_bounds; n_buckets := 11 |}).
  assert (Hb : Bucket_init (12 + spare) zero_step_draws 0
                 (p_start_time full_jitter_order) (p_end_time full_jitter_order)
                 (p_rand_bucket_bounds_width full_jitter_order)
               = Ok (b, 11%nat)).
  { reflexivity. }
  rewrite Hb. cbn [mbind result_bind].
  assert (Hbv : _split_volume_across_buckets (p_volume full_jitter_order)
                  (tick_size_of_exponent 0) b
                = Ok [45; 45; 45; 45; 45; 45; 45; 45; 45; 45; 50]).
  { reflexivity. }
  rewrite Hbv. cbn [mbind result_bind].
  assert (Hc : Qltb (Dval (tick_size_of_exponent 0))
                 (Qabs (Qsum [45; 45; 45; 45; 45; 45; 45; 45; 45; 45; 50]
                        - p_volume full_jitter_order)) = false).
  { reflexivity. }
  rewrite Hc. unfold _sample_execution_times.
  change (seq 0 (n_buckets b)) with (0%nat :: seq 1 10).
  rewrite (sample_buckets_zero_width bucket_placement_func
             (p_no_of_slices full_jitter_order) (bucket_bounds b) 0 0%Z)
    by (reflexivity || (cbn; lia)).
  reflexivity.
Qed.

(** * Further properties of the schedule and of the environment *)

(** ** What the methods of a schedule leave alone *)

Lemma same_schedule_refl (a : ExecutionAlgo) : same_schedule a a.
Proof. unfold same_schedule. repeat split. Qed.

Lemma same_schedule_trans (a b c : ExecutionAlgo) :
  same_schedule a b → same_schedule b c → same_schedule a c.
Proof.
  unfold same_schedule. intros H1 H2.
  destruct H1 as (?&?&?&?&?&?&?&?&?&?), H2 as (?&?&?&?&?&?&?&?&?&?).
  repeat split; congruence.
Qed.

Lemma update_remaining_volume_same (a : ExecutionAlgo) (trade_log : option TradeLog)
    (event_type : option EventType) :
  same_schedule (update_remaining_volume a trade_log event_type).1 a.
Proof.
  unfold update_remaining_volume.
  destruct trade_log as [log|]; [destruct (Qltb 0 (quantity log))|];
    cbn [set_vol_remaining bucket_vol_remaining bucket_idx];
    repeat match goal with
      | |- context [match ?l !! ?i with _ => _ end] => destruct (l !! i)
      | |- context [if Qltb ?x ?y then _ else _] => destruct (Qltb x y)
      | |- context [match ?e with Some _ => _ | None => _ end] => destruct e
      | |- context [match ?e with order_placement => _ | bucket_bound => _ end] =>
          destruct e
      end;
    cbn; unfold same_schedule; cbn; repeat split.
Qed.

Lemma get_next_event_same (a a' : ExecutionAlgo) (event : Event) (done : bool) :
  get_next_event a = Ok (event, done, a') →
  same_schedule a' a ∧ volumes_per_trade a' = volumes_per_trade a
  ∧ vol_remaining a' = vol_remaining a
  ∧ bucket_vol_remaining a' = bucket_vol_remaining a
  ∧ order_idx a' = order_idx a ∧ bucket_idx a' = bucket_idx a.
Proof.
  unfold get_next_event. intros H. inv_bind H.
  destruct (bool_decide _); injection H as _ _ <-;
    unfold same_schedule; cbn; repeat split.
Qed.

Lemma get_order_at_event_same (a : ExecutionAlgo) (event : Event) (lob : LOB)
    (trade_id : option Z) :
  same_schedule (get_order_at_event a event lob trade_id).1 a.
Proof.
  unfold get_order_at_event, wrap_order_idx.
  repeat match goal with
    | |- context [if String.eqb ?x ?y then _ else _] => destruct (String.eqb x y)
    | |- context [match py_index ?l ?i ≫= ?f with _ => _ end] =>
        destruct (py_index l i ≫= f)
    | |- context [match py_index ?l ?i with _ => _ end] => destruct (py_index l i)
    | |- context [if (?x =? ?y)%nat then _ else _] => destruct (x =? y)%nat
    | |- context [if (?x <=? ?y)%nat then _ else _] => destruct (x <=? y)%nat
    end;
    cbn; unfold same_schedule; cbn; repeat split.
Qed.

Lemma write_cell_same (a a' : ExecutionAlgo) (v : Q) :
  write_cell a v = Ok a' → same_schedule a' a.
Proof.
  unfold write_cell. intros H. inv_bind H. inv_bind H. injection H as <-.
  unfold same_schedule. cbn. repeat split. apply length_insert.
Qed.

Lemma after_call_same (a : ExecutionAlgo) (c : Call) : same_schedule (after_call a c) a.
Proof.
  destruct c as [trade_log event_type| |event lob trade_id|v]; cbn [after_call].
  - apply update_remaining_volume_same.
  - destruct (get_next_event a) as [[[event done] a']| |] eqn:E;
      [|apply same_schedule_refl..].
    apply get_next_event_same in E as [E _]. exact E.
  - apply get_order_at_event_same.
  - destruct (write_cell a v) as [a'| |] eqn:E; [|apply same_schedule_refl..].
    eapply write_cell_same. exact E.
Qed.

Lemma after_calls_same (a : ExecutionAlgo) (calls : list Call) :
  same_schedule (foldl after_call a calls) a.
Proof.
  revert a. induction calls as [|c calls IH]; intros a; cbn [foldl].
  - apply same_schedule_refl.
  - eapply same_schedule_trans; [apply IH|apply after_call_same].
Qed.

(** ** [reset] *)

Lemma reset_same (cls : AlgoClass) (a b : ExecutionAlgo) :
  same_schedule a b → reset cls a = reset cls b.
Proof.
  intros (?&?&?&?&?&?&?&?&Hd&Hl). unfold reset. rewrite Hd, Hl.
  destruct cls; cbn [mbind result_bind];
    [|destruct (zero_rows _ _); cbn [mbind result_bind]; [|reflexivity..]];
    f_equal; f_equal; assumption.
Qed.

Lemma zero_rows_seq (default : list (list Q)) (s n : nat) :
  (s + n ≤ length default)%nat →
  zero_rows (seq s n) default
  = Ok (map (λ row, map (λ _, 0) row) (take n (drop s default))).
Proof.
  revert s. induction n as [|n IH]; intros s Hlen; cbn [seq zero_rows].
  - reflexivity.
  - destruct (lookup_lt_is_Some_2 default s ltac:(lia)) as [row Hrow].
    unfold py_index. rewrite Hrow. cbn [mbind result_bind].
    rewrite IH by lia. cbn [mbind result_bind].
    rewrite (drop_S _ _ _ Hrow). reflexivity.
Qed.

(** X1.  Whatever calls of [update_remaining_volume], [get_next_event],
    [get_order_at_event] and cell writes were made on a constructed benchmark
    schedule, and however they ended, [reset] gives back the schedule as it
    was built. *)
Theorem reset_restores_benchmark (fuel : nat) (randint : nat → Z)
    (bucket_placement_func : nat → nat → placement_sample) (e : Z)
    (p : OrderParams) (a : ExecutionAlgo) (calls : list Call) :
  TWAPAlgo_init fuel randint bucket_placement_func e p = Ok a →
  reset TWAPAlgo (foldl after_call a calls) = Ok a.
Proof.
  intros H. rewrite (reset_same _ _ a (after_calls_same a calls)).
  apply TWAPAlgo_init_inv in H
    as (b & draws & bv & ex & ev & c & sv & _ & _ & _ & _ & _ & _ & ->).
  reflexivity.
Qed.

Lemma reset_restores_benchmark_witness :
  reset TWAPAlgo
    (foldl after_call two_bucket_algo
       [CallNextEvent;
        CallOrder {| ev_type := "order_placement"; ev_time := 3500000 |}
          {| get_best_bid := 100; get_best_ask := 101 |} None;
        CallUpdate (Some {| quantity := 5 |}) None;
        CallWrite 3])
  = Ok two_bucket_algo.
Proof.
  apply (reset_restores_benchmark 5 (λ _, 0%Z) midpoint_placement 0 two_bucket_order).
  vm_compute. reflexivity.
Defined.

(** X2.  Whatever calls were made on an adaptive schedule since it was
    derived from a benchmark schedule, [reset] gives back the schedule as it
    was derived: every cell of the allocation table zero, the remaining
    volumes those of the benchmark, the cursors at the start. *)
Theorem reset_restores_adaptive (benchmark : ExecutionAlgo) (calls : list Call) :
  reset RLAlgo (foldl after_call (RLAlgo_init benchmark) calls)
  = Ok (RLAlgo_init benchmark).
Proof.
  rewrite (reset_same _ _ (RLAlgo_init benchmark) (after_calls_same _ calls)).
  unfold reset. cbn [RLAlgo_init volumes_per_trade volumes_per_trade_default].
  rewrite length_map, length_take.
  rewrite (zero_rows_seq _ 0) by (cbn [Nat.add]; apply Nat.le_min_r).
  cbn [mbind result_bind]. rewrite drop_0. unfold RLAlgo_init. do 2 f_equal.
  destruct (Nat.le_gt_cases (length (volumes_per_trade benchmark))
              (length (volumes_per_trade_default benchmark))) as [Hle|Hgt].
  - rewrite Nat.min_l by lia. reflexivity.
  - rewrite Nat.min_r by lia. rewrite !take_ge by lia. reflexivity.
Qed.

(** ** The timeline and [get_next_event] *)

Lemma set_event_idx_id (a : ExecutionAlgo) : set_event_idx (event_idx a) a = a.
Proof. destruct a. reflexivity. Qed.

Lemma get_next_event_at (a : ExecutionAlgo) (i : nat) (t : Z) :
  algo_events a !! i = Some t →
  get_next_event (set_event_idx i a)
  = Ok ({| ev_type :=
             if existsb (λ sublist, bool_decide (t ∈ sublist)) (execution_times a)
             then "order_placement"%string else "bucket_bound"%string;
           ev_time := t |},
        bool_decide (S i = length (algo_events a)),
        set_event_idx (if bool_decide (S i = length (algo_events a)) then 0 else S i) a).
Proof.
  intros Ht. unfold get_next_event, py_index.
  cbn [algo_events event_idx execution_times set_event_idx]. rewrite Ht.
  cbn [mbind result_bind]. apply lookup_lt_Some in Ht.
  destruct (decide (S i = length (algo_events a))) as [E|E].
  - rewrite (bool_decide_eq_true_2 (S i = _)) by exact E.
    rewrite bool_decide_eq_true_2 by lia. reflexivity.
  - rewrite (bool_decide_eq_false_2 (S i = _)) by exact E.
    rewrite bool_decide_eq_false_2 by lia. rewrite Nat.add_1_r. reflexivity.
Qed.

Lemma run_events_from (a : ExecutionAlgo) (k i : nat) :
  (i + S k = length (algo_events a))%nat →
  ∃ evs,
    run_events (S k) (set_event_idx i a) = Ok (evs, set_event_idx 0 a)
    ∧ map (λ x, ev_time x.1) evs = drop i (algo_events a)
    ∧ map snd evs = replicate k false ++ [true].
Proof.
  revert i. induction k as [|k IH]; intros i Hlen.
  - destruct (lookup_lt_is_Some_2 (algo_events a) i ltac:(lia)) as [t Ht].
    cbn [run_events]. rewrite (get_next_event_at a i t Ht).
    rewrite bool_decide_eq_true_2 by lia. cbn [mbind result_bind].
    eexists. split; [reflexivity|]. split; [|reflexivity].
    cbn [map fst ev_time]. rewrite (drop_S _ _ _ Ht), drop_ge by lia. reflexivity.
  - destruct (lookup_lt_is_Some_2 (algo_events a) i ltac:(lia)) as [t Ht].
    destruct (IH (S i) ltac:(lia)) as (evs & Hrun & Htimes & Hflags).
    change (run_events (S (S k)) (set_event_idx i a))
      with ('(event, done, a') ← get_next_event (set_event_idx i a);
            '(rest, a') ← run_events (S k) a';
            Ok ((event, done) :: rest, a')).
    rewrite (get_next_event_at a i t Ht).
    rewrite bool_decide_eq_false_2 by lia. cbn [mbind result_bind].
    rewrite Hrun. cbn [mbind result_bind].
    eexists. split; [reflexivity|]. split.
    + cbn [map fst ev_time]. rewrite Htimes. symmetry. apply drop_S. exact Ht.
    + cbn [map snd replicate app]. rewrite Hflags. reflexivity.
Qed.

(** X3.  From an event cursor at the start, as many calls of
    [get_next_event] as the timeline has events return the events of the
    timeline in order; [done] is raised with the last event and with no
    other, and the schedule ends up as it began, the cursor back at the
    start. *)
Theorem get_next_event_walk (a : ExecutionAlgo) :
  event_idx a = 0%nat →
  algo_events a ≠ [] →
  ∃ evs,
    run_events (length (algo_events a)) a = Ok (evs, a)
    ∧ map (λ x, ev_time x.1) evs = algo_events a
    ∧ map snd evs = replicate (length (algo_events a) - 1) false ++ [true].
Proof.
  intros Hidx Hne.
  destruct (algo_events a) as [|t events] eqn:Eev; [contradiction|].
  destruct (run_events_from a (length events) 0) as (evs & Hrun & Htimes & Hflags).
  { rewrite Eev. reflexivity. }
  pose proof (set_event_idx_id a) as Ha. rewrite Hidx in Ha.
  rewrite Ha in Hrun. rewrite Eev in Htimes. rewrite drop_0 in Htimes.
  exists evs. cbn [length Nat.sub]. rewrite ?Nat.sub_0_r. auto.
Qed.

Lemma get_next_event_walk_witness :
  ∃ evs,
    run_events (length (algo_events two_bucket_algo)) two_bucket_algo
    = Ok (evs, two_bucket_algo)
    ∧ map (λ x, ev_time x.1) evs = algo_events two_bucket_algo
    ∧ map snd evs
      = replicate (length (algo_events two_bucket_algo) - 1) false ++ [true].
Proof.
  apply (get_next_event_walk two_bucket_algo).
  - reflexivity.
  - discriminate.
Defined.

Lemma sample_execution_times_events
    (bucket_placement_func : nat → nat → placement_sample)
    (fuel calls n : nat) (b : Bucket) (exec_times : list (list Z)) (events : list Z)
    (calls' : nat) :
  _sample_execution_times bucket_placement_func fuel calls n b
    = Ok (exec_times, events, calls') →
  events = merge_sort Z.le (remove_dups (concat exec_times ++ drop 1 (bucket_bounds b))).
Proof.
  unfold _sample_execution_times. intros H.
  inv_bind H. destruct x as [ex c]. injection H as <- <- _. reflexivity.
Qed.

Lemma StronglySorted_le_lt (l : list Z) :
  StronglySorted Z.le l → NoDup l → StronglySorted Z.lt l.
Proof.
  induction 1 as [|x l Hs IH Hx]; intros Hnd; [constructor|].
  apply NoDup_cons in Hnd as [Hnotin Hnd]. constructor; [auto|].
  apply Forall_forall. intros y Hy.
  pose proof (proj1 (Forall_forall _ _) Hx y Hy) as Hle.
  assert (x ≠ y) by (intros ->; contradiction). lia.
Qed.

Lemma elem_of_timeline (l : list Z) (t : Z) :
  t ∈ merge_sort Z.le (remove_dups l) ↔ t ∈ l.
Proof. rewrite merge_sort_Permutation. apply elem_of_remove_dups. Qed.

Lemma timeline_sorted (l : list Z) :
  StronglySorted Z.lt (merge_sort Z.le (remove_dups l)).
Proof.
  apply StronglySorted_le_lt.
  - apply StronglySorted_merge_sort; apply _.
  - rewrite merge_sort_Permutation. apply NoDup_remove_dups.
Qed.

Lemma existsb_elem_of_concat (t : Z) (ls : list (list Z)) :
  existsb (λ sublist, bool_decide (t ∈ sublist)) ls = true
  ↔ ∃ sublist, sublist ∈ ls ∧ t ∈ sublist.
Proof.
  rewrite existsb_exists. split; intros (l & H1 & H2); exists l.
  - split; [apply list_elem_of_In; exact H1|]. apply bool_decide_eq_true in H2. exact H2.
  - split; [apply list_elem_of_In; exact H1|]. apply bool_decide_eq_true. exact H2.
Qed.

Lemma elem_of_concat (t : Z) (ls : list (list Z)) :
  t ∈ concat ls ↔ ∃ sublist, sublist ∈ ls ∧ t ∈ sublist.
Proof.
  rewrite list_elem_of_In, in_concat. split; intros (l & H1 & H2); exists l.
  - split; apply list_elem_of_In; assumption.
  - split; apply list_elem_of_In; assumption.
Qed.

(** X4.  The timeline of every constructed benchmark schedule is strictly
    increasing, and its events are exactly the retained decision times
    together with the bucket bounds after the first: the start of the order
    is no event, and a time that occurs twice is one event. *)
Theorem algo_events_sorted (fuel : nat) (randint : nat → Z)
    (bucket_placement_func : nat → nat → placement_sample) (e : Z)
    (p : OrderParams) (a : ExecutionAlgo) :
  TWAPAlgo_init fuel randint bucket_placement_func e p = Ok a →
  StronglySorted Z.lt (algo_events a)
  ∧ ∀ t, t ∈ algo_events a
         ↔ (∃ trades, trades ∈ execution_times a ∧ t ∈ trades)
           ∨ t ∈ drop 1 (bucket_bounds (buckets a)).
Proof.
  intros H. apply TWAPAlgo_init_inv in H.
  destruct H as (b & draws & bv & ex & ev & calls & sv & _ & _ & _ & Hs & _ & _ & ->).
  apply sample_execution_times_events in Hs as ->.
  cbn [algo_events execution_times buckets]. split; [apply timeline_sorted|].
  intros t. rewrite elem_of_timeline, elem_of_app, elem_of_concat. reflexivity.
Qed.

Lemma algo_events_sorted_witness :
  StronglySorted Z.lt (algo_events two_bucket_algo)
  ∧ ∀ t, t ∈ algo_events two_bucket_algo
         ↔ (∃ trades, trades ∈ execution_times two_bucket_algo ∧ t ∈ trades)
           ∨ t ∈ drop 1 (bucket_bounds (buckets two_bucket_algo)).
Proof.
  apply (algo_events_sorted 5 (λ _, 0%Z) midpoint_placement 0 two_bucket_order).
  apply two_bucket_algo_built.
Defined.

(** X5.  At any point of an episode on a constructed benchmark schedule, an
    event returned by [get_next_event] is either typed order_placement, and
    then its time is a retained decision time and no bucket bound, or typed
    bucket_bound, and then its time is a bucket bound after the first and no
    decision time. *)
Theorem get_next_event_classifies (fuel : nat) (randint : nat → Z)
    (bucket_placement_func : nat → nat → placement_sample) (e : Z)
    (p : OrderParams) (a : ExecutionAlgo) (calls : list Call)
    (event : Event) (done : bool) (a' : ExecutionAlgo) :
  TWAPAlgo_init fuel randint bucket_placement_func e p = Ok a →
  get_next_event (foldl after_call a calls) = Ok (event, done, a') →
  (ev_type event = "order_placement"%string
   ∧ (∃ trades, trades ∈ execution_times a ∧ ev_time event ∈ trades)
   ∧ ev_time event ∉ bucket_bounds (buckets a))
  ∨ (ev_type event = "bucket_bound"%string
     ∧ ev_time event ∈ drop 1 (bucket_bounds (buckets a))
     ∧ ¬ ∃ trades, trades ∈ execution_times a ∧ ev_time event ∈ trades).
Proof.
  intros Hinit Hev.
  pose proof (after_calls_same a calls) as Hsame.
  destruct Hsame as (_ & _ & _ & _ & _ & _ & Hex & Hevs & _).
  pose proof Hinit as Hinv. apply TWAPAlgo_init_inv in Hinv.
  destruct Hinv as (b & draws & bv & ex & ev & c & sv & _ & _ & _ & Hs & _ & _ & Ha).
  pose proof (sample_execution_times_inv _ _ _ _ _ _ _ _ Hs) as Hwell.
  pose proof (sample_execution_times_events _ _ _ _ _ _ _ _ Hs) as Hevents.
  assert (execution_times a = ex) as Hex' by (rewrite Ha; reflexivity).
  assert (algo_events a = ev) as Hev' by (rewrite Ha; reflexivity).
  assert (buckets a = b) as Hb' by (rewrite Ha; reflexivity).
  rewrite Hex', Hb'. clear Ha.
  unfold get_next_event in Hev. inv_bind Hev. rename x into t, E into Ht.
  rewrite Hex, Hex' in Hev.
  assert (event
          = {| ev_type :=
                 if existsb (λ sublist, bool_decide (t ∈ sublist)) ex
                 then "order_placement"%string else "bucket_bound"%string;
               ev_time := t |}) as ->.
  { cbv zeta in Hev. destruct (bool_decide _) in Hev; injection Hev as <- _ _; reflexivity. }
  clear Hev. cbn [ev_type ev_time].
  apply py_index_Ok in Ht. apply list_elem_of_lookup_2 in Ht.
  rewrite Hevs, Hev', Hevents, elem_of_timeline, elem_of_app, elem_of_concat in Ht.
  destruct (existsb (λ sublist, bool_decide (t ∈ sublist)) ex) eqn:Eb.
  - left. apply existsb_elem_of_concat in Eb. split; [reflexivity|]. split; [exact Eb|].
    destruct Eb as (trades & Hin & Htr).
    pose proof (proj1 (Forall_forall _ _) Hwell trades Hin) as [Hm _].
    apply must_resample_false in Hm as [_ Hm]. apply Hm. exact Htr.
  - right. split; [reflexivity|].
    assert (¬ ∃ trades, trades ∈ ex ∧ t ∈ trades) as Hno.
    { intros Hc. apply existsb_elem_of_concat in Hc. congruence. }
    split; [|exact Hno]. destruct Ht as [Ht|Ht]; [contradiction|exact Ht].
Qed.

Lemma get_next_event_classifies_witness :
  let event := {| ev_type := "order_placement"; ev_time := 3500000 |} in
  (ev_type event = "order_placement"%string
   ∧ (∃ trades, trades ∈ execution_times two_bucket_algo ∧ ev_time event ∈ trades)
   ∧ ev_time event ∉ bucket_bounds (buckets two_bucket_algo))
  ∨ (ev_type event = "bucket_bound"%string
     ∧ ev_time event ∈ drop 1 (bucket_bounds (buckets two_bucket_algo))
     ∧ ¬ ∃ trades, trades ∈ execution_times two_bucket_algo ∧ ev_time event ∈ trades).
Proof.
  intros event.
  apply (get_next_event_classifies 5 (λ _, 0%Z) midpoint_placement 0
           two_bucket_order two_bucket_algo [] event false
           (set_event_idx 1 two_bucket_algo)).
  - apply two_bucket_algo_built.
  - reflexivity.
Defined.

(** ** The orders of [get_order_at_event] *)

Lemma wrap_order_idx_set (a : ExecutionAlgo) (i : nat) :
  no_of_slices a ≠ 0%nat →
  wrap_order_idx (set_order_idx i a)
  = (set_order_idx (if (i <? no_of_slices a)%nat then i else 0%nat) a, Ok tt).
Proof.
  intros Hn. unfold wrap_order_idx. cbn [no_of_slices order_idx set_order_idx].
  rewrite (proj2 (Nat.eqb_neq _ _) Hn).
  destruct (Nat.ltb_spec i (no_of_slices a)) as [Hlt|Hge].
  - rewrite (proj2 (Nat.leb_gt _ _)) by exact Hlt. reflexivity.
  - rewrite (proj2 (Nat.leb_le _ _)) by exact Hge. reflexivity.
Qed.

Lemma set_order_idx_id (a : ExecutionAlgo) : set_order_idx (order_idx a) a = a.
Proof. destruct a. reflexivity. Qed.

Lemma get_order_at_event_limit (a : ExecutionAlgo) (event : Event) (lob : LOB)
    (trade_id : option Z) (row : list Q) (q : Q) :
  ev_type event = "order_placement"%string →
  volumes_per_trade a !! bucket_idx a = Some row →
  row !! order_idx a = Some q →
  no_of_slices a ≠ 0%nat →
  get_order_at_event a event lob trade_id
  = (set_order_idx (if (order_idx a + 1 <? no_of_slices a)%nat
                    then (order_idx a + 1)%nat else 0%nat) a,
     Ok {| o_type := "limit"; o_timestamp := ev_time event;
           o_side := if (trade_direction a =? 1)%Z then "bid" else "ask";
           o_quantity := q; o_price := Some (passive_price a lob);
           o_trade_id := default 1%Z trade_id |}).
Proof.
  intros Htype Hrow Hq Hn. unfold get_order_at_event, passive_price, py_index.
  rewrite Htype, Hrow. cbn [String.eqb Ascii.eqb Bool.eqb mbind result_bind].
  rewrite Hq. rewrite (wrap_order_idx_set a _ Hn).
  destruct (trade_direction a =? 1)%Z; reflexivity.
Qed.

Lemma run_orders_from (a : ExecutionAlgo) (lob : LOB) (row : list Q)
    (events : list Event) (i : nat) :
  volumes_per_trade a !! bucket_idx a = Some row →
  length row = no_of_slices a →
  Forall (λ event, ev_type event = "order_placement"%string) events →
  events ≠ [] →
  (i + length events = no_of_slices a)%nat →
  ∃ orders,
    run_orders events lob (set_order_idx i a) = (set_order_idx 0 a, Ok orders)
    ∧ map o_quantity orders = drop i row
    ∧ map o_timestamp orders = map ev_time events
    ∧ Forall (λ order, o_type order = "limit"%string
                       ∧ o_price order = Some (passive_price a lob)) orders.
Proof.
  intros Hrow Hlen Hall. revert i.
  induction Hall as [|event events Htype Hall IH]; intros i Hne Hi; [contradiction|].
  cbn [length] in Hi.
  destruct (lookup_lt_is_Some_2 row i ltac:(lia)) as [q Hq].
  assert (no_of_slices a ≠ 0%nat) as Hn by lia.
  cbn [run_orders].
  rewrite (get_order_at_event_limit (set_order_idx i a) event lob None row q
             Htype Hrow Hq Hn).
  cbn [order_idx no_of_slices set_order_idx trade_direction default from_option id].
  change (passive_price (set_order_idx i a) lob) with (passive_price a lob).
  destruct events as [|event' events].
  - rewrite (proj2 (Nat.ltb_ge _ _)) by (cbn [length] in Hi; lia).
    cbn [run_orders]. eexists. split; [reflexivity|].
    cbn [map o_quantity o_timestamp o_type o_price].
    split; [|split; [reflexivity|repeat constructor]].
    rewrite (drop_S _ _ _ Hq), drop_ge by (cbn [length] in Hi; lia). reflexivity.
  - rewrite (proj2 (Nat.ltb_lt _ _)) by (cbn [length] in Hi; lia).
    destruct (IH (i + 1)%nat ltac:(discriminate) ltac:(cbn [length] in *; lia))
      as (orders & Hrun & Hqs & Hts & Hfa).
    change (set_order_idx (i + 1) (set_order_idx i a)) with (set_order_idx (i + 1) a).
    rewrite Hrun. eexists. split; [reflexivity|].
    cbn [map o_quantity o_timestamp]. rewrite Hqs, Hts.
    split; [|split; [reflexivity|]].
    + rewrite Nat.add_1_r. symmetry. apply drop_S. exact Hq.
    + constructor; [split; reflexivity|exact Hfa].
Qed.

(** X6.  With the slice cursor at 0 and a row of [no_of_slices] cells for the
    current bucket, [no_of_slices] order_placement events in a row are
    answered by limit orders that hand out the cells of the row in order,
    each priced one tick behind the best price of the schedule's side (below
    the best bid for a buy, above the best ask for a sell) and stamped with
    its event's time; afterwards the slice cursor is back at 0 and nothing
    else has changed. *)
Theorem limit_orders_hand_out_row (a : ExecutionAlgo) (lob : LOB) (row : list Q)
    (events : list Event) :
  volumes_per_trade a !! bucket_idx a = Some row →
  length row = no_of_slices a →
  order_idx a = 0%nat →
  length events = no_of_slices a →
  Forall (λ event, ev_type event = "order_placement"%string) events →
  ∃ orders,
    run_orders events lob a = (a, Ok orders)
    ∧ map o_quantity orders = row
    ∧ map o_timestamp orders = map ev_time events
    ∧ Forall (λ order, o_type order = "limit"%string
                       ∧ o_price order = Some (passive_price a lob)) orders.
Proof.
  intros Hrow Hlen Hidx Hevents Hall.
  destruct events as [|event events].
  - exists []. destruct row; [|cbn [length] in *; congruence].
    repeat split; constructor.
  - pose proof (set_order_idx_id a) as Hid. rewrite Hidx in Hid.
    destruct (run_orders_from a lob row (event :: events) 0 Hrow Hlen Hall
                ltac:(discriminate) Hevents) as (orders & Hrun & Hqs & Hts & Hfa).
    rewrite Hid in Hrun. rewrite drop_0 in Hqs. exists orders. auto.
Qed.

Lemma limit_orders_hand_out_row_witness :
  ∃ orders,
    run_orders [{| ev_type := "order_placement"; ev_time := 3500000 |}]
      {| get_best_bid := 100; get_best_ask := 101 |} two_bucket_algo
    = (two_bucket_algo, Ok orders)
    ∧ map o_quantity orders = [1]
    ∧ map o_timestamp orders
      = map ev_time [{| ev_type := "order_placement"; ev_time := 3500000 |}]
    ∧ Forall (λ order, o_type order = "limit"%string
                       ∧ o_price order
                         = Some (passive_price two_bucket_algo
                                   {| get_best_bid := 100; get_best_ask := 101 |}))
        orders.
Proof.
  apply (limit_orders_hand_out_row two_bucket_algo
           {| get_best_bid := 100; get_best_ask := 101 |} [1]
           [{| ev_type := "order_placement"; ev_time := 3500000 |}]).
  - reflexivity.
  - reflexivity.
  - reflexivity.
  - reflexivity.
  - repeat constructor.
Defined.

(** X7.  Whenever [get_order_at_event] returns an order, in whatever state it
    was called, the slice cursor it leaves designates a slice
    ([order_idx < no_of_slices]), and the remaining volumes, the bucket
    cursor and the allocation table are untouched.  The order is a limit
    order for a cell of the table, priced one tick behind the best price,
    when the event is typed order_placement, and a market order without a
    price for what remains in the current bucket when it is typed
    bucket_bound. *)
Theorem get_order_at_event_returns (a a' : ExecutionAlgo) (event : Event) (lob : LOB)
    (trade_id : option Z) (order : Order) :
  get_order_at_event a event lob trade_id = (a', Ok order) →
  (order_idx a' < no_of_slices a')%nat
  ∧ vol_remaining a' = vol_remaining a
  ∧ bucket_vol_remaining a' = bucket_vol_remaining a
  ∧ bucket_idx a' = bucket_idx a
  ∧ volumes_per_trade a' = volumes_per_trade a
  ∧ ((ev_type event = "order_placement"%string
      ∧ o_type order = "limit"%string
      ∧ o_price order = Some (passive_price a lob)
      ∧ ∃ row, volumes_per_trade a !! bucket_idx a = Some row
               ∧ row !! order_idx a = Some (o_quantity order))
     ∨ (ev_type event = "bucket_bound"%string
        ∧ o_type order = "market"%string
        ∧ o_price order = None
        ∧ bucket_vol_remaining a !! bucket_idx a = Some (o_quantity order))).
Proof.
  unfold get_order_at_event, passive_price. intros H.
  destruct (String.eqb_spec (ev_type event) "order_placement") as [Htype|_].
  - destruct (py_index (volumes_per_trade a) (bucket_idx a)) as [row| |] eqn:Hrow;
      cbn [mbind result_bind] in H; [|discriminate..].
    destruct (py_index row (order_idx a)) as [q| |] eqn:Hq; [|discriminate..].
    apply py_index_Ok in Hrow, Hq.
    unfold wrap_order_idx in H. cbn [no_of_slices order_idx set_order_idx] in H.
    destruct (Nat.eqb_spec (no_of_slices a) 0) as [|Hn]; [discriminate|].
    destruct (Nat.leb_spec (no_of_slices a) (order_idx a + 1)) as [Hle|Hgt];
      injection H as <- <-; cbn [order_idx no_of_slices set_order_idx
        vol_remaining bucket_vol_remaining bucket_idx volumes_per_trade
        o_type o_price o_quantity];
      (split; [lia|]); repeat (split; [reflexivity|]); left;
      (split; [exact Htype|]); (split; [reflexivity|]);
      (split; [destruct (trade_direction a =? 1)%Z; reflexivity|]);
      exists row; auto.
  - destruct (String.eqb_spec (ev_type event) "bucket_bound") as [Htype|_];
      [|discriminate].
    destruct (py_index (bucket_vol_remaining a) (bucket_idx a)) as [q| |] eqn:Hq;
      [|discriminate..].
    apply py_index_Ok in Hq. unfold wrap_order_idx in H.
    destruct (Nat.eqb_spec (no_of_slices a) 0) as [|Hn]; [discriminate|].
    destruct (Nat.leb_spec (no_of_slices a) (order_idx a)) as [Hle|Hgt];
      injection H as <- <-; cbn [order_idx no_of_slices set_order_idx
        vol_remaining bucket_vol_remaining bucket_idx volumes_per_trade
        o_type o_price o_quantity];
      (split; [lia|]); repeat (split; [reflexivity|]); right; auto.
Qed.

Lemma get_order_at_event_returns_witness :
  let event := {| ev_type := "bucket_bound"; ev_time := 7000000 |} in
  let lob := {| get_best_bid := 100; get_best_ask := 101 |} in
  let order := {| o_type := "market"; o_timestamp := 7000000; o_side := "bid";
                  o_quantity := 1; o_price := None; o_trade_id := 1 |} in
  (order_idx two_bucket_algo < no_of_slices two_bucket_algo)%nat
  ∧ vol_remaining two_bucket_algo = vol_remaining two_bucket_algo
  ∧ bucket_vol_remaining two_bucket_algo = bucket_vol_remaining two_bucket_algo
  ∧ bucket_idx two_bucket_algo = bucket_idx two_bucket_algo
  ∧ volumes_per_trade two_bucket_algo = volumes_per_trade two_bucket_algo
  ∧ ((ev_type event = "order_placement"%string
      ∧ o_type order = "limit"%string
      ∧ o_price order = Some (passive_price two_bucket_algo lob)
      ∧ ∃ row, volumes_per_trade two_bucket_algo !! bucket_idx two_bucket_algo
               = Some row
               ∧ row !! order_idx two_bucket_algo = Some (o_quantity order))
     ∨ (ev_type event = "bucket_bound"%string
        ∧ o_type order = "market"%string
        ∧ o_price order = None
        ∧ bucket_vol_remaining two_bucket_algo !! bucket_idx two_bucket_algo
          = Some (o_quantity order))).
Proof.
  intros event lob order.
  apply (get_order_at_event_returns two_bucket_algo two_bucket_algo event lob None
           order).
  reflexivity.
Defined.

(** ** The books of [update_remaining_volume] *)

Lemma Qsum_insert (l : list Q) (i : nat) (v w : Q) :
  l !! i = Some v → Qsum (<[i := w]> l) == Qsum l - v + w.
Proof.
  revert i. induction l as [|x l IH]; intros [|i] H; try discriminate.
  - injection H as ->. cbn. ring.
  - change (Qsum (<[S i := w]> (x :: l))) with (x + Qsum (<[i := w]> l)).
    change (Qsum (x :: l)) with (x + Qsum l). rewrite (IH i H). ring.
Qed.

Lemma update_remaining_volume_returned (a a' : ExecutionAlgo)
    (trade_log : option TradeLog) (event_type : option EventType) :
  update_remaining_volume a trade_log event_type = (a', Returned) →
  vol_remaining a' == vol_remaining a - filled trade_log
  ∧ Qsum (bucket_vol_remaining a') == Qsum (bucket_vol_remaining a) - filled trade_log
  ∧ bucket_idx a'
    = (bucket_idx a + if decide (event_type = Some bucket_bound) then 1 else 0)%nat
  ∧ - Dval (tick_size a) * inject_Z (Z.of_nat (length (bucket_volumes a)))
    <= vol_remaining a'.
Proof.
  intros H.
  assert (∀ b : ExecutionAlgo,
    (if Qltb (vol_remaining b)
          (- Dval (tick_size b) * inject_Z (Z.of_nat (length (bucket_volumes b))))
     then (b, too_much_volume)
     else match bucket_vol_remaining b !! bucket_idx b with
          | None => (b, Raised IndexError)
          | Some v =>
              if Qltb v (- Dval (tick_size b)) then (b, too_much_volume)
              else match event_type with
                   | Some bucket_bound => (set_bucket_idx (bucket_idx b + 1) b, Returned)
                   | _ => (b, Returned)
                   end
          end) = (a', Returned) →
    vol_remaining a' = vol_remaining b
    ∧ bucket_vol_remaining a' = bucket_vol_remaining b
    ∧ bucket_idx a'
      = (bucket_idx b + if decide (event_type = Some bucket_bound) then 1 else 0)%nat
    ∧ - Dval (tick_size b) * inject_Z (Z.of_nat (length (bucket_volumes b)))
      <= vol_remaining b) as Hcheck.
  { intros b Hb.
    destruct (Qltb (vol_remaining b) _) eqn:Hg; [discriminate|].
    apply Qltb_ge in Hg.
    destruct (bucket_vol_remaining b !! bucket_idx b) as [v|]; [|discriminate].
    destruct (Qltb v _); [discriminate|].
    destruct event_type as [[]|]; injection Hb as <-;
      cbn [vol_remaining bucket_vol_remaining bucket_idx set_bucket_idx];
      (split; [reflexivity|]); (split; [reflexivity|]); (split; [|exact Hg]);
      destruct (decide _) as [E|E]; try discriminate E; try (contradict E; reflexivity);
      lia. }
  unfold update_remaining_volume in H. unfold filled.
  destruct trade_log as [log|].
  - destruct (Qltb 0 (quantity log)) eqn:Hpos.
    + cbn [bucket_vol_remaining bucket_idx set_vol_remaining] in H.
      destruct (bucket_vol_remaining a !! bucket_idx a) as [v|] eqn:Hv; [|discriminate].
      apply Hcheck in H as (Hvol & Hbvr & Hidx & Hg).
      cbn [vol_remaining bucket_vol_remaining bucket_idx tick_size bucket_volumes
           set_vol_remaining set_bucket_vol_remaining] in *.
      rewrite Hvol, Hbvr, (Qsum_insert _ _ v _ Hv).
      split; [reflexivity|]. split; [ring|]. split; [exact Hidx|exact Hg].
    + apply Hcheck in H as (Hvol & Hbvr & Hidx & Hg). rewrite Hvol, Hbvr.
      split; [ring|]. split; [ring|]. split; [exact Hidx|exact Hg].
  - apply Hcheck in H as (Hvol & Hbvr & Hidx & Hg). rewrite Hvol, Hbvr.
    split; [ring|]. split; [ring|]. split; [exact Hidx|exact Hg].
Qed.

(** X9.  When a sequence of calls of [update_remaining_volume] has returned
    without an error, the global remaining volume has dropped by the sum of
    the positive fill quantities, and so has the sum of the buckets'
    remaining volumes: the difference between the two books is what it was.
    The bucket cursor has advanced by the number of bucket_bound calls, and
    the fills booked exceed the volume that remained at the start by at most
    one tick for each bucket. *)
Theorem run_updates_books (updates : list (option TradeLog * option EventType))
    (a a' : ExecutionAlgo) :
  run_updates updates a = (a', Returned) →
  updates ≠ [] →
  vol_remaining a' == vol_remaining a - Qsum (map (λ u, filled u.1) updates)
  ∧ vol_remaining a' - Qsum (bucket_vol_remaining a')
    == vol_remaining a - Qsum (bucket_vol_remaining a)
  ∧ bucket_idx a'
    = (bucket_idx a
       + length (filter (λ u, u.2 = Some bucket_bound) updates))%nat
  ∧ Qsum (map (λ u, filled u.1) updates)
    <= vol_remaining a
       + Dval (tick_size a) * inject_Z (Z.of_nat (length (bucket_volumes a))).
Proof.
  revert a. induction updates as [|[trade_log event_type] updates IH];
    intros a H Hne; [contradiction|].
  cbn [run_updates] in H.
  destruct (update_remaining_volume a trade_log event_type) as [b out] eqn:Hup.
  destruct out as [|err]; [|discriminate].
  pose proof (update_remaining_volume_same a trade_log event_type) as Hsame.
  rewrite Hup in Hsame. cbn [fst] in Hsame.
  destruct Hsame as (_ & _ & _ & Htick & _ & Hbv & _).
  apply update_remaining_volume_returned in Hup as (Hvol & Hsum & Hidx & Hg).
  cbn [map fst snd Qsum foldr].
  change (foldr Qplus 0 (map (λ u, filled u.1) updates))
    with (Qsum (map (λ u, filled u.1) updates)).
  rewrite filter_cons. cbn [snd].
  destruct updates as [|u updates].
  - injection H as <-. cbn [map Qsum foldr filter list_filter length].
    split; [rewrite Hvol; ring|]. split; [rewrite Hvol, Hsum; ring|].
    split; [rewrite Hidx; destruct (decide _); cbn [length]; lia|].
    rewrite Hvol in Hg. lra.
  - destruct (IH b H ltac:(discriminate)) as (IHvol & IHsum & IHidx & IHg).
    rewrite Htick, Hbv in IHg.
    split; [rewrite IHvol, Hvol; ring|]. split; [rewrite IHsum, Hvol, Hsum; ring|].
    split; [rewrite IHidx, Hidx; destruct (decide _); cbn [length]; lia|].
    rewrite Hvol in IHg. lra.
Qed.

Lemma run_updates_books_witness :
  let updates := [(Some {| quantity := 1 |}, Some bucket_bound);
                  (None, None);
                  (Some {| quantity := 1 |}, Some bucket_bound)] in
  let a' := set_bucket_idx 2
              (set_bucket_vol_remaining [1 - 1; 1 - 1]
                 (set_vol_remaining (2 - 1 - 1) two_bucket_algo)) in
  vol_remaining a'
  == vol_remaining two_bucket_algo - Qsum (map (λ u, filled u.1) updates)
  ∧ vol_remaining a' - Qsum (bucket_vol_remaining a')
    == vol_remaining two_bucket_algo - Qsum (bucket_vol_remaining two_bucket_algo)
  ∧ bucket_idx a'
    = (bucket_idx two_bucket_algo
       + length (filter (λ u, u.2 = Some bucket_bound) updates))%nat
  ∧ Qsum (map (λ u, filled u.1) updates)
    <= vol_remaining two_bucket_algo
       + Dval (tick_size two_bucket_algo)
         * inject_Z (Z.of_nat (length (bucket_volumes two_bucket_algo))).
Proof.
  intros updates a'.
  apply (run_updates_books updates two_bucket_algo a').
  - reflexivity.
  - discriminate.
Defined.

(** ** The bounds of the buckets *)

(** X10.  An order that ends when it starts, or before, gets no buckets: the
    constructor raises ValueError when [end_time] lies before [start_time],
    and KeyError, from the look-up of the key 0m in the table of bucket
    sizes, when the two are equal. *)
Theorem Bucket_init_rejects (fuel : nat) (randint : nat → Z) (calls : nat)
    (start_time end_time : Z) (rand_width : option Z) :
  (end_time ≤ start_time)%Z →
  Bucket_init fuel randint calls start_time end_time rand_width
  = Raise (if (end_time <? start_time)%Z
           then ValueError "start_time can't take place before end_time"
           else KeyError).
Proof.
  intros Hle. unfold Bucket_init. cbv zeta.
  destruct (Z.ltb_spec end_time start_time) as [Hlt|Hge].
  - assert (Qltb (total_seconds (end_time - start_time)) 0 = true) as ->;
      [|reflexivity].
    apply Qltb_lt. unfold total_seconds.
    apply Qlt_shift_div_r; [reflexivity|]. rewrite Qmult_0_l.
    assert (inject_Z 0 == 0) as <- by reflexivity. rewrite <- Zlt_Qlt. lia.
  - replace (end_time - start_time)%Z with 0%Z by lia. reflexivity.
Qed.

Lemma Bucket_init_rejects_witness :
  Bucket_init 5 (λ _, 0%Z) 0 7000000 7000000 None
  = Raise (if (7000000 <? 7000000)%Z
           then ValueError "start_time can't take place before end_time"
           else KeyError).
Proof. apply (Bucket_init_rejects 5 (λ _, 0%Z) 0 7000000 7000000 None). lia. Defined.

Lemma grid_S (s W : Z) (k : nat) :
  grid s W (S k) = grid s W k ++ [(s + Z.of_nat k * W)%Z].
Proof. unfold grid. rewrite seq_S, map_app. reflexivity. Qed.

Lemma timedelta_of_seconds_no_jitter (w : Q) :
  timedelta_of_seconds (w * (1 + inject_Z 0 / 100)) = timedelta_of_seconds w.
Proof.
  unfold timedelta_of_seconds. apply round_half_even_comp.
  assert (inject_Z 0 / 100 == 0) as -> by reflexivity. ring.
Qed.

Lemma bucket_bounds_loop_grid (randint : nat → Z) (calls : nat) (w : Q)
    (rand_width : option Z) (s e : Z) (m : nat) (fuel k : nat) :
  rand_width = None ∨ rand_width = Some 0%Z →
  (0 < timedelta_of_seconds w)%Z →
  (∀ j, (j < m)%nat → (s + Z.of_nat j * timedelta_of_seconds w < e)%Z) →
  (e ≤ s + Z.of_nat m * timedelta_of_seconds w)%Z →
  (k ≤ m)%nat → (m - k < fuel)%nat →
  bucket_bounds_loop fuel randint calls w rand_width e
    (grid s (timedelta_of_seconds w) (S k))
  = Ok (grid s (timedelta_of_seconds w) (S m), calls).
Proof.
  intros Hrw HW Hbelow Habove. revert k.
  induction fuel as [|fuel IH]; intros k Hk Hfuel; [lia|].
  assert (last (grid s (timedelta_of_seconds w) (S k))
          = Some (s + Z.of_nat k * timedelta_of_seconds w)%Z) as Hlast.
  { rewrite grid_S. apply last_snoc. }
  destruct (decide (k = m)) as [->|Hne].
  - apply (bucket_bounds_loop_exit _ _ _ _ _ _ _ _ Hlast). exact Habove.
  - assert (draw_rand_add randint calls rand_width = Ok (0%Z, calls)) as Hdraw.
    { destruct Hrw as [->| ->]; reflexivity. }
    rewrite (bucket_bounds_loop_step _ _ _ _ _ _ _ _ _ _ Hlast
               (Hbelow k ltac:(lia)) Hdraw).
    rewrite timedelta_of_seconds_no_jitter.
    replace (s + Z.of_nat k * timedelta_of_seconds w + timedelta_of_seconds w)%Z
      with (s + Z.of_nat (S k) * timedelta_of_seconds w)%Z by lia.
    rewrite <- grid_S. apply IH; lia.
Qed.

Lemma timedelta_of_seconds_pos (w : Q) : 7 <= w → (0 < timedelta_of_seconds w)%Z.
Proof.
  intros Hw. rewrite <- timedelta_of_seconds_no_jitter.
  apply step_positive; [exact Hw|lia].
Qed.

Lemma minutes_lt (c d : Z) : inject_Z c < total_seconds d / 60 ↔ (c * 60000000 < d)%Z.
Proof. unfold total_seconds, Qlt, Qdiv, Qmult, Qinv, inject_Z. cbn. lia. Qed.

Lemma minutes_le (c d : Z) : total_seconds d / 60 <= inject_Z c ↔ (d ≤ c * 60000000)%Z.
Proof. unfold total_seconds, Qle, Qdiv, Qmult, Qinv, inject_Z. cbn. lia. Qed.

Lemma hours_le (c d : Z) :
  inject_Z c <= total_seconds d / 60 / 60 ↔ (c * 3600000000 ≤ d)%Z.
Proof. unfold total_seconds, Qle, Qdiv, Qmult, Qinv, inject_Z. cbn. lia. Qed.

Lemma hours_lt (c d : Z) :
  total_seconds d / 60 / 60 < inject_Z c ↔ (d < c * 3600000000)%Z.
Proof. unfold total_seconds, Qlt, Qdiv, Qmult, Qinv, inject_Z. cbn. lia. Qed.

(** Between one minute and four hours, the duration of an order is more than
    3 and at most 12 times the bucket width of the table. *)
Lemma bucket_size_count (d : Z) (w : Q) :
  (60000000 < d ≤ 14400000000)%Z →
  _bucket_size d = Ok w →
  (3 * timedelta_of_seconds w < d ≤ 12 * timedelta_of_seconds w)%Z.
Proof.
  intros Hd H. unfold _bucket_size in H. cbv zeta in H.
  set (dm := total_seconds d / 60) in *.
  destruct (Qltb 30 dm) eqn:E30.
  - apply Qltb_lt in E30. apply (minutes_lt 30 d) in E30.
    pose proof (Qfloor_le (dm / 60)) as Hlo. pose proof (Qlt_floor (dm / 60)) as Hhi.
    apply (hours_le _ d) in Hlo. apply (hours_lt _ d) in Hhi.
    set (f := Qfloor (dm / 60)) in *.
    assert (f = 0 ∨ f = 1 ∨ f = 2 ∨ f = 3 ∨ f = 4)%Z as Hcases by lia.
    destruct Hcases as [-> | [-> | [-> | [-> | ->]]]];
      vm_compute in H; injection H as <-;
      match goal with
      | |- context [timedelta_of_seconds ?q] =>
          let v := eval vm_compute in (timedelta_of_seconds q) in
          change (timedelta_of_seconds q) with v
      end; lia.
  - apply Qltb_ge in E30. apply (minutes_le 30 d) in E30.
    destruct (Qltb 10 dm) eqn:E10.
    { apply Qltb_lt in E10. apply (minutes_lt 10 d) in E10.
      assert (Qle_bool dm 30 = true) as E
        by (apply Qle_bool_iff, (minutes_le 30 d); exact E30).
      rewrite E in H. cbn [andb] in H. vm_compute in H. injection H as <-.
      change (timedelta_of_seconds (180 # 1)) with 180000000%Z. lia. }
    apply Qltb_ge in E10. apply (minutes_le 10 d) in E10. cbn [andb] in H.
    destruct (Qltb 5 dm) eqn:E5.
    { apply Qltb_lt in E5. apply (minutes_lt 5 d) in E5.
      assert (Qle_bool dm 10 = true) as E
        by (apply Qle_bool_iff, (minutes_le 10 d); exact E10).
      rewrite E in H. cbn [andb] in H. vm_compute in H. injection H as <-.
      change (timedelta_of_seconds (60 # 1)) with 60000000%Z. lia. }
    apply Qltb_ge in E5. apply (minutes_le 5 d) in E5. cbn [andb] in H.
    pose proof (Qle_ceiling dm) as Hle. pose proof (Qceiling_lt dm) as Hlt.
    apply (minutes_le _ d) in Hle. apply (minutes_lt _ d) in Hlt.
    set (c := Qceiling dm) in *.
    assert (c = 2 ∨ c = 3 ∨ c = 4 ∨ c = 5)%Z as Hcases by lia.
    destruct Hcases as [-> | [-> | [-> | ->]]];
      vm_compute in H; injection H as <-;
      match goal with
      | |- context [timedelta_of_seconds ?q] =>
          let v := eval vm_compute in (timedelta_of_seconds q) in
          change (timedelta_of_seconds q) with v
      end; lia.
Qed.

(** X11.  Without jitter, an order of positive duration [d] is cut on a
    regular grid: with [W] the bucket width of the table for [d] (between 7
    and 1200 seconds), the constructor returns [n = ceil(d / W)] buckets with
    the bounds [start, start + W, ..., start + (n - 1) W, end].  Every bucket
    but the last is [W] wide; the last takes the rest, more than nothing and
    at most [W].  An order of more than a minute and at most four hours gets
    at least 4 and at most 12 buckets. *)
Theorem Bucket_init_regular (randint : nat → Z) (calls : nat)
    (start_time end_time : Z) (rand_width : option Z) :
  (start_time < end_time)%Z →
  rand_width = None ∨ rand_width = Some 0%Z →
  ∃ w, _bucket_size (end_time - start_time) = Ok w
    ∧ 7 <= w <= 1200
    ∧ let W := timedelta_of_seconds w in
      let n := Z.to_nat ((end_time - start_time + W - 1) / W) in
      (1 ≤ n)%nat
      ∧ (Z.of_nat (n - 1) * W < end_time - start_time ≤ Z.of_nat n * W)%Z
      ∧ ((60000000 < end_time - start_time ≤ 14400000000)%Z → (4 ≤ n ≤ 12)%nat)
      ∧ ∀ fuel, (n < fuel)%nat →
          Bucket_init fuel randint calls start_time end_time rand_width
          = Ok ({| start_time := start_time; end_time := end_time;
                   duration := end_time - start_time; bucket_width := w;
                   rand_width := rand_width;
                   bucket_bounds := grid start_time W n ++ [end_time];
                   n_buckets := n |}, calls).
Proof.
  intros Hlt Hrw.
  destruct (bucket_size_total (end_time - start_time) ltac:(lia)) as [w Hw].
  exists w. split; [exact Hw|].
  pose proof (bucket_size_ge_7 _ _ Hw) as Hw7.
  split.
  { split; [exact Hw7|].
    apply bucket_size_in_table in Hw as [key Hkey].
    unfold BUCKET_SIZES_IN_SECS in Hkey. apply elem_of_list_to_map_2 in Hkey.
    repeat (apply elem_of_cons in Hkey as [[= _ ->]|Hkey]; [vm_compute; discriminate|]).
    apply elem_of_nil in Hkey. contradiction. }
  pose proof (timedelta_of_seconds_pos w Hw7) as HW.
  set (W := timedelta_of_seconds w) in *. cbv zeta.
  set (d := (end_time - start_time)%Z) in *.
  set (q := ((d + W - 1) / W)%Z).
  assert (d + W - 1 = W * q + (d + W - 1) mod W)%Z as Hdiv
    by (apply Z.div_mod; lia).
  pose proof (Z.mod_pos_bound (d + W - 1) W HW) as Hmod.
  assert (1 ≤ q)%Z as Hq by (subst d; nia).
  assert (Z.of_nat (Z.to_nat q) = q) as Hn by lia.
  split; [lia|]. split.
  { rewrite Nat2Z.inj_sub by lia. rewrite Hn. subst d. nia. }
  split.
  { intros Hrange. pose proof (bucket_size_count d w Hrange Hw) as Hcount.
    fold W in Hcount. nia. }
  intros fuel Hfuel. unfold Bucket_init, Bucket_bucket_bounds. cbv zeta. fold d.
  assert (Qltb (total_seconds d) 0 = false) as ->.
  { apply Qltb_ge. unfold total_seconds.
    apply Qle_shift_div_l; [reflexivity|]. rewrite Qmult_0_l.
    assert (inject_Z 0 == 0) as <- by reflexivity. rewrite <- Zle_Qle. lia. }
  rewrite Hw. cbn [mbind result_bind].
  replace [start_time] with (grid start_time W 1)
    by (unfold grid; cbn [map seq]; f_equal; lia).
  pose proof (bucket_bounds_loop_grid randint calls w rand_width start_time end_time
                (Z.to_nat q) fuel 0 Hrw HW) as Hloop.
  fold W in Hloop. rewrite Hloop.
  - cbn [mbind result_bind].
    rewrite (grid_S start_time W (Z.to_nat q)), last_snoc.
    cbn [default from_option id].
    destruct (Z.leb_spec end_time (start_time + Z.of_nat (Z.to_nat q) * W)) as [_|Hc];
      [|subst d; nia].
    rewrite removelast_last, length_app. unfold grid at 2.
    rewrite length_map, length_seq. cbn [length].
    replace (Z.to_nat q + 1 - 1)%nat with (Z.to_nat q) by lia. reflexivity.
  - intros j Hj. subst d. nia.
  - subst d. nia.
  - lia.
  - lia.
Qed.

Lemma Bucket_init_regular_witness :
  ∃ w, _bucket_size (300000000 - 0) = Ok w
    ∧ 7 <= w <= 1200
    ∧ let W := timedelta_of_seconds w in
      let n := Z.to_nat ((300000000 - 0 + W - 1) / W) in
      (1 ≤ n)%nat
      ∧ (Z.of_nat (n - 1) * W < 300000000 - 0 ≤ Z.of_nat n * W)%Z
      ∧ ((60000000 < 300000000 - 0 ≤ 14400000000)%Z → (4 ≤ n ≤ 12)%nat)
      ∧ ∀ fuel, (n < fuel)%nat →
          Bucket_init fuel (λ _, 0%Z) 0 0 300000000 None
          = Ok ({| start_time := 0; end_time := 300000000;
                   duration := 300000000 - 0; bucket_width := w;
                   rand_width := None;
                   bucket_bounds := grid 0 W n ++ [300000000%Z];
                   n_buckets := n |}, 0%nat).
Proof.
  apply (Bucket_init_regular (λ _, 0%Z) 0 0 300000000 None).
  - lia.
  - left. reflexivity.
Defined.

(** ** The errors of the splitter *)


(** ** The shape of a constructed schedule *)

Lemma split_across_buckets_Ok_inv (quantity : float64) (n : nat) (ticks : float64)
    (parts : list Q) :
  split_across_buckets quantity n ticks = Ok parts → length parts = n ∧ (1 ≤ n)%nat.
Proof.
  unfold split_across_buckets. intros H.
  apply bind_Ok in H as (inv_ticks & _ & H). cbv zeta in H.
  apply bind_Ok in H as ([base extra] & Hdiv & H).
  apply bind_Ok in H as (base_vol & _ & H).
  apply bind_Ok in H as (extra_vol & _ & H). injection H as <-.
  rewrite length_map, length_seq. split; [reflexivity|].
  apply float_divmod_Ok_inv in Hdiv. rewrite float_of_int_eq_0 in Hdiv. lia.
Qed.

Lemma split_within_shape (idxs : list nat) (bucket_volumes : list Q) (n : nat)
    (tick : Decimal) (split_vols : list (list Q)) :
  split_within idxs bucket_volumes n tick = Ok split_vols →
  length split_vols = length idxs
  ∧ Forall (λ row, length row = n) split_vols
  ∧ (idxs ≠ [] → (1 ≤ n)%nat).
Proof.
  revert split_vols. induction idxs as [|i idxs IH]; intros split_vols H.
  - injection H as <-. split; [reflexivity|]. split; [constructor|]. congruence.
  - cbn [split_within] in H.
    apply bind_Ok in H as (bucket_volume & _ & H).
    apply bind_Ok in H as (row & Hrow & H).
    apply bind_Ok in H as (rows & Hrows & H). injection H as <-.
    apply split_across_buckets_Ok_inv in Hrow as [Hlen Hn].
    apply IH in Hrows as (Hl & Hf & _).
    split; [cbn [length]; lia|]. split; [constructor; assumption|]. intros _. exact Hn.
Qed.

Lemma resample_loop_size (bucket_placement_func : nat → nat → placement_sample)
    (fuel calls n : nat) (bounds : list Z) (idx : nat) (trades trades' : list Z)
    (calls' : nat) :
  resample_loop bucket_placement_func fuel calls n bounds idx trades
    = Ok (trades', calls') →
  (n ≤ length trades')%nat.
Proof.
  intros H. apply resample_loop_inv in H as [Hm _].
  apply must_resample_false in Hm as [Hsize _].
  pose proof (size_list_to_set_le trades'). lia.
Qed.

Lemma sample_buckets_shape (bucket_placement_func : nat → nat → placement_sample)
    (fuel calls n : nat) (bounds : list Z) (idxs : list nat)
    (acc exec_times : list (list Z)) (calls' : nat) :
  sample_buckets bucket_placement_func fuel calls n bounds idxs acc
    = Ok (exec_times, calls') →
  Forall (λ trades, (n ≤ length trades)%nat) acc →
  length exec_times = (length acc + length idxs)%nat
  ∧ Forall (λ trades, (n ≤ length trades)%nat) exec_times.
Proof.
  revert calls acc. induction idxs as [|i idxs IH]; intros calls acc H Hacc.
  - injection H as <- <-. split; [cbn [length]; lia|exact Hacc].
  - cbn [sample_buckets] in H.
    apply bind_Ok in H as ([bt c] & _ & H).
    apply bind_Ok in H as ([bt' c'] & Hloop & H).
    apply resample_loop_size in Hloop.
    apply IH in H as [Hl Hf].
    + split; [|exact Hf]. rewrite length_app in Hl. cbn [length] in *. lia.
    + apply Forall_app. split; [exact Hacc|]. constructor; [exact Hloop|constructor].
Qed.

(** X14.  Every benchmark schedule that the constructor returns has at least
    two buckets and at least one slice per bucket; it holds one bound more
    than buckets, one volume, one list of decision times and one row of the
    allocation table for each bucket; every row has [no_of_slices] cells and
    every bucket at least [no_of_slices] decision times. *)
Theorem TWAPAlgo_init_shape (fuel : nat) (randint : nat → Z)
    (bucket_placement_func : nat → nat → placement_sample) (e : Z)
    (p : OrderParams) (a : ExecutionAlgo) :
  TWAPAlgo_init fuel randint bucket_placement_func e p = Ok a →
  let n := n_buckets (buckets a) in
  (2 ≤ n)%nat
  ∧ (1 ≤ no_of_slices a)%nat
  ∧ length (bucket_bounds (buckets a)) = (n + 1)%nat
  ∧ length (bucket_volumes a) = n
  ∧ length (bucket_vol_remaining a) = n
  ∧ length (execution_times a) = n
  ∧ length (volumes_per_trade a) = n
  ∧ Forall (λ row, length row = no_of_slices a) (volumes_per_trade a)
  ∧ Forall (λ trades, (no_of_slices a ≤ length trades)%nat) (execution_times a).
Proof.
  intros H. apply TWAPAlgo_init_inv in H.
  destruct H as (b & draws & bv & ex & ev & calls & sv & Hb & Hbv & _ & Hs & Hsv & _ & ->).
  cbn [buckets no_of_slices bucket_volumes bucket_vol_remaining execution_times
       volumes_per_trade].
  apply Bucket_init_bounds in Hb as (_ & _ & _ & _ & Hn & _).
  apply split_volume_across_buckets_inv in Hbv
    as (b_first & b_prev & b_last & m & rest & _ & Hlen & _ & _ & _ & _ & _ & Hrest & ->).
  apply split_across_buckets_Ok_inv in Hrest as [Hrest Hn1].
  unfold _sample_execution_times in Hs.
  apply bind_Ok in Hs as ([ex' c] & Hsb & Hs). injection Hs as -> _ _.
  apply sample_buckets_shape in Hsb as [Hex Hexf]; [|constructor].
  rewrite length_seq in Hex. cbn [length] in Hex.
  unfold _split_volume_within_buckets in Hsv.
  apply split_within_shape in Hsv as (Hsvl & Hsvf & Hslices).
  rewrite length_seq in Hsvl.
  assert (seq 0 (n_buckets b) ≠ []) as Hne.
  { destruct (n_buckets b); [lia|discriminate]. }
  rewrite length_app. cbn [length].
  repeat split; try assumption; try lia. apply Hslices. exact Hne.
Qed.

Lemma TWAPAlgo_init_shape_witness :
  let n := n_buckets (buckets two_bucket_algo) in
  (2 ≤ n)%nat
  ∧ (1 ≤ no_of_slices two_bucket_algo)%nat
  ∧ length (bucket_bounds (buckets two_bucket_algo)) = (n + 1)%nat
  ∧ length (bucket_volumes two_bucket_algo) = n
  ∧ length (bucket_vol_remaining two_bucket_algo) = n
  ∧ length (execution_times two_bucket_algo) = n
  ∧ length (volumes_per_trade two_bucket_algo) = n
  ∧ Forall (λ row, length row = no_of_slices two_bucket_algo)
      (volumes_per_trade two_bucket_algo)
  ∧ Forall (λ trades, (no_of_slices two_bucket_algo ≤ length trades)%nat)
      (execution_times two_bucket_algo).
Proof.
  apply (TWAPAlgo_init_shape 5 (λ _, 0%Z) midpoint_placement 0 two_bucket_order).
  apply two_bucket_algo_built.
Defined.

Lemma TWAPAlgo_init_slices_pos (fuel : nat) (randint : nat → Z)
    (bucket_placement_func : nat → nat → placement_sample) (e : Z)
    (p : OrderParams) (a : ExecutionAlgo) :
  TWAPAlgo_init fuel randint bucket_placement_func e p = Ok a →
  (1 ≤ no_of_slices a)%nat.
Proof.
  intros H. apply TWAPAlgo_init_inv in H.
  destruct H as (b & draws & bv & ex & ev & calls & sv & _ & Hbv & _ & _ & Hsv & _ & ->).
  cbn [no_of_slices].
  apply split_volume_across_buckets_inv in Hbv
    as (b_first & b_prev & b_last & m & rest & _ & _ & _ & _ & _ & _ & _ & Hrest & ->).
  apply split_across_buckets_Ok_inv in Hrest as [_ Hn1].
  unfold _split_volume_within_buckets in Hsv.
  apply split_within_shape in Hsv as (_ & _ & Hslices). apply Hslices.
  destruct (n_buckets b); [lia|discriminate].
Qed.

(** ** Closing a bucket *)

(** The slice cursor stays below [no_of_slices], whatever is called. *)
Lemma update_remaining_volume_order_idx (a : ExecutionAlgo) (trade_log : option TradeLog)
    (event_type : option EventType) :
  order_idx (update_remaining_volume a trade_log event_type).1 = order_idx a.
Proof.
  unfold update_remaining_volume.
  destruct trade_log as [log|]; [destruct (Qltb 0 (quantity log))|];
    cbn [set_vol_remaining bucket_vol_remaining bucket_idx];
    repeat match goal with
      | |- context [match ?l !! ?i with _ => _ end] => destruct (l !! i)
      | |- context [if Qltb ?x ?y then _ else _] => destruct (Qltb x y)
      | |- context [match ?e with Some _ => _ | None => _ end] => destruct e
      | |- context [match ?e with order_placement => _ | bucket_bound => _ end] =>
          destruct e
      end;
    reflexivity.
Qed.

Lemma get_order_at_event_order_idx (a : ExecutionAlgo) (event : Event) (lob : LOB)
    (trade_id : option Z) :
  (order_idx a < no_of_slices a)%nat →
  (order_idx (get_order_at_event a event lob trade_id).1 < no_of_slices a)%nat.
Proof.
  intros H. unfold get_order_at_event, wrap_order_idx.
  repeat match goal with
    | |- context [if String.eqb ?x ?y then _ else _] => destruct (String.eqb x y)
    | |- context [match py_index ?l ?i ≫= ?f with _ => _ end] =>
        destruct (py_index l i ≫= f)
    | |- context [match py_index ?l ?i with _ => _ end] => destruct (py_index l i)
    | |- context [if (?x =? ?y)%nat then _ else _] => destruct (Nat.eqb_spec x y)
    | |- context [if (?x <=? ?y)%nat then _ else _] => destruct (Nat.leb_spec x y)
    end;
    cbn in *; lia.
Qed.

Lemma after_call_order_idx (a : ExecutionAlgo) (c : Call) :
  (order_idx a < no_of_slices a)%nat →
  (order_idx (after_call a c) < no_of_slices a)%nat.
Proof.
  intros H. destruct c as [trade_log event_type| |event lob trade_id|v];
    cbn [after_call].
  - rewrite update_remaining_volume_order_idx. exact H.
  - destruct (get_next_event a) as [[[event done] a']| |] eqn:E; [|exact H..].
    apply get_next_event_same in E as (_ & _ & _ & _ & -> & _). exact H.
  - apply get_order_at_event_order_idx. exact H.
  - destruct (write_cell a v) as [a'| |] eqn:E; [|exact H..].
    unfold write_cell in E. inv_bind E. inv_bind E. injection E as <-. exact H.
Qed.

Lemma after_calls_order_idx (a : ExecutionAlgo) (calls : list Call) :
  (order_idx a < no_of_slices a)%nat →
  (order_idx (foldl after_call a calls) < no_of_slices a)%nat.
Proof.
  revert a. induction calls as [|c calls IH]; intros a H; cbn [foldl]; [exact H|].
  pose proof (after_call_same a c) as (_ & _ & Hn & _).
  rewrite <- Hn. apply IH. rewrite Hn. apply after_call_order_idx. exact H.
Qed.

(** X8.  Closing a bucket of a schedule that the constructor built, after any
    calls on it: on a bucket_bound event the schedule offers, as a market
    order, exactly what remains in the current bucket and changes nothing;
    booking the fill of that order in full with [update_remaining_volume]
    takes the quantity off the global remaining volume, leaves the bucket at
    zero and the other buckets untouched; the call returns and the bucket
    cursor moves to the next bucket unless the global remaining volume has
    come to lie below [- tick_size * number of buckets], in which case the
    call raises and the cursor stays. *)
Theorem market_order_closes_bucket (fuel : nat) (randint : nat → Z)
    (bucket_placement_func : nat → nat → placement_sample) (e : Z)
    (p : OrderParams) (a0 : ExecutionAlgo) (calls : list Call)
    (event : Event) (lob : LOB) (trade_id : option Z) (q : Q) :
  TWAPAlgo_init fuel randint bucket_placement_func e p = Ok a0 →
  let a := foldl after_call a0 calls in
  ev_type event = "bucket_bound"%string →
  bucket_vol_remaining a !! bucket_idx a = Some q →
  0 < q →
  ∃ order,
    get_order_at_event a event lob trade_id = (a, Ok order)
    ∧ o_type order = "market"%string
    ∧ o_quantity order = q
    ∧ let floor :=
        - Dval (tick_size a) * inject_Z (Z.of_nat (length (bucket_volumes a))) in
      let booked :=
        update_remaining_volume a (Some {| quantity := o_quantity order |})
          (Some bucket_bound) in
      vol_remaining booked.1 = vol_remaining a - q
      ∧ (∃ v, bucket_vol_remaining booked.1 !! bucket_idx a = Some v ∧ v == 0)
      ∧ (∀ j, j ≠ bucket_idx a →
              bucket_vol_remaining booked.1 !! j = bucket_vol_remaining a !! j)
      ∧ (floor <= vol_remaining a - q →
         booked.2 = Returned ∧ bucket_idx booked.1 = (bucket_idx a + 1)%nat)
      ∧ (vol_remaining a - q < floor →
         booked.2 = too_much_volume ∧ bucket_idx booked.1 = bucket_idx a).
Proof.
  intros Hinit a Htype Hq Hpos.
  pose proof (after_calls_same a0 calls) as (_ & _ & Hn & Htick & _). fold a in Hn, Htick.
  pose proof (TWAPAlgo_init_slices_pos _ _ _ _ _ _ Hinit) as Hslices.
  assert (order_idx a < no_of_slices a)%nat as Hidx.
  { rewrite Hn. apply after_calls_order_idx.
    apply TWAPAlgo_init_inv in Hinit
      as (b & draws & bv & ex & ev & c & sv & _ & _ & _ & _ & _ & _ & ->).
    cbn [order_idx no_of_slices] in *. lia. }
  assert (0 < Dval (tick_size a)) as Htpos.
  { rewrite Htick. apply TWAPAlgo_init_inv in Hinit
      as (b & draws & bv & ex & ev & c & sv & _ & _ & _ & _ & _ & _ & ->).
    cbn [tick_size]. apply Dval_tick_pos. }
  eexists. split.
  { unfold get_order_at_event, py_index, wrap_order_idx.
    rewrite Htype, Hq. cbn [String.eqb Ascii.eqb Bool.eqb].
    destruct (Nat.eqb_spec (no_of_slices a) 0) as [|_]; [lia|].
    rewrite (proj2 (Nat.leb_gt _ _)) by exact Hidx. reflexivity. }
  cbn [o_type o_quantity]. split; [reflexivity|]. split; [reflexivity|].
  cbv zeta.
  rewrite (update_remaining_volume_fill a {| quantity := q |} _ q Hpos Hq).
  cbn [quantity]. cbv zeta.
  assert (- Dval (tick_size a) <= q - q) as Hbucket by lra.
  rewrite (proj2 (Qltb_ge _ _) Hbucket).
  assert ((<[bucket_idx a := q - q]> (bucket_vol_remaining a)) !! bucket_idx a
          = Some (q - q)) as Hcell.
  { apply list_lookup_insert_eq. eapply lookup_lt_Some. exact Hq. }
  destruct (Qltb (vol_remaining a - q) _) eqn:Hg;
    [apply Qltb_lt in Hg|apply Qltb_ge in Hg];
    cbn [fst snd bucket_idx set_bucket_idx bucket_vol_remaining
         set_bucket_vol_remaining vol_remaining set_vol_remaining].
  - split; [reflexivity|]. split; [exists (q - q); split; [exact Hcell|ring]|].
    split; [intros j Hj; apply list_lookup_insert_ne; congruence|].
    split; [intros Hc; lra|]. intros _. split; reflexivity.
  - split; [reflexivity|]. split; [exists (q - q); split; [exact Hcell|ring]|].
    split; [intros j Hj; apply list_lookup_insert_ne; congruence|].
    split; [intros _; split; reflexivity|]. intros Hc. lra.
Qed.

Lemma market_order_closes_bucket_witness :
  let a := foldl after_call two_bucket_algo [CallNextEvent] in
  ∃ order,
    get_order_at_event a {| ev_type := "bucket_bound"; ev_time := 7000000 |}
      {| get_best_bid := 100; get_best_ask := 101 |} None
    = (a, Ok order)
    ∧ o_type order = "market"%string
    ∧ o_quantity order = 1
    ∧ let floor :=
        - Dval (tick_size a) * inject_Z (Z.of_nat (length (bucket_volumes a))) in
      let booked :=
        update_remaining_volume a (Some {| quantity := o_quantity order |})
          (Some bucket_bound) in
      vol_remaining booked.1 = vol_remaining a - 1
      ∧ (∃ v, bucket_vol_remaining booked.1 !! bucket_idx a = Some v ∧ v == 0)
      ∧ (∀ j, j ≠ bucket_idx a →
              bucket_vol_remaining booked.1 !! j = bucket_vol_remaining a !! j)
      ∧ (floor <= vol_remaining a - 1 →
         booked.2 = Returned ∧ bucket_idx booked.1 = (bucket_idx a + 1)%nat)
      ∧ (vol_remaining a - 1 < floor →
         booked.2 = too_much_volume ∧ bucket_idx booked.1 = bucket_idx a).
Proof.
  apply (market_order_closes_bucket 5 (λ _, 0%Z) midpoint_placement 0 two_bucket_order
           two_bucket_algo [CallNextEvent]
           {| ev_type := "bucket_bound"; ev_time := 7000000 |}
           {| get_best_bid := 100; get_best_ask := 101 |} None 1).
  - vm_compute. reflexivity.
  - reflexivity.
  - reflexivity.
  - reflexivity.
Defined.

(** ** Where the decision times lie *)

Lemma timedelta_mul_between (t_diff : Z) (plcmt : Q) :
  0 <= plcmt → plcmt <= 1 →
  (Z.min 0 t_diff ≤ timedelta_mul t_diff plcmt ≤ Z.max 0 t_diff)%Z.
Proof.
  intros H0 H1. unfold timedelta_mul.
  destruct (Z.le_ge_cases 0 t_diff) as [Hd|Hd].
  - rewrite Z.min_l, Z.max_r by lia.
    assert (0 <= inject_Z t_diff) as Hq by (change 0 with (inject_Z 0); rewrite <- Zle_Qle; lia).
    apply round_half_even_between.
    + change (inject_Z 0) with 0. apply Qmult_le_0_compat; assumption.
    + assert (plcmt * inject_Z t_diff <= 1 * inject_Z t_diff) as H
        by (apply Qmult_le_compat_r; assumption).
      lra.
  - rewrite Z.min_r, Z.max_l by lia.
    assert (inject_Z t_diff <= 0) as Hq by (change 0 with (inject_Z 0); rewrite <- Zle_Qle; lia).
    apply round_half_even_between.
    + assert (plcmt * - inject_Z t_diff <= 1 * - inject_Z t_diff) as H
        by (apply Qmult_le_compat_r; [assumption|lra]).
      lra.
    + change (inject_Z 0) with 0.
      assert (0 <= - inject_Z t_diff * plcmt) by (apply Qmult_le_0_compat; lra).
      lra.
Qed.

Section Placements.
Variable bucket_placement_func : nat → nat → placement_sample.
Hypothesis Hunit : unit_placements bucket_placement_func.

Lemma get_execution_times_within (calls n : nat) (bounds : list Z) (idx : nat)
    (trades : list Z) (calls' : nat) :
  _get_execution_times bucket_placement_func calls n bounds idx = Ok (trades, calls') →
  within_bucket bounds idx trades.
Proof.
  unfold _get_execution_times. intros H.
  apply bind_Ok in H as (hi & Hhi & H). apply bind_Ok in H as (lo & Hlo & H).
  injection H as <- _. apply py_index_Ok in Hhi, Hlo.
  exists lo, hi. split; [exact Hlo|]. split; [exact Hhi|].
  intros t Ht. apply list_elem_of_fmap in Ht as (q & -> & Hq).
  apply Hunit in Hq as [H0 H1].
  pose proof (timedelta_mul_between (hi - lo) q H0 H1). lia.
Qed.

Lemma resample_loop_within (fuel calls n : nat) (bounds : list Z) (idx : nat)
    (trades trades' : list Z) (calls' : nat) :
  resample_loop bucket_placement_func fuel calls n bounds idx trades
    = Ok (trades', calls') →
  within_bucket bounds idx trades →
  within_bucket bounds idx trades'.
Proof.
  revert calls trades. induction fuel as [|fuel IH]; intros calls trades H Hin;
    [discriminate|].
  cbn [resample_loop] in H.
  destruct (must_resample n bounds trades).
  - apply bind_Ok in H as ([bt c] & Hget & H).
    eapply IH; [exact H|]. eapply get_execution_times_within. exact Hget.
  - injection H as <- _. exact Hin.
Qed.

Lemma sample_buckets_within (fuel calls n : nat) (bounds : list Z) (s k : nat)
    (acc exec_times : list (list Z)) (calls' : nat) :
  sample_buckets bucket_placement_func fuel calls n bounds (seq s k) acc
    = Ok (exec_times, calls') →
  length acc = s →
  (∀ i trades, acc !! i = Some trades → within_bucket bounds i trades) →
  ∀ i trades, exec_times !! i = Some trades → within_bucket bounds i trades.
Proof.
  revert calls s acc. induction k as [|k IH]; intros calls s acc H Hlen Hacc.
  - injection H as <- _. exact Hacc.
  - cbn [seq sample_buckets] in H.
    apply bind_Ok in H as ([bt c] & Hget & H).
    apply bind_Ok in H as ([bt' c'] & Hloop & H).
    apply (IH _ _ _ H); [rewrite length_app; cbn [length]; lia|].
    intros i trades Hi. apply lookup_app_Some in Hi as [Hi|[Hge Hi]].
    + apply Hacc. exact Hi.
    + apply list_lookup_singleton_Some in Hi as [Hi ->].
      replace i with s by lia.
      eapply resample_loop_within; [exact Hloop|].
      eapply get_execution_times_within. exact Hget.
Qed.
End Placements.

Lemma StronglySorted_lookup_lt (l : list Z) (i j : nat) (x y : Z) :
  StronglySorted Z.lt l → l !! i = Some x → l !! j = Some y → (i < j)%nat → (x < y)%Z.
Proof.
  intros Hs. revert i j. induction Hs as [|z l Hs IH Hz]; intros i j Hi Hj Hij;
    [discriminate|].
  destruct j as [|j]; [lia|]. cbn in Hj. destruct i as [|i].
  - injection Hi as <-. apply list_elem_of_lookup_2 in Hj.
    exact (proj1 (Forall_forall _ _) Hz y Hj).
  - cbn in Hi. apply (IH i j); [assumption..|lia].
Qed.

Lemma Bucket_init_Ok_lt (fuel : nat) (randint : nat → Z) (calls calls' : nat)
    (s e : Z) (rand_width : option Z) (b : Bucket) :
  Bucket_init fuel randint calls s e rand_width = Ok (b, calls') → (s < e)%Z.
Proof.
  intros H. destruct (Z.lt_ge_cases s e) as [Hlt|Hge]; [exact Hlt|exfalso].
  unfold Bucket_init in H. cbv zeta in H.
  destruct (Z.ltb_spec e s) as [Hlt|Hle].
  - assert (Qltb (total_seconds (e - s)) 0 = true) as E.
    { apply Qltb_lt. unfold total_seconds.
      apply Qlt_shift_div_r; [reflexivity|]. rewrite Qmult_0_l.
      assert (inject_Z 0 == 0) as <- by reflexivity. rewrite <- Zlt_Qlt. lia. }
    rewrite E in H. discriminate.
  - replace (e - s)%Z with 0%Z in H by lia. discriminate.
Qed.

Lemma sampled_inside_bucket (fuel : nat) (randint : nat → Z)
    (bucket_placement_func : nat → nat → placement_sample) (s e : Z)
    (rand_width : option Z) (n : nat) (b : Bucket) (draws calls : nat)
    (exec_times : list (list Z)) (events : list Z) (i : nat) (trades : list Z) (t : Z) :
  Bucket_init fuel randint 0 s e rand_width = Ok (b, draws) →
  _sample_execution_times bucket_placement_func fuel 0 n b
    = Ok (exec_times, events, calls) →
  unit_placements bucket_placement_func →
  jitter_below_100 rand_width randint →
  exec_times !! i = Some trades →
  t ∈ trades →
  ∃ lo hi,
    bucket_bounds b !! i = Some lo ∧ bucket_bounds b !! (i + 1)%nat = Some hi
    ∧ (lo < t < hi)%Z.
Proof.
  intros Hb Hs Hunit Hjitter Hi Ht.
  pose proof (sample_execution_times_inv _ _ _ _ _ _ _ _ Hs) as Hwell.
  unfold _sample_execution_times in Hs.
  apply bind_Ok in Hs as ([ex' c] & Hsb & Hs). injection Hs as -> _ _.
  pose proof (sample_buckets_within bucket_placement_func Hunit _ _ _ _ _ _ _ _ _ Hsb
                eq_refl ltac:(intros ? ? [=]) i trades Hi) as (lo & hi & Hlo & Hhi & Hin).
  exists lo, hi. split; [exact Hlo|]. split; [exact Hhi|].
  pose proof (Bucket_init_Ok_lt _ _ _ _ _ _ _ _ Hb) as Hlt.
  destruct (Bucket_init_increasing randint 0 _ _ _ Hlt Hjitter) as [_ Hsorted].
  destruct (Hsorted _ _ _ Hb) as (Hsorted' & _).
  pose proof (StronglySorted_lookup_lt _ _ _ _ _ Hsorted' Hlo Hhi ltac:(lia)) as Hlohi.
  apply list_elem_of_lookup_2 in Hi.
  pose proof (proj1 (Forall_forall _ _) Hwell trades Hi) as [Hm _].
  apply must_resample_false in Hm as [_ Hm]. specialize (Hm t Ht).
  specialize (Hin t Ht).
  assert (t ≠ lo) by (intros ->; apply Hm; eapply list_elem_of_lookup_2; exact Hlo).
  assert (t ≠ hi) by (intros ->; apply Hm; eapply list_elem_of_lookup_2; exact Hhi).
  lia.
Qed.

(** X15.  When the placement function returns fractions between 0 and 1 and
    the jitter of the bounds is below 100 percent, every retained decision
    time of every constructed benchmark schedule lies strictly inside its own
    bucket: after the bucket's opening bound and before its closing bound. *)
Theorem decision_times_inside_bucket (fuel : nat) (randint : nat → Z)
    (bucket_placement_func : nat → nat → placement_sample) (e : Z)
    (p : OrderParams) (a : ExecutionAlgo) (i : nat) (trades : list Z) (t : Z) :
  TWAPAlgo_init fuel randint bucket_placement_func e p = Ok a →
  unit_placements bucket_placement_func →
  jitter_below_100 (p_rand_bucket_bounds_width p) randint →
  execution_times a !! i = Some trades →
  t ∈ trades →
  ∃ lo hi,
    bucket_bounds (buckets a) !! i = Some lo
    ∧ bucket_bounds (buckets a) !! (i + 1)%nat = Some hi
    ∧ (lo < t < hi)%Z.
Proof.
  intros H Hunit Hjitter Hi Ht. apply TWAPAlgo_init_inv in H.
  destruct H as (b & draws & bv & ex & ev & calls & sv & Hb & _ & _ & Hs & _ & _ & ->).
  cbn [buckets execution_times] in *.
  eapply sampled_inside_bucket; eassumption.
Qed.

Lemma decision_times_inside_bucket_witness :
  ∃ lo hi,
    bucket_bounds (buckets two_bucket_algo) !! 1%nat = Some lo
    ∧ bucket_bounds (buckets two_bucket_algo) !! (1 + 1)%nat = Some hi
    ∧ (lo < 10500000 < hi)%Z.
Proof.
  apply (decision_times_inside_bucket 5 (λ _, 0%Z) midpoint_placement 0
           two_bucket_order two_bucket_algo 1 [10500000%Z] 10500000).
  - apply two_bucket_algo_built.
  - intros calls n q Hq. apply list_elem_of_singleton in Hq as ->.
    split; vm_compute; discriminate.
  - exact I.
  - reflexivity.
  - apply list_elem_of_singleton. reflexivity.
Defined.

(** ** The first step of an episode *)

Lemma infer_volume_from_action_Ok (env : BaseEnv) (action : Q) (row row_default : list Q)
    (cur default_volume remaining : Q) :
  let rl := rl_algo (broker env) in
  let bmk := benchmark_algo (broker env) in
  volumes_per_trade rl !! bucket_idx rl = Some row →
  row !! order_idx rl = Some cur →
  volumes_per_trade_default bmk !! bucket_idx rl = Some row_default →
  row_default !! order_idx rl = Some default_volume →
  bucket_vol_remaining rl !! bucket_idx rl = Some remaining →
  ∃ v, infer_volume_from_action env action = Ok v.
Proof.
  intros rl bmk Hrow Hcur Hrowd Hdef Hrem. unfold infer_volume_from_action, py_index.
  fold rl bmk. rewrite Hrow. cbn [mbind result_bind]. rewrite Hcur.
  cbn [mbind result_bind]. rewrite Hrowd. cbn [mbind result_bind]. rewrite Hdef.
  cbn [mbind result_bind].
  assert (0 < 10 ^ (- exponent (tick_size bmk))) as Hpos
    by (apply Qpower_0_lt; reflexivity).
  rewrite py_truediv_ok by lra. cbn [mbind result_bind]. rewrite Hrem.
  cbn [mbind result_bind]. destruct (Qltb _ _); eauto.
Qed.

(** X16.  The first step of an episode of the environment with the three
    discrete actions: with a benchmark schedule built by its constructor, in
    whatever state the episode has brought it, and the adaptive schedule
    built from it, its event cursor anywhere, every action 0, 1 or 2 is
    converted to a factor between 0.8 and 1.2, and the statements of [step]
    that convert the action, infer the volume and write it return.  The
    volume written into the first cell of the adaptive schedule is at most
    the factor times the benchmark's first slice and at most the volume of
    the first bucket; the rest of the table stays zero. *)
Theorem first_step_volume (fuel : nat) (randint : nat → Z)
    (bucket_placement_func : nat → nat → placement_sample) (e : Z)
    (p : OrderParams) (bmk : ExecutionAlgo) (calls : list Call) (i : nat)
    (env : BaseEnv) (action : Z) :
  TWAPAlgo_init fuel randint bucket_placement_func e p = Ok bmk →
  benchmark_algo (broker env) = foldl after_call bmk calls →
  rl_algo (broker env) = set_event_idx i (RLAlgo_init bmk) →
  (0 ≤ action ≤ 2)%Z →
  ∃ factor slice bucket_volume vol_to_trade rl,
    discrete_convert_action action = Ok factor
    ∧ 8 # 10 <= factor ∧ factor <= 12 # 10
    ∧ (volumes_per_trade_default (benchmark_algo (broker env)) !! 0%nat)
        ≫= (λ row, row !! 0%nat) = Some slice
    ∧ bucket_volumes (benchmark_algo (broker env)) !! 0%nat = Some bucket_volume
    ∧ step_volume discrete_convert_action env action = Ok (vol_to_trade, rl)
    ∧ vol_to_trade <= factor * slice
    ∧ vol_to_trade <= bucket_volume
    ∧ (volumes_per_trade rl !! 0%nat) ≫= (λ row, row !! 0%nat) = Some vol_to_trade
    ∧ ∀ i j cell, (i, j) ≠ (0%nat, 0%nat) →
        (volumes_per_trade rl !! i) ≫= (λ row, row !! j) = Some cell → cell = 0.
Proof.
  intros Hinit Hstate Hrl Haction.
  pose proof (TWAPAlgo_init_inv _ _ _ _ _ _ Hinit) as Hinv. cbv zeta in Hinv.
  destruct Hinv as (b & draws & bv & ex & ev & c & sv & Hb & Hbv & _ & Hs & Hsv
                    & _ & Hbmk).
  assert (∃ factor, discrete_convert_action action = Ok factor
                    ∧ 8 # 10 <= factor ∧ factor <= 12 # 10) as (factor & Hf & Hf1 & Hf2).
  { unfold discrete_convert_action.
    destruct (Z.eqb_spec action 0); [eexists; split; [reflexivity|split; vm_compute; discriminate]|].
    destruct (Z.eqb_spec action 1); [eexists; split; [reflexivity|split; vm_compute; discriminate]|].
    destruct (Z.eqb_spec action 2); [eexists; split; [reflexivity|split; vm_compute; discriminate]|].
    lia. }
  pose proof Hsv as Hshape. unfold _split_volume_within_buckets in Hshape.
  apply split_within_shape in Hshape as (Hlen & Hrows & Hslices).
  rewrite length_seq in Hlen.
  apply split_volume_across_buckets_inv in Hbv
    as (b_first & b_prev & b_last & m & rest & _ & _ & _ & _ & _ & _ & _ & Hrest & Hbveq).
  apply split_across_buckets_Ok_inv in Hrest as [Hrestlen Hn1].
  assert (seq 0 (n_buckets b) ≠ []) as Hne
    by (destruct (n_buckets b); [lia|discriminate]).
  specialize (Hslices Hne).
  destruct sv as [|row0 sv']; [cbn [length] in Hlen; lia|].
  apply Forall_cons in Hrows as [Hrow0 Hrows].
  destruct row0 as [|slice row0']; [cbn [length] in Hrow0; lia|].
  destruct bv as [|bv0 bv'].
  { destruct rest; discriminate. }
  pose proof (after_calls_same bmk calls) as Hsame. rewrite <- Hstate in Hsame.
  destruct Hsame as (_ & _ & _ & Htick & _ & Hsbv & _ & _ & Hsdef & _).
  set (state := benchmark_algo (broker env)) in *.
  assert (volumes_per_trade_default state = (slice :: row0') :: sv') as Hdef
    by (rewrite Hsdef, Hbmk; reflexivity).
  assert (bucket_volumes state = bv0 :: bv') as Hbvs
    by (rewrite Hsbv, Hbmk; reflexivity).
  assert (volumes_per_trade (rl_algo (broker env))
          = map (λ orders, map (λ _, 0) orders) ((slice :: row0') :: sv')) as Hrlvpt.
  { rewrite Hrl, Hbmk. unfold RLAlgo_init. cbn [volumes_per_trade set_event_idx
      volumes_per_trade_default]. rewrite firstn_all. reflexivity. }
  assert (bucket_idx (rl_algo (broker env)) = 0%nat) as Hbi by (rewrite Hrl; reflexivity).
  assert (order_idx (rl_algo (broker env)) = 0%nat) as Hoi by (rewrite Hrl; reflexivity).
  assert (bucket_vol_remaining (rl_algo (broker env)) = bv0 :: bv') as Hrem
    by (rewrite Hrl, Hbmk; reflexivity).
  destruct (infer_volume_from_action_Ok env factor (0 :: map (λ _, 0) row0')
              (slice :: row0') 0 slice bv0) as [v Hv].
  { rewrite Hrlvpt, Hbi. reflexivity. }
  { rewrite Hoi. reflexivity. }
  { fold state. rewrite Hdef, Hbi. reflexivity. }
  { rewrite Hoi. reflexivity. }
  { rewrite Hrem, Hbi. reflexivity. }
  pose proof (infer_volume_from_action_inv env factor v Hv) as Hinvv. cbv zeta in Hinvv.
  destruct Hinvv as (row & cur & rowd & d & remaining & Hr1 & Hr2 & Hr3 & Hr4 & Hr5
                     & Hle & _ & _ & Hveq & Hvrem).
  fold state in Hr3.
  rewrite Hrlvpt, Hbi in Hr1. injection Hr1 as <-.
  rewrite Hoi in Hr2. injection Hr2 as <-.
  rewrite Hdef, Hbi in Hr3. injection Hr3 as <-.
  rewrite Hoi in Hr4. injection Hr4 as <-.
  rewrite Hrem, Hbi in Hr5. injection Hr5 as <-.
  exists factor, slice, bv0, v. eexists.
  split; [exact Hf|]. split; [exact Hf1|]. split; [exact Hf2|].
  split; [rewrite Hdef; reflexivity|]. split; [rewrite Hbvs; reflexivity|].
  split.
  { unfold step_volume. rewrite Hf. cbn [mbind result_bind]. rewrite Hv.
    cbn [mbind result_bind]. unfold write_cell, py_index.
    rewrite Hrlvpt, Hbi, Hoi. reflexivity. }
  cbn [volumes_per_trade].
  split.
  { destruct (Qltb bv0 _) eqn:Ec in Hveq; rewrite Hveq.
    - apply Qltb_lt in Ec. lra.
    - lra. }
  split; [exact Hvrem|]. split; [reflexivity|].
  intros i' j cell Hij Hcell.
  destruct i' as [|i'].
  - destruct j as [|j]; [congruence|].
    change (map (λ _ : Q, 0) row0' !! j = Some cell) in Hcell.
    rewrite list_lookup_fmap in Hcell. destruct (row0' !! j); [|discriminate].
    injection Hcell as <-. reflexivity.
  - change ((map (λ orders : list Q, map (λ _ : Q, 0) orders) sv' !! i')
              ≫= (λ row, row !! j) = Some cell) in Hcell.
    rewrite list_lookup_fmap in Hcell.
    destruct (sv' !! i') as [r|]; [|discriminate].
    change (map (λ _ : Q, 0) r !! j = Some cell) in Hcell.
    rewrite list_lookup_fmap in Hcell. destruct (r !! j); [|discriminate].
    injection Hcell as <-. reflexivity.
Qed.

Lemma first_step_volume_witness :
  ∃ factor slice bucket_volume vol_to_trade rl,
    discrete_convert_action 2%Z = Ok factor
    ∧ 8 # 10 <= factor ∧ factor <= 12 # 10
    ∧ (volumes_per_trade_default (benchmark_algo (broker (env_with 1 (Ok (100, 99)))))
         !! 0%nat) ≫= (λ row, row !! 0%nat) = Some slice
    ∧ bucket_volumes (benchmark_algo (broker (env_with 1 (Ok (100, 99))))) !! 0%nat
      = Some bucket_volume
    ∧ step_volume discrete_convert_action (env_with 1 (Ok (100, 99))) 2%Z
      = Ok (vol_to_trade, rl)
    ∧ vol_to_trade <= factor * slice
    ∧ vol_to_trade <= bucket_volume
    ∧ (volumes_per_trade rl !! 0%nat) ≫= (λ row, row !! 0%nat) = Some vol_to_trade
    ∧ ∀ i j cell, (i, j) ≠ (0%nat, 0%nat) →
        (volumes_per_trade rl !! i) ≫= (λ row, row !! j) = Some cell → cell = 0.
Proof.
  apply (first_step_volume 5 (λ _, 0%Z) midpoint_placement 0 two_bucket_order
           two_bucket_algo [] 0 (env_with 1 (Ok (100, 99))) 2).
  - apply two_bucket_algo_built.
  - reflexivity.
  - reflexivity.
  - lia.
Defined.

(** ** The volume and the slices of an episode *)

Lemma validate_config_Ok_inv (c : Config) :
  _validate_config c = Ok tt →
  (lob_depth c ≤ 20 ∧ vol_low c ≤ vol_high c ∧ no_slices_low c ≤ no_slices_high c
   ∧ 0 ≤ rand_bucket_low c ∧ rand_bucket_low c ≤ rand_bucket_high c
   ∧ rand_bucket_high c ≤ 100
   ∧ hour_low c ≤ hour_high c ∧ minute_low c ≤ minute_high c
   ∧ second_low c ≤ second_high c)%Z.
Proof.
  unfold _validate_config. intros H.
  repeat match type of H with
         | (if (?x <? ?y)%Z || _ then _ else _) = _ =>
             destruct (Z.ltb_spec x y); cbn [orb] in H; [discriminate|]
         | (if (?x <? ?y)%Z then _ else _) = _ =>
             destruct (Z.ltb_spec x y); [discriminate|]
         end.
  lia.
Qed.

Lemma foldr_min_spec (x : Z) (l : list Z) :
  foldr Z.min x l ∈ x :: l ∧ ∀ y, y ∈ x :: l → (foldr Z.min x l ≤ y)%Z.
Proof.
  induction l as [|z l [IHin IHle]]; cbn [foldr].
  - split; [left|]. intros y Hy. apply list_elem_of_singleton in Hy as ->. lia.
  - split.
    + destruct (Z.min_spec z (foldr Z.min x l)) as [[_ ->]|[_ ->]].
      * right. left.
      * apply elem_of_cons in IHin as [->|Hin]; [left|right; right; exact Hin].
    + intros y Hy.
      assert (y = z ∨ y ∈ x :: l) as [->|Hy'].
      { apply elem_of_cons in Hy as [->|Hy]; [right; left|].
        apply elem_of_cons in Hy as [->|Hy]; [left; reflexivity|right; right; exact Hy]. }
      * lia.
      * specialize (IHle y Hy'). lia.
Qed.

Lemma foldr_max_spec (x : Z) (l : list Z) :
  foldr Z.max x l ∈ x :: l ∧ ∀ y, y ∈ x :: l → (y ≤ foldr Z.max x l)%Z.
Proof.
  induction l as [|z l [IHin IHle]]; cbn [foldr].
  - split; [left|]. intros y Hy. apply list_elem_of_singleton in Hy as ->. lia.
  - split.
    + destruct (Z.max_spec z (foldr Z.max x l)) as [[_ ->]|[_ ->]].
      * apply elem_of_cons in IHin as [->|Hin]; [left|right; right; exact Hin].
      * right. left.
    + intros y Hy.
      assert (y = z ∨ y ∈ x :: l) as [->|Hy'].
      { apply elem_of_cons in Hy as [->|Hy]; [right; left|].
        apply elem_of_cons in Hy as [->|Hy]; [left; reflexivity|right; right; exact Hy]. }
      * lia.
      * specialize (IHle y Hy'). lia.
Qed.

Lemma interpolate_between (low high : Z) (perc : Q) :
  (low ≤ high)%Z → 0 <= perc → perc <= 1 →
  (low ≤ round_half_even (inject_Z low + perc * inject_Z (high - low)) ≤ high)%Z.
Proof.
  intros Hlh H0 H1.
  assert (0 <= inject_Z (high - low)) as Hd.
  { change 0 with (inject_Z 0). rewrite <- Zle_Qle. lia. }
  assert (inject_Z high == inject_Z low + inject_Z (high - low)) as Eh.
  { rewrite <- inject_Z_plus. apply inject_Z_injective. lia. }
  apply round_half_even_between.
  - assert (0 <= perc * inject_Z (high - low)) by (apply Qmult_le_0_compat; assumption).
    lra.
  - assert (perc * inject_Z (high - low) <= 1 * inject_Z (high - low))
      by (apply Qmult_le_compat_r; assumption).
    lra.
Qed.

(** X17.  For a validated configuration and a non-empty list of execution
    times, [_reset_volume_and_slices] raises ZeroDivisionError when all the
    execution times are equal; otherwise it returns one of the execution
    times, a volume between [vol_low] and [vol_high] and a number of slices
    between [no_slices_low] and [no_slices_high]: the low ends for the
    shortest execution time, the high ends for the longest. *)
Theorem reset_volume_and_slices_range (c : Config) (exec_times : list Z) (draw : nat) :
  _validate_config c = Ok tt →
  exec_times ≠ [] →
  ((∀ x y, x ∈ exec_times → y ∈ exec_times → x = y)
   ∧ _reset_volume_and_slices c exec_times draw = Raise ZeroDivisionError)
  ∨ (∃ exec_time volume no_of_slices,
       _reset_volume_and_slices c exec_times draw = Ok (exec_time, volume, no_of_slices)
       ∧ exec_time ∈ exec_times
       ∧ (vol_low c ≤ volume ≤ vol_high c)%Z
       ∧ (no_slices_low c ≤ no_of_slices ≤ no_slices_high c)%Z
       ∧ ((∀ x, x ∈ exec_times → (exec_time ≤ x)%Z) →
          volume = vol_low c ∧ no_of_slices = no_slices_low c)
       ∧ ((∀ x, x ∈ exec_times → (x ≤ exec_time)%Z) →
          volume = vol_high c ∧ no_of_slices = no_slices_high c)).
Proof.
  intros Hvalid Hne.
  apply validate_config_Ok_inv in Hvalid as (_ & Hvol & Hslices & _).
  destruct exec_times as [|x0 l]; [contradiction|].
  pose proof (foldr_min_spec x0 l) as [Hlo_in Hlo].
  pose proof (foldr_max_spec x0 l) as [Hhi_in Hhi].
  set (lo := foldr Z.min x0 l) in *. set (hi := foldr Z.max x0 l) in *.
  assert (∃ exec_time, random_choice draw (x0 :: l) = Ok exec_time
                       ∧ exec_time ∈ x0 :: l) as (t & Ht & Htin).
  { unfold random_choice, py_index.
    destruct (lookup_lt_is_Some_2 (x0 :: l) (draw mod length (x0 :: l))) as [t Ht].
    { apply Nat.mod_upper_bound. cbn [length]. lia. }
    exists t. rewrite Ht. split; [reflexivity|].
    eapply list_elem_of_lookup_2. exact Ht. }
  unfold _reset_volume_and_slices. rewrite Ht. cbn [mbind result_bind py_min py_max].
  fold lo hi.
  destruct (decide (hi = lo)) as [Heq|Hneq].
  - left. split.
    + intros x y Hx Hy.
      pose proof (Hlo x Hx). pose proof (Hhi x Hx).
      pose proof (Hlo y Hy). pose proof (Hhi y Hy). lia.
    + unfold py_truediv. rewrite Heq, Z.sub_diag. reflexivity.
  - right. pose proof (Hlo hi Hhi_in) as Hlohi.
    pose proof (Hlo t Htin) as Hlot. pose proof (Hhi t Htin) as Hthi.
    assert (0 < inject_Z (hi - lo)) as Hpos.
    { change 0 with (inject_Z 0). rewrite <- Zlt_Qlt. lia. }
    rewrite py_truediv_ok by lra. cbn [mbind result_bind].
    set (perc := inject_Z (t - lo) / inject_Z (hi - lo)).
    assert (0 <= perc) as Hp0.
    { apply Qle_shift_div_l; [exact Hpos|]. rewrite Qmult_0_l.
      change 0 with (inject_Z 0). rewrite <- Zle_Qle. lia. }
    assert (perc <= 1) as Hp1.
    { apply Qle_shift_div_r; [exact Hpos|]. rewrite Qmult_1_l.
      rewrite <- Zle_Qle. lia. }
    eexists _, _, _. split; [reflexivity|]. split; [exact Htin|].
    split; [apply interpolate_between; assumption|].
    split; [apply interpolate_between; assumption|].
    split.
    + intros Hmin. assert (t = lo) as -> by (specialize (Hmin lo Hlo_in); lia).
      assert (perc == 0) as E by (subst perc; rewrite Z.sub_diag; reflexivity).
      split.
      * rewrite (round_half_even_comp _ (inject_Z (vol_low c))) by (rewrite E; ring).
        pose proof (round_half_even_between (vol_low c) (vol_low c)
                      (inject_Z (vol_low c)) ltac:(lra) ltac:(lra)). lia.
      * rewrite (round_half_even_comp _ (inject_Z (no_slices_low c)))
          by (rewrite E; ring).
        pose proof (round_half_even_between (no_slices_low c) (no_slices_low c)
                      (inject_Z (no_slices_low c)) ltac:(lra) ltac:(lra)). lia.
    + intros Hmax. assert (t = hi) as -> by (specialize (Hmax hi Hhi_in); lia).
      assert (perc == 1) as E by (subst perc; field; lra).
      split.
      * rewrite (round_half_even_comp _ (inject_Z (vol_high c))).
        -- pose proof (round_half_even_between (vol_high c) (vol_high c)
                         (inject_Z (vol_high c)) ltac:(lra) ltac:(lra)). lia.
        -- rewrite E, Qmult_1_l, <- inject_Z_plus. apply inject_Z_injective. lia.
      * rewrite (round_half_even_comp _ (inject_Z (no_slices_high c))).
        -- pose proof (round_half_even_between (no_slices_high c) (no_slices_high c)
                         (inject_Z (no_slices_high c)) ltac:(lra) ltac:(lra)). lia.
        -- rewrite E, Qmult_1_l, <- inject_Z_plus. apply inject_Z_injective. lia.
Qed.

Lemma reset_volume_and_slices_range_witness :
  ((∀ x y, x ∈ [5; 10; 15; 30; 60; 120; 240]%Z → y ∈ [5; 10; 15; 30; 60; 120; 240]%Z →
           x = y)
   ∧ _reset_volume_and_slices full_jitter_config [5; 10; 15; 30; 60; 120; 240]%Z 8
     = Raise ZeroDivisionError)
  ∨ (∃ exec_time volume no_of_slices,
       _reset_volume_and_slices full_jitter_config [5; 10; 15; 30; 60; 120; 240]%Z 8
       = Ok (exec_time, volume, no_of_slices)
       ∧ exec_time ∈ [5; 10; 15; 30; 60; 120; 240]%Z
       ∧ (vol_low full_jitter_config ≤ volume ≤ vol_high full_jitter_config)%Z
       ∧ (no_slices_low full_jitter_config ≤ no_of_slices
          ≤ no_slices_high full_jitter_config)%Z
       ∧ ((∀ x, x ∈ [5; 10; 15; 30; 60; 120; 240]%Z → (exec_time ≤ x)%Z) →
          volume = vol_low full_jitter_config
          ∧ no_of_slices = no_slices_low full_jitter_config)
       ∧ ((∀ x, x ∈ [5; 10; 15; 30; 60; 120; 240]%Z → (x ≤ exec_time)%Z) →
          volume = vol_high full_jitter_config
          ∧ no_of_slices = no_slices_high full_jitter_config)).
Proof.
  apply (reset_volume_and_slices_range full_jitter_config
           [5; 10; 15; 30; 60; 120; 240]%Z 8).
  - reflexivity.
  - discriminate.
Defined.

(** X18.  With a jitter width below 100 percent (or none) and draws within
    the width, the constructor of the buckets returns for every order of
    positive duration, given fuel beyond the duration in microseconds, and
    whatever it returns has strictly increasing bounds that start at
    [start_time] and end at [end_time], one more than there are buckets, and
    a bucket width from the table, between 7 and 1200 seconds. *)
Theorem Bucket_init_jitter_below_100 (randint : nat → Z) (calls : nat)
    (start_time end_time : Z) (rand_width : option Z) :
  (start_time < end_time)%Z →
  jitter_below_100 rand_width randint →
  (∀ fuel, (Z.to_nat (end_time - start_time) < fuel)%nat →
     ∃ b calls', Bucket_init fuel randint calls start_time end_time rand_width
                 = Ok (b, calls'))
  ∧ (∀ fuel b calls',
       Bucket_init fuel randint calls start_time end_time rand_width = Ok (b, calls') →
       StronglySorted Z.lt (bucket_bounds b)
       ∧ head (bucket_bounds b) = Some start_time
       ∧ last (bucket_bounds b) = Some end_time
       ∧ (1 ≤ n_buckets b)%nat
       ∧ length (bucket_bounds b) = (n_buckets b + 1)%nat
       ∧ 7 <= bucket_width b ∧ bucket_width b <= 1200).
Proof.
  intros Hlt Hjitter.
  destruct (Bucket_init_increasing randint calls start_time end_time rand_width
              Hlt Hjitter) as [Hreturns Hsorted].
  split; [exact Hreturns|].
  intros fuel b calls' Hb.
  destruct (Hsorted fuel b calls' Hb) as (Hs & Hn & Hhead & Hlast).
  pose proof (Bucket_init_bounds _ _ _ _ _ _ _ _ Hb) as (_ & _ & Hw & _ & Hlen & _).
  split; [exact Hs|]. split; [exact Hhead|]. split; [exact Hlast|].
  split; [exact Hn|]. split; [lia|].
  split; [eapply bucket_size_ge_7; exact Hw|].
  apply bucket_size_in_table in Hw as [key Hkey].
  unfold BUCKET_SIZES_IN_SECS in Hkey. apply elem_of_list_to_map_2 in Hkey.
  repeat (apply elem_of_cons in Hkey as [[= _ ->]|Hkey]; [vm_compute; discriminate|]).
  apply elem_of_nil in Hkey. contradiction.
Qed.

Lemma Bucket_init_jitter_below_100_witness :
  (∀ fuel, (Z.to_nat (14000000 - 0) < fuel)%nat →
     ∃ b calls', Bucket_init fuel (λ _, 0%Z) 0 0 14000000 None = Ok (b, calls'))
  ∧ (∀ fuel b calls',
       Bucket_init fuel (λ _, 0%Z) 0 0 14000000 None = Ok (b, calls') →
       StronglySorted Z.lt (bucket_bounds b)
       ∧ head (bucket_bounds b) = Some 0%Z
       ∧ last (bucket_bounds b) = Some 14000000%Z
       ∧ (1 ≤ n_buckets b)%nat
       ∧ length (bucket_bounds b) = (n_buckets b + 1)%nat
       ∧ 7 <= bucket_width b ∧ bucket_width b <= 1200).
Proof.
  apply (Bucket_init_jitter_below_100 (λ _, 0%Z) 0 0 14000000 None).
  - lia.
  - exact I.
Defined.

(** ** The ends of the timeline *)

Lemma StronglySorted_lt_head_le (l : list Z) (x y : Z) :
  StronglySorted Z.lt l → head l = Some x → y ∈ l → (x ≤ y)%Z.
Proof.
  intros Hs Hh Hy. destruct l as [|z l]; [discriminate|]. injection Hh as ->.
  apply StronglySorted_inv in Hs as [_ Hall].
  apply elem_of_cons in Hy as [->|Hy]; [lia|].
  pose proof (proj1 (Forall_forall _ _) Hall y Hy). lia.
Qed.

Lemma StronglySorted_lt_last (l : list Z) (m : Z) :
  StronglySorted Z.lt l → m ∈ l → (∀ y, y ∈ l → (y ≤ m)%Z) → last l = Some m.
Proof.
  intros Hs. induction Hs as [|z l Hs IH Hall]; intros Hm Hmax.
  - apply elem_of_nil in Hm. contradiction.
  - destruct l as [|z' l'].
    + apply list_elem_of_singleton in Hm as ->. reflexivity.
    + change (last (z :: z' :: l')) with (last (z' :: l')). apply IH.
      * apply elem_of_cons in Hm as [->|Hm]; [|exact Hm].
        pose proof (proj1 (Forall_forall _ _) Hall z' ltac:(left)).
        pose proof (Hmax z' ltac:(right; left)). lia.
      * intros y Hy. apply Hmax. right. exact Hy.
Qed.

Lemma StronglySorted_lookup_le (l : list Z) (i j : nat) (x y : Z) :
  StronglySorted Z.lt l → l !! i = Some x → l !! j = Some y → (i ≤ j)%nat → (x ≤ y)%Z.
Proof.
  intros Hs Hi Hj Hij. destruct (decide (i = j)) as [->|Hne].
  - rewrite Hi in Hj. injection Hj as ->. lia.
  - pose proof (StronglySorted_lookup_lt l i j x y Hs Hi Hj ltac:(lia)). lia.
Qed.

(** X19.  When the placement function returns fractions between 0 and 1 and
    the jitter of the bounds is below 100 percent, the timeline of every
    constructed benchmark schedule begins with a decision time of the first
    bucket and ends with the end of the order, which is a bucket bound: an
    episode opens on an order placement and closes on the market order of the
    last bucket. *)
Theorem timeline_ends (fuel : nat) (randint : nat → Z)
    (bucket_placement_func : nat → nat → placement_sample) (e : Z)
    (p : OrderParams) (a : ExecutionAlgo) :
  TWAPAlgo_init fuel randint bucket_placement_func e p = Ok a →
  unit_placements bucket_placement_func →
  jitter_below_100 (p_rand_bucket_bounds_width p) randint →
  (∃ t trades, head (algo_events a) = Some t
               ∧ execution_times a !! 0%nat = Some trades ∧ t ∈ trades)
  ∧ last (algo_events a) = Some (p_end_time p)
  ∧ p_end_time p ∈ drop 1 (bucket_bounds (buckets a)).
Proof.
  intros Hinit Hunit Hjitter.
  pose proof (TWAPAlgo_init_inv _ _ _ _ _ _ Hinit) as Hinv. cbv zeta in Hinv.
  destruct Hinv as (b & draws & bv & ex & ev & calls & sv & Hb & Hbv & _ & Hs & Hsv
                    & _ & Ha).
  assert (execution_times a = ex) as Hex by (rewrite Ha; reflexivity).
  assert (algo_events a = ev) as Hev by (rewrite Ha; reflexivity).
  assert (buckets a = b) as Hbk by (rewrite Ha; reflexivity).
  assert (no_of_slices a = p_no_of_slices p) as Hns by (rewrite Ha; reflexivity).
  (* every decision time lies strictly inside its bucket *)
  assert (∀ i trades t, ex !! i = Some trades → t ∈ trades →
            ∃ lo hi, bucket_bounds b !! i = Some lo
                     ∧ bucket_bounds b !! (i + 1)%nat = Some hi
                     ∧ (lo < t < hi)%Z) as Hinside.
  { intros i trades t Hi Ht. eapply sampled_inside_bucket; eassumption. }
  pose proof (Bucket_init_Ok_lt _ _ _ _ _ _ _ _ Hb) as Hlt.
  destruct (Bucket_init_increasing randint 0 _ _ _ Hlt Hjitter) as [_ Hsorted].
  destruct (Hsorted _ _ _ Hb) as (Hbsorted & Hn1 & Hbhead & Hblast).
  pose proof (Bucket_init_bounds _ _ _ _ _ _ _ _ Hb) as (_ & _ & _ & _ & Hnlen & _).
  pose proof (sample_execution_times_events _ _ _ _ _ _ _ _ Hs) as Hevents.
  pose proof (timeline_sorted (concat ex ++ drop 1 (bucket_bounds b))) as Htl.
  rewrite <- Hevents in Htl.
  assert (∀ t, t ∈ ev ↔ (∃ trades, trades ∈ ex ∧ t ∈ trades)
                        ∨ t ∈ drop 1 (bucket_bounds b)) as Hmem.
  { intros t. rewrite Hevents, elem_of_timeline, elem_of_app, elem_of_concat.
    reflexivity. }
  (* the end of the order is the last bound *)
  assert (p_end_time p ∈ drop 1 (bucket_bounds b)) as Hend.
  { destruct (bucket_bounds b) as [|s [|s' l]] eqn:Eb; cbn [length] in Hnlen; try lia.
    cbn [drop]. change (last (s :: s' :: l)) with (last (s' :: l)) in Hblast.
    apply last_Some_elem_of. exact Hblast. }
  assert (∀ x, x ∈ bucket_bounds b → (x ≤ p_end_time p)%Z) as Hbmax.
  { intros x Hx. apply list_elem_of_lookup_1 in Hx as [i Hi].
    rewrite last_lookup in Hblast.
    eapply (StronglySorted_lookup_le _ i _ x _ Hbsorted Hi Hblast).
    apply lookup_lt_Some in Hi. lia. }
  rewrite Hex, Hev, Hbk. split; [|split; [|exact Hend]].
  - (* the first event *)
    pose proof Hsv as Hshape. unfold _split_volume_within_buckets in Hshape.
    apply split_within_shape in Hshape as (_ & _ & Hslices).
    assert (seq 0 (n_buckets b) ≠ []) as Hne
      by (destruct (n_buckets b); [lia|discriminate]).
    specialize (Hslices Hne).
    pose proof Hs as Hs'. unfold _sample_execution_times in Hs'.
    apply bind_Ok in Hs' as ([ex' c] & Hsb & Hs'). injection Hs' as -> _ _.
    apply sample_buckets_shape in Hsb as [Hexlen Hexf]; [|constructor].
    rewrite length_seq in Hexlen. cbn [length] in Hexlen.
    destruct ex as [|trades0 ex']; [cbn [length] in Hexlen; lia|].
    apply Forall_cons in Hexf as [Htr0 _].
    destruct trades0 as [|t0 trades0']; [cbn [length] in Htr0; lia|].
    destruct (Hinside 0%nat (t0 :: trades0') t0 eq_refl ltac:(left))
      as (lo0 & hi0 & Hlo0 & Hhi0 & Hin0).
    assert (t0 ∈ ev) as Ht0 by (apply Hmem; left; exists (t0 :: trades0');
                                 split; left).
    destruct ev as [|t ev']; [apply elem_of_nil in Ht0; contradiction|].
    pose proof (StronglySorted_lt_head_le _ t t0 Htl eq_refl Ht0) as Htt0.
    exists t, (t0 :: trades0'). split; [reflexivity|]. split; [reflexivity|].
    assert (t ∈ t :: ev') as Htin by left.
    apply Hmem in Htin as [(trades & Htrin & Httr)|Htb].
    + apply list_elem_of_lookup_1 in Htrin as [i Hi].
      destruct i as [|i]; [injection Hi as <-; exact Httr|exfalso].
      destruct (Hinside (S i) trades t Hi Httr) as (lo & hi & Hlo & Hhi & Hin).
      pose proof (StronglySorted_lookup_le _ 1 (S i) hi0 lo Hbsorted Hhi0 Hlo
                    ltac:(lia)). lia.
    + exfalso. apply list_elem_of_lookup_1 in Htb as [i Hi].
      rewrite lookup_drop in Hi.
      pose proof (StronglySorted_lookup_le _ 1 (1 + i) hi0 t Hbsorted Hhi0 Hi
                    ltac:(lia)). lia.
  - (* the last event *)
    apply StronglySorted_lt_last; [exact Htl| |].
    + apply Hmem. right. exact Hend.
    + intros y Hy. apply Hmem in Hy as [(trades & Htrin & Hytr)|Hyb].
      * apply list_elem_of_lookup_1 in Htrin as [i Hi].
        destruct (Hinside i trades y Hi Hytr) as (lo & hi & Hlo & Hhi & Hin).
        pose proof (Hbmax hi ltac:(eapply list_elem_of_lookup_2; exact Hhi)). lia.
      * apply Hbmax. apply list_elem_of_lookup_1 in Hyb as [i Hi].
        rewrite lookup_drop in Hi. eapply list_elem_of_lookup_2. exact Hi.
Qed.

Lemma timeline_ends_witness :
  (∃ t trades, head (algo_events two_bucket_algo) = Some t
               ∧ execution_times two_bucket_algo !! 0%nat = Some trades ∧ t ∈ trades)
  ∧ last (algo_events two_bucket_algo) = Some (p_end_time two_bucket_order)
  ∧ p_end_time two_bucket_order ∈ drop 1 (bucket_bounds (buckets two_bucket_algo)).
Proof.
  apply (timeline_ends 5 (λ _, 0%Z) midpoint_placement 0 two_bucket_order).
  - apply two_bucket_algo_built.
  - intros calls n q Hq. apply list_elem_of_singleton in Hq as ->.
    split; vm_compute; discriminate.
  - exact I.
Defined.

(** ** The sign of the rewards *)

Lemma ratio_sign (x y : Q) :
  0 < y → (0 < x / y - 1 → y < x) ∧ (x / y - 1 < 0 → x < y).
Proof.
  intros Hy. assert (x / y * y == x) as E by (field; lra).
  split; intros H.
  - assert (1 * y < x / y * y) by (apply Qmult_lt_compat_r; lra). lra.
  - assert (x / y * y < 1 * y) by (apply Qmult_lt_compat_r; lra). lra.
Qed.

(** X20.  When the broker reports positive average prices for the window, a
    reward of the percentage or dollar variants (per step, per bucket, per
    episode) is positive only if the adaptive schedule traded at a better
    average price than the benchmark, lower when buying and higher when
    selling, and negative only if it traded at a worse one; each of these
    variants returns a reward. *)
Theorem rewards_follow_prices (policy : RewardPolicy) (env : BaseEnv)
    (vwap_bmk vwap_rl : Q) :
  (∀ s t, calc_vwap_from_logs (broker env) s t = Ok (vwap_bmk, vwap_rl)) →
  0 < vwap_bmk → 0 < vwap_rl →
  policy ≠ PerStepSign → policy ≠ PerBucketDollarVolume →
  ∃ reward,
    reward_func policy env = Ok reward
    ∧ (0 < reward → beats_benchmark env vwap_bmk vwap_rl)
    ∧ (reward < 0 → trails_benchmark env vwap_bmk vwap_rl).
Proof.
  intros Hvwap Hb Hr Hp1 Hp2.
  pose proof (ratio_sign vwap_bmk vwap_rl Hr) as [Hbuy1 Hbuy2].
  pose proof (ratio_sign vwap_rl vwap_bmk Hb) as [Hsell1 Hsell2].
  assert (∃ reward,
            ('(vwap_bmk, vwap_rl) ← Ok (vwap_bmk, vwap_rl);
             if (trade_dir env =? 1)%Z then
               r ← py_truediv vwap_bmk vwap_rl; Ok (r - 1)
             else
               r ← py_truediv vwap_rl vwap_bmk; Ok (r - 1)) = Ok reward
            ∧ (0 < reward → beats_benchmark env vwap_bmk vwap_rl)
            ∧ (reward < 0 → trails_benchmark env vwap_bmk vwap_rl)) as Hpercent.
  { cbn [mbind result_bind]. unfold beats_benchmark, trails_benchmark.
    destruct (trade_dir env =? 1)%Z; rewrite py_truediv_ok by lra;
      cbn [mbind result_bind]; eexists; (split; [reflexivity|]); split; assumption. }
  assert (∃ reward,
            ('(vwap_bmk, vwap_rl) ← Ok (vwap_bmk, vwap_rl);
             if (trade_dir env =? 1)%Z then Ok (vwap_bmk - vwap_rl)
             else Ok (vwap_rl - vwap_bmk)) = Ok reward
            ∧ (0 < reward → beats_benchmark env vwap_bmk vwap_rl)
            ∧ (reward < 0 → trails_benchmark env vwap_bmk vwap_rl)) as Hdollar.
  { cbn [mbind result_bind]. unfold beats_benchmark, trails_benchmark.
    destruct (trade_dir env =? 1)%Z; eexists; (split; [reflexivity|]);
      split; intros H; lra. }
  assert (∃ reward : Q,
            Ok 0 = Ok reward
            ∧ (0 < reward → beats_benchmark env vwap_bmk vwap_rl)
            ∧ (reward < 0 → trails_benchmark env vwap_bmk vwap_rl)) as Hzero.
  { exists 0. split; [reflexivity|]. split; intros H; lra. }
  destruct Hpercent as (rp & Hrp & Hrp'). destruct Hdollar as (rd & Hrd & Hrd').
  destruct policy; try contradiction; cbn [reward_func].
  - unfold RewardAtStepEnv.reward_func, step_window. rewrite Hvwap, Hrp.
    exists rp. split; [reflexivity|exact Hrp'].
  - unfold RewardAtBucketEnv.reward_func, bucket_window. rewrite Hvwap, Hrp.
    destruct (bucket_time env =? bucket_time_prev env)%Z; [exact Hzero|]. exists rp. split; [reflexivity|exact Hrp'].
  - unfold RewardAtEpisodeEnv.reward_func. rewrite Hvwap, Hrp.
    destruct (done env); [|exact Hzero]. exists rp. split; [reflexivity|exact Hrp'].
  - unfold NarrowTradeLimitEnvContinuous.reward_func, bucket_window. rewrite Hvwap, Hrd.
    destruct (bucket_time env =? bucket_time_prev env)%Z; [exact Hzero|]. exists rd. split; [reflexivity|exact Hrd'].
  - unfold DollarRewardAtStepEnv.reward_func, step_window. rewrite Hvwap, Hrd.
    exists rd. split; [reflexivity|exact Hrd'].
Qed.

Lemma rewards_follow_prices_witness :
  ∃ reward,
    reward_func PerStepPercent (env_with 1 (Ok (100, 99))) = Ok reward
    ∧ (0 < reward → beats_benchmark (env_with 1 (Ok (100, 99))) 100 99)
    ∧ (reward < 0 → trails_benchmark (env_with 1 (Ok (100, 99))) 100 99).
Proof.
  apply (rewards_follow_prices PerStepPercent (env_with 1 (Ok (100, 99))) 100 99).
  - reflexivity.
  - reflexivity.
  - reflexivity.
  - discriminate.
  - discriminate.
Defined.

(** ** The helpers of the observation *)

(** X21.  For a depth of at least 0, [lob_to_numpy] returns as many volumes
    as prices, bids first: the [depth] highest bids and the [depth] lowest
    asks, or all there are on a side with fewer levels; with depth 0 it
    returns every bid and no ask.  A snapshot fills its [4 * depth] numbers
    exactly when both sides hold at least [depth] levels.  Normalising by
    zero or by nothing leaves the numbers as they are. *)
Theorem lob_to_numpy_shape (lob : LOBSnapshot) (depth : Z)
    (norm_price norm_vol_bid norm_vol_ask : option Q) :
  (0 ≤ depth)%Z →
  let n_bids := length (prices (bids lob)) in
  let n_asks := length (prices (asks lob)) in
  let out := lob_to_numpy lob depth norm_price norm_vol_bid norm_vol_ask in
  length out.1
  = ((if (depth =? 0)%Z then n_bids else Nat.min (Z.to_nat depth) n_bids)
     + Nat.min (Z.to_nat depth) n_asks)%nat
  ∧ length out.2 = length out.1
  ∧ ((1 ≤ depth)%Z →
     (length out.1 + length out.2 = 4 * Z.to_nat depth)%nat
     ↔ (Z.to_nat depth ≤ n_bids)%nat ∧ (Z.to_nat depth ≤ n_asks)%nat)
  ∧ (truthy norm_price = false →
     out.1 = slice_last depth (prices (bids lob))
             ++ slice_first depth (prices (asks lob))).
Proof.
  intros Hdepth n_bids n_asks out.
  assert (length (slice_last depth (prices (bids lob)))
          = if (depth =? 0)%Z then n_bids else Nat.min (Z.to_nat depth) n_bids) as Hb.
  { unfold slice_last. destruct (Z.eqb_spec depth 0); [reflexivity|].
    destruct (Z.ltb_spec 0 depth); [|lia]. rewrite length_drop. subst n_bids. lia. }
  assert (length (slice_first depth (prices (asks lob)))
          = Nat.min (Z.to_nat depth) n_asks) as Ha.
  { unfold slice_first. destruct (Z.leb_spec 0 depth); [|lia].
    rewrite length_take. subst n_asks. lia. }
  assert (length out.1
          = (length (slice_last depth (prices (bids lob)))
             + length (slice_first depth (prices (asks lob))))%nat) as H1.
  { subst out. unfold lob_to_numpy. cbn [fst].
    destruct (truthy norm_price); rewrite ?length_map, length_app; reflexivity. }
  assert (length out.2
          = (length (slice_last depth (prices (bids lob)))
             + length (slice_first depth (prices (asks lob))))%nat) as H2.
  { subst out. unfold lob_to_numpy. cbn [snd].
    destruct (truthy norm_vol_bid && truthy norm_vol_ask);
      rewrite length_app, ?length_map; reflexivity. }
  split; [rewrite H1, Hb, Ha; reflexivity|]. split; [rewrite H1, H2; reflexivity|].
  split.
  - intros Hpos. rewrite H2, H1, Hb, Ha.
    destruct (Z.eqb_spec depth 0); [lia|]. lia.
  - intros Hnorm. subst out. unfold lob_to_numpy. cbn [fst]. rewrite Hnorm. reflexivity.
Qed.

Lemma lob_to_numpy_shape_witness :
  let lob := {| bids := {| prices := [97; 98; 99]; get_price_list_volume := λ _, 5 |};
                asks := {| prices := [101; 102]; get_price_list_volume := λ _, 4 |} |} in
  let n_bids := length (prices (bids lob)) in
  let n_asks := length (prices (asks lob)) in
  let out := lob_to_numpy lob 0 None None None in
  length out.1
  = ((if (0 =? 0)%Z then n_bids else Nat.min (Z.to_nat 0) n_bids)
     + Nat.min (Z.to_nat 0) n_asks)%nat
  ∧ length out.2 = length out.1
  ∧ ((1 ≤ 0)%Z →
     (length out.1 + length out.2 = 4 * Z.to_nat 0)%nat
     ↔ (Z.to_nat 0 ≤ n_bids)%nat ∧ (Z.to_nat 0 ≤ n_asks)%nat)
  ∧ (truthy None = false →
     out.1 = slice_last 0 (prices (bids lob)) ++ slice_first 0 (prices (asks lob))).
Proof.
  intros lob.
  apply (lob_to_numpy_shape lob 0 None None None). lia.
Defined.

Lemma foldr_np_minimum_spec (x : Q) (l : list Q) :
  foldr np_minimum x l ∈ x :: l ∧ ∀ y, y ∈ x :: l → foldr np_minimum x l <= y.
Proof.
  induction l as [|z l [IHin IHle]]; cbn [foldr].
  - split; [left|]. intros y Hy. apply list_elem_of_singleton in Hy as ->. lra.
  - assert (∀ y, y ∈ x :: z :: l → y = z ∨ y ∈ x :: l) as Hcase.
    { intros y Hy. apply elem_of_cons in Hy as [->|Hy]; [right; left|].
      apply elem_of_cons in Hy as [->|Hy]; [left; reflexivity|right; right; exact Hy]. }
    unfold np_minimum at 1 3. destruct (Qltb (foldr np_minimum x l) z) eqn:E.
    + apply Qltb_lt in E. split.
      * apply elem_of_cons in IHin as [->|Hin]; [left|right; right; exact Hin].
      * intros y Hy. apply Hcase in Hy as [->|Hy]; [lra|apply IHle; exact Hy].
    + apply Qltb_ge in E. split; [right; left|].
      intros y Hy. apply Hcase in Hy as [->|Hy]; [lra|].
      specialize (IHle y Hy). lra.
Qed.

Lemma foldr_np_maximum_spec (x : Q) (l : list Q) :
  foldr np_maximum x l ∈ x :: l ∧ ∀ y, y ∈ x :: l → y <= foldr np_maximum x l.
Proof.
  induction l as [|z l [IHin IHle]]; cbn [foldr].
  - split; [left|]. intros y Hy. apply list_elem_of_singleton in Hy as ->. lra.
  - assert (∀ y, y ∈ x :: z :: l → y = z ∨ y ∈ x :: l) as Hcase.
    { intros y Hy. apply elem_of_cons in Hy as [->|Hy]; [right; left|].
      apply elem_of_cons in Hy as [->|Hy]; [left; reflexivity|right; right; exact Hy]. }
    unfold np_maximum at 1 3. destruct (Qltb z (foldr np_maximum x l)) eqn:E.
    + apply Qltb_lt in E. split.
      * apply elem_of_cons in IHin as [->|Hin]; [left|right; right; exact Hin].
      * intros y Hy. apply Hcase in Hy as [->|Hy]; [lra|apply IHle; exact Hy].
    + apply Qltb_ge in E. split; [right; left|].
      intros y Hy. apply Hcase in Hy as [->|Hy]; [lra|].
      specialize (IHle y Hy). lra.
Qed.

(** X22.  [min_max_rescaling] raises ValueError on an empty array.  On an
    array of finite numbers that are not all equal, it maps every entry into
    the interval from 0 to 1, the smallest to 0 and the largest to 1, and
    keeps the order of the entries.  On an array whose entries are all
    equal it raises nothing and returns not-a-number in every place. *)
Theorem min_max_rescaling_spec (array : list Q) :
  match array with
  | [] => ∃ msg, min_max_rescaling array = Raise (ValueError msg)
  | _ =>
      ∃ lo hi out,
        np_min array = Ok lo ∧ np_max array = Ok hi
        ∧ min_max_rescaling array = Ok out
        ∧ length out = length array
        ∧ (lo == hi → Forall (λ v, v = NaN) out)
        ∧ (lo < hi →
           (∀ i x, array !! i = Some x →
              ∃ v, out !! i = Some (Finite v)
                   ∧ 0 <= v ∧ v <= 1
                   ∧ (x == lo → v == 0) ∧ (x == hi → v == 1))
           ∧ ∀ i j x y vi vj,
               array !! i = Some x → array !! j = Some y →
               out !! i = Some (Finite vi) → out !! j = Some (Finite vj) →
               x <= y → vi <= vj)
  end.
Proof.
  destruct array as [|x0 l]; [eexists; reflexivity|].
  pose proof (foldr_np_minimum_spec x0 l) as [Hlo_in Hlo].
  pose proof (foldr_np_maximum_spec x0 l) as [Hhi_in Hhi].
  set (array := x0 :: l) in *.
  set (lo := foldr np_minimum x0 l) in *. set (hi := foldr np_maximum x0 l) in *.
  exists lo, hi, (map (λ x, np_truediv (x - lo) (hi - lo)) array).
  split; [reflexivity|]. split; [reflexivity|].
  split; [reflexivity|]. split; [apply length_map|].
  assert (∀ x, x ∈ array → lo < hi →
            np_truediv (x - lo) (hi - lo) = Finite ((x - lo) / (hi - lo))) as Hfin.
  { intros x Hx Hlt. unfold np_truediv.
    destruct (Qeq_bool (hi - lo) 0) eqn:E; [|reflexivity].
    apply Qeq_bool_iff in E. lra. }
  split.
  - intros Heq. apply Forall_forall. intros v Hv.
    apply list_elem_of_fmap in Hv as (x & -> & Hx).
    pose proof (Hlo x Hx). pose proof (Hhi x Hx). unfold np_truediv.
    assert (Qeq_bool (hi - lo) 0 = true) as -> by (apply Qeq_bool_iff; lra).
    assert (Qeq_bool (x - lo) 0 = true) as -> by (apply Qeq_bool_iff; lra).
    reflexivity.
  - intros Hlt. split.
    + intros i x Hi. pose proof (list_elem_of_lookup_2 _ _ _ Hi) as Hx.
      exists ((x - lo) / (hi - lo)). split.
      { rewrite list_lookup_fmap, Hi. cbn. rewrite (Hfin x Hx Hlt). reflexivity. }
      pose proof (Hlo x Hx). pose proof (Hhi x Hx).
      split; [apply Qle_shift_div_l; lra|]. split; [apply Qle_shift_div_r; lra|].
      split; intros E.
      * assert (x - lo == 0) as -> by lra. field. lra.
      * assert (x - lo == hi - lo) as -> by lra. field. lra.
    + intros i j x y vi vj Hi Hj Hvi Hvj Hxy.
      pose proof (list_elem_of_lookup_2 _ _ _ Hi) as Hx.
      pose proof (list_elem_of_lookup_2 _ _ _ Hj) as Hy.
      rewrite list_lookup_fmap, Hi in Hvi. cbn in Hvi. rewrite (Hfin x Hx Hlt) in Hvi.
      rewrite list_lookup_fmap, Hj in Hvj. cbn in Hvj. rewrite (Hfin y Hy Hlt) in Hvj.
      injection Hvi as <-. injection Hvj as <-.
      unfold Qdiv. apply Qmult_le_compat_r; [lra|].
      apply Qlt_le_weak, Qinv_lt_0_compat. lra.
Qed.

(** ** A schedule whose buckets are all closed *)

Lemma update_remaining_volume_length (a : ExecutionAlgo) (trade_log : option TradeLog)
    (event_type : option EventType) :
  length (bucket_vol_remaining (update_remaining_volume a trade_log event_type).1)
  = length (bucket_vol_remaining a).
Proof.
  unfold update_remaining_volume.
  destruct trade_log as [log|]; [destruct (Qltb 0 (quantity log))|];
    cbn [set_vol_remaining bucket_vol_remaining bucket_idx];
    repeat match goal with
      | |- context [match ?l !! ?i with _ => _ end] => destruct (l !! i)
      | |- context [if Qltb ?x ?y then _ else _] => destruct (Qltb x y)
      | |- context [match ?e with Some _ => _ | None => _ end] => destruct e
      | |- context [match ?e with order_placement => _ | bucket_bound => _ end] =>
          destruct e
      end;
    cbn; rewrite ?length_insert; reflexivity.
Qed.

Lemma get_order_at_event_length (a : ExecutionAlgo) (event : Event) (lob : LOB)
    (trade_id : option Z) :
  length (bucket_vol_remaining (get_order_at_event a event lob trade_id).1)
  = length (bucket_vol_remaining a).
Proof.
  unfold get_order_at_event, wrap_order_idx.
  repeat match goal with
    | |- context [if String.eqb ?x ?y then _ else _] => destruct (String.eqb x y)
    | |- context [match py_index ?l ?i ≫= ?f with _ => _ end] =>
        destruct (py_index l i ≫= f)
    | |- context [match py_index ?l ?i with _ => _ end] => destruct (py_index l i)
    | |- context [if (?x =? ?y)%nat then _ else _] => destruct (x =? y)%nat
    | |- context [if (?x <=? ?y)%nat then _ else _] => destruct (x <=? y)%nat
    end;
    reflexivity.
Qed.

Lemma after_calls_length (a : ExecutionAlgo) (calls : list Call) :
  length (bucket_vol_remaining (foldl after_call a calls))
  = length (bucket_vol_remaining a).
Proof.
  revert a. induction calls as [|c calls IH]; intros a; cbn [foldl]; [reflexivity|].
  rewrite IH. destruct c as [trade_log event_type| |event lob trade_id|v];
    cbn [after_call].
  - apply update_remaining_volume_length.
  - destruct (get_next_event a) as [[[event done] a']| |] eqn:E; [|reflexivity..].
    apply get_next_event_same in E as (_ & _ & _ & -> & _). reflexivity.
  - apply get_order_at_event_length.
  - unfold write_cell. destruct (py_index _ _) as [row| |]; [|reflexivity..].
    cbn [mbind result_bind]. destruct (py_index row _); reflexivity.
Qed.

Lemma TWAPAlgo_init_shape_lengths (fuel : nat) (randint : nat → Z)
    (bucket_placement_func : nat → nat → placement_sample) (e : Z)
    (p : OrderParams) (a : ExecutionAlgo) :
  TWAPAlgo_init fuel randint bucket_placement_func e p = Ok a →
  length (volumes_per_trade a) = n_buckets (buckets a)
  ∧ length (bucket_vol_remaining a) = n_buckets (buckets a).
Proof.
  intros H. apply TWAPAlgo_init_inv in H.
  destruct H as (b & draws & bv & ex & ev & calls & sv & _ & Hbv & _ & _ & Hsv & _ & ->).
  cbn [buckets bucket_vol_remaining volumes_per_trade].
  apply split_volume_across_buckets_inv in Hbv
    as (b_first & b_prev & b_last & m & rest & _ & _ & _ & _ & _ & _ & _ & Hrest & ->).
  apply split_across_buckets_Ok_inv in Hrest as [Hrest Hn1].
  unfold _split_volume_within_buckets in Hsv.
  apply split_within_shape in Hsv as (Hsvl & _ & _). rewrite length_seq in Hsvl.
  split; [exact Hsvl|]. rewrite length_app. cbn [length]. lia.
Qed.

(** X23.  Once the bucket cursor of a constructed benchmark schedule has
    moved past the last bucket, at any later point of the episode the
    schedule hands out no order and accepts no update: [get_order_at_event]
    raises IndexError for both event types and leaves the schedule as it is,
    and [update_remaining_volume] raises (IndexError, or the consistency
    error when the global volume is over-drawn) without moving the bucket
    cursor or touching the per-bucket volumes, though a positive fill has by
    then been taken off the global remaining volume. *)
Theorem closed_schedule_raises (fuel : nat) (randint : nat → Z)
    (bucket_placement_func : nat → nat → placement_sample) (e : Z)
    (p : OrderParams) (a : ExecutionAlgo) (calls : list Call) :
  TWAPAlgo_init fuel randint bucket_placement_func e p = Ok a →
  let s := foldl after_call a calls in
  (n_buckets (buckets a) ≤ bucket_idx s)%nat →
  (∀ event lob trade_id,
     ev_type event = "order_placement"%string ∨ ev_type event = "bucket_bound"%string →
     get_order_at_event s event lob trade_id = (s, Raise IndexError))
  ∧ (∀ trade_log event_type,
       ∃ s' err,
         update_remaining_volume s trade_log event_type = (s', Raised err)
         ∧ (err = IndexError ∨ Raised err = too_much_volume)
         ∧ bucket_idx s' = bucket_idx s
         ∧ bucket_vol_remaining s' = bucket_vol_remaining s
         ∧ vol_remaining s' == vol_remaining s - filled trade_log).
Proof.
  intros Hinit s Hclosed.
  pose proof (after_calls_same a calls) as Hsame. fold s in Hsame.
  destruct Hsame as (_ & _ & _ & _ & _ & _ & _ & _ & _ & Hrows).
  pose proof (after_calls_length a calls) as Hlen. fold s in Hlen.
  pose proof (TWAPAlgo_init_shape_lengths _ _ _ _ _ _ Hinit) as [Hl1 Hl2].
  assert (volumes_per_trade s !! bucket_idx s = None) as Hrow
    by (apply lookup_ge_None; lia).
  assert (bucket_vol_remaining s !! bucket_idx s = None) as Hrem
    by (apply lookup_ge_None; lia).
  split.
  - intros event lob trade_id [Htype|Htype];
      unfold get_order_at_event, py_index; rewrite Htype, ?Hrow, ?Hrem; reflexivity.
  - intros trade_log event_type. unfold update_remaining_volume, filled.
    assert (∀ b : ExecutionAlgo,
              bucket_vol_remaining b !! bucket_idx b = None →
              ∃ err,
                (if Qltb (vol_remaining b)
                      (- Dval (tick_size b)
                       * inject_Z (Z.of_nat (length (bucket_volumes b))))
                 then (b, too_much_volume)
                 else match bucket_vol_remaining b !! bucket_idx b with
                      | None => (b, Raised IndexError)
                      | Some v =>
                          if Qltb v (- Dval (tick_size b)) then (b, too_much_volume)
                          else match event_type with
                               | Some bucket_bound =>
                                   (set_bucket_idx (bucket_idx b + 1) b, Returned)
                               | _ => (b, Returned)
                               end
                      end) = (b, Raised err)
                ∧ (err = IndexError ∨ Raised err = too_much_volume)) as Hcheck.
    { intros b Hb. rewrite Hb. destruct (Qltb _ _).
      - eexists. split; [reflexivity|]. right. reflexivity.
      - eexists. split; [reflexivity|]. left. reflexivity. }
    destruct trade_log as [log|].
    + destruct (Qltb 0 (quantity log)) eqn:Hpos.
      * cbn [bucket_vol_remaining bucket_idx set_vol_remaining]. rewrite Hrem.
        exists (set_vol_remaining (vol_remaining s - quantity log) s), IndexError.
        split; [reflexivity|]. split; [left; reflexivity|].
        cbn [bucket_idx bucket_vol_remaining vol_remaining set_vol_remaining].
        repeat split; reflexivity.
      * destruct (Hcheck s Hrem) as (err & -> & Herr). exists s, err.
        split; [reflexivity|]. split; [exact Herr|].
        split; [reflexivity|]. split; [reflexivity|ring].
    + destruct (Hcheck s Hrem) as (err & -> & Herr). exists s, err.
      split; [reflexivity|]. split; [exact Herr|].
      split; [reflexivity|]. split; [reflexivity|ring].
Qed.

Lemma closed_schedule_raises_witness :
  let s := foldl after_call two_bucket_algo
             [CallUpdate None (Some bucket_bound); CallUpdate None (Some bucket_bound)] in
  (∀ event lob trade_id,
     ev_type event = "order_placement"%string ∨ ev_type event = "bucket_bound"%string →
     get_order_at_event s event lob trade_id = (s, Raise IndexError))
  ∧ (∀ trade_log event_type,
       ∃ s' err,
         update_remaining_volume s trade_log event_type = (s', Raised err)
         ∧ (err = IndexError ∨ Raised err = too_much_volume)
         ∧ bucket_idx s' = bucket_idx s
         ∧ bucket_vol_remaining s' = bucket_vol_remaining s
         ∧ vol_remaining s' == vol_remaining s - filled trade_log).
Proof.
  apply (closed_schedule_raises 5 (λ _, 0%Z) midpoint_placement 0 two_bucket_order
           two_bucket_algo
           [CallUpdate None (Some bucket_bound); CallUpdate None (Some bucket_bound)]).
  - apply two_bucket_algo_built.
  - vm_compute. lia.
Defined.

(** ** The two schedules of an episode *)

Lemma get_next_event_lockstep (a b : ExecutionAlgo) :
  algo_events a = algo_events b → execution_times a = execution_times b →
  event_idx a = event_idx b →
  match get_next_event a, get_next_event b with
  | Ok (event, done, a'), Ok (event', done', b') =>
      event = event' ∧ done = done'
      ∧ algo_events a' = algo_events b' ∧ execution_times a' = execution_times b'
      ∧ event_idx a' = event_idx b'
  | Raise err, Raise err' => err = err'
  | OutOfFuel, OutOfFuel => True
  | _, _ => False
  end.
Proof.
  intros Hev Hex Hidx. unfold get_next_event. rewrite Hev, Hex, Hidx.
  destruct (py_index (algo_events b) (event_idx b)) as [t| |]; cbn [mbind result_bind];
    [|reflexivity|exact I].
  destruct (bool_decide _); cbn [algo_events execution_times event_idx set_event_idx];
    repeat split; assumption.
Qed.

(** X24.  The adaptive schedule built from a benchmark schedule steps through
    the same events as the benchmark: at any point of an episode at which
    the event cursors of the two agree, any number of calls of
    [get_next_event] on the one and on the other return the same events with
    the same [done] flags, or fail alike. *)
Theorem schedules_in_lockstep (benchmark : ExecutionAlgo) (calls_bmk calls_rl : list Call)
    (k : nat) :
  let bmk := foldl after_call benchmark calls_bmk in
  let rl := foldl after_call (RLAlgo_init benchmark) calls_rl in
  event_idx bmk = event_idx rl →
  fst <$> run_events k rl = fst <$> run_events k bmk.
Proof.
  intros bmk rl Hidx.
  assert (∀ a b, algo_events a = algo_events b → execution_times a = execution_times b →
                 event_idx a = event_idx b →
                 fst <$> run_events k a = fst <$> run_events k b) as H.
  { induction k as [|k IH]; intros a b Hev Hex Hi; [reflexivity|].
    cbn [run_events].
    pose proof (get_next_event_lockstep a b Hev Hex Hi) as Hstep.
    destruct (get_next_event a) as [[[event done] a']|err|],
             (get_next_event b) as [[[event' done'] b']|err'|];
      try contradiction; cbn [mbind result_bind fmap result_fmap].
    - destruct Hstep as (-> & -> & Hev' & Hex' & Hi').
      specialize (IH a' b' Hev' Hex' Hi').
      destruct (run_events k a') as [[rest a'']| |],
               (run_events k b') as [[rest' b'']| |];
        cbn [mbind result_bind fmap result_fmap fst] in *; congruence.
    - congruence.
    - reflexivity. }
  pose proof (after_calls_same benchmark calls_bmk) as Hb. fold bmk in Hb.
  pose proof (after_calls_same (RLAlgo_init benchmark) calls_rl) as Hr. fold rl in Hr.
  destruct Hb as (_ & _ & _ & _ & _ & _ & Hbex & Hbev & _).
  destruct Hr as (_ & _ & _ & _ & _ & _ & Hrex & Hrev & _).
  apply H.
  - rewrite Hrev, Hbev. reflexivity.
  - rewrite Hrex, Hbex. reflexivity.
  - symmetry. exact Hidx.
Qed.

Lemma schedules_in_lockstep_witness :
  fst <$> run_events 4 (foldl after_call (RLAlgo_init two_bucket_algo) [CallWrite 1])
  = fst <$> run_events 4 (foldl after_call two_bucket_algo []).
Proof.
  apply (schedules_in_lockstep two_bucket_algo [] [CallWrite 1] 4). reflexivity.
Defined.

(** ** The conversions of the action *)

(** X25.  [NarrowTradeLimitEnvContinuous._convert_action] maps an action
    space from [low] to [high], [low < high], onto the factors from 0.8 to
    1.2: [low] goes to 0.8, [high] to 1.2, a larger action to a factor at
    least as large, and every action within the space to a factor within
    0.8 and 1.2.  With [low = high] it raises nothing and returns no finite
    number. *)
Theorem continuous_convert_action_range (low high : Q) :
  (low < high →
   ∃ f : Q → Q,
     (∀ action, continuous_convert_action low high action = Finite (f action))
     ∧ f low == 8 # 10 ∧ f high == 12 # 10
     ∧ (∀ x y, x <= y → f x <= f y)
     ∧ (∀ action, low <= action → action <= high →
                  8 # 10 <= f action ∧ f action <= 12 # 10))
  ∧ (low == high → ∀ action v, continuous_convert_action low high action ≠ Finite v).
Proof.
  split.
  - intros Hlt.
    exists (λ action, (8 # 10) + (action - low) / (high - low) * ((12 # 10) - (8 # 10))).
    assert (0 < high - low) as Hpos by lra.
    assert (∀ x y, x <= y → (x - low) / (high - low) <= (y - low) / (high - low)) as Hmono.
    { intros x y Hxy. unfold Qdiv. apply Qmult_le_compat_r; [lra|].
      apply Qlt_le_weak, Qinv_lt_0_compat. exact Hpos. }
    assert ((low - low) / (high - low) == 0) as E0 by (field; lra).
    assert ((high - low) / (high - low) == 1) as E1 by (field; lra).
    split.
    { intros action. unfold continuous_convert_action, np_truediv. cbv zeta.
      destruct (Qeq_bool (high - low) 0) eqn:E; [|reflexivity].
      apply Qeq_bool_iff in E. lra. }
    split; [rewrite E0; reflexivity|]. split; [rewrite E1; reflexivity|].
    split.
    + intros x y Hxy. specialize (Hmono x y Hxy).
      assert ((x - low) / (high - low) * ((12 # 10) - (8 # 10))
              <= (y - low) / (high - low) * ((12 # 10) - (8 # 10)))
        by (apply Qmult_le_compat_r; [exact Hmono|vm_compute; discriminate]).
      lra.
    + intros action Hlo Hhi.
      pose proof (Hmono low action Hlo) as H0. rewrite E0 in H0.
      pose proof (Hmono action high Hhi) as H1. rewrite E1 in H1.
      set (r := (action - low) / (high - low)) in *.
      assert ((12 # 10) - (8 # 10) == 4 # 10) as -> by reflexivity.
      split; lra.
  - intros Heq action v. unfold continuous_convert_action, np_truediv. cbv zeta.
    assert (Qeq_bool (high - low) 0 = true) as -> by (apply Qeq_bool_iff; lra).
    destruct (Qeq_bool (action - low) 0); [discriminate|].
    destruct (Qltb 0 (action - low)); discriminate.
Qed.

(** X26.  [DollarRewardAtStepEnv._convert_action] on a constructed benchmark
    schedule always returns, and never returns not-a-number: a finite action
    is scaled by one tenth, and an action that is not a number is replaced
    by the share [1 / no_of_slices], which lies above 0 and is at most 1. *)
Theorem dollar_convert_action_total (fuel : nat) (randint : nat → Z)
    (bucket_placement_func : nat → nat → placement_sample) (e : Z)
    (p : OrderParams) (a : ExecutionAlgo) (action : npfloat) :
  TWAPAlgo_init fuel randint bucket_placement_func e p = Ok a →
  ∃ v,
    dollar_convert_action (no_of_slices a) action = Ok v
    ∧ v ≠ NaN
    ∧ (∀ x, action = Finite x → v = Finite (x * (1 # 10)))
    ∧ (action = NaN →
       ∃ share, v = Finite share ∧ 0 < share ∧ share <= 1
                ∧ share * inject_Z (Z.of_nat (no_of_slices a)) == 1).
Proof.
  intros H. apply TWAPAlgo_init_slices_pos in H.
  assert (1 <= inject_Z (Z.of_nat (no_of_slices a))) as Hn.
  { change 1 with (inject_Z 1). rewrite <- Zle_Qle. lia. }
  unfold dollar_convert_action. destruct action as [x| | |]; cbn [np_scale].
  - eexists. split; [reflexivity|]. split; [discriminate|].
    split; [intros y [= ->]; reflexivity|discriminate].
  - eexists. split; [reflexivity|]. split; [discriminate|].
    split; discriminate.
  - eexists. split; [reflexivity|]. split; [discriminate|].
    split; discriminate.
  - rewrite py_truediv_ok by lra. cbn [mbind result_bind].
    eexists. split; [reflexivity|]. split; [discriminate|].
    split; [discriminate|]. intros _. eexists. split; [reflexivity|].
    split; [apply Qlt_shift_div_l; lra|]. split; [apply Qle_shift_div_r; lra|].
    field. lra.
Qed.

Lemma dollar_convert_action_total_witness :
  ∃ v,
    dollar_convert_action (no_of_slices two_bucket_algo) NaN = Ok v
    ∧ v ≠ NaN
    ∧ (∀ x, NaN = Finite x → v = Finite (x * (1 # 10)))
    ∧ (NaN = NaN →
       ∃ share, v = Finite share ∧ 0 < share ∧ share <= 1
                ∧ share * inject_Z (Z.of_nat (no_of_slices two_bucket_algo)) == 1).
Proof.
  apply (dollar_convert_action_total 5 (λ _, 0%Z) midpoint_placement 0 two_bucket_order
           two_bucket_algo NaN).
  apply two_bucket_algo_built.
Defined.

(** ** The configuration and its defaults *)

Lemma dict_get_None {V} (d : dict V) (k : string) : k ∉ d.*1 → dict_get d k = None.
Proof.
  induction d as [|[k' v] d IH]; intros Hk; [reflexivity|].
  cbn [dict_get]. destruct (String.eqb_spec k' k) as [->|Hne].
  - exfalso. apply Hk. left.
  - apply IH. intros Hin. apply Hk. right. exact Hin.
Qed.

Lemma dict_get_elem_of {V} (d : dict V) (k : string) (v : V) :
  dict_get d k = Some v → (k, v) ∈ d.
Proof.
  induction d as [|[k' v'] d IH]; intros H; [discriminate|].
  cbn [dict_get] in H. destruct (String.eqb_spec k' k) as [->|Hne].
  - injection H as ->. left.
  - right. apply IH. exact H.
Qed.

Lemma dict_get_set {V} (d : dict V) (k k' : string) (v : V) :
  dict_get (dict_set d k v) k' = if String.eqb k k' then Some v else dict_get d k'.
Proof.
  induction d as [|[k0 v0] d IH]; cbn [dict_set dict_get]; [reflexivity|].
  destruct (String.eqb_spec k0 k) as [->|Hne]; cbn [dict_get].
  - destruct (String.eqb_spec k k'); reflexivity.
  - rewrite IH. destruct (String.eqb_spec k0 k') as [->|Hne'];
      destruct (String.eqb_spec k k') as [->|Hne'']; congruence.
Qed.

Lemma dict_get_merge {V} (base over : dict V) (k : string) :
  NoDup over.*1 →
  dict_get (dict_merge base over) k
  = match dict_get over k with
    | Some v => Some v
    | None => dict_get base k
    end.
Proof.
  unfold dict_merge. revert base. induction over as [|[k0 v0] over IH];
    intros base Hnd; [reflexivity|].
  cbn [fmap list_fmap fst] in Hnd. apply NoDup_cons in Hnd as [Hk0 Hnd].
  cbn [foldl fst snd dict_get]. rewrite (IH _ Hnd), dict_get_set.
  destruct (String.eqb_spec k0 k) as [->|Hne]; [|reflexivity].
  rewrite (dict_get_None over k Hk0). reflexivity.
Qed.

Lemma check_keys_None (allowed items : dict value) :
  check_keys allowed items = None →
  ∀ ky val, (ky, val) ∈ items → is_Some (dict_get allowed ky).
Proof.
  induction items as [|[ky' val'] items IH]; intros H ky val Hin.
  - apply elem_of_nil in Hin. contradiction.
  - cbn [check_keys] in H. destruct (dict_get allowed ky') eqn:E; [|discriminate].
    apply elem_of_cons in Hin as [[= -> ->]|Hin]; [eauto|].
    eapply IH; eassumption.
Qed.

Lemma check_sections_None (items : dict (dict value)) :
  check_sections items = None →
  ∀ k v, (k, v) ∈ items →
    ∃ allowed, dict_get DEFAULT_ENV_CONFIG k = Some allowed
               ∧ check_keys allowed v = None.
Proof.
  induction items as [|[k' v'] items IH]; intros H k v Hin.
  - apply elem_of_nil in Hin. contradiction.
  - cbn [check_sections] in H.
    destruct (dict_get DEFAULT_ENV_CONFIG k') as [allowed|] eqn:E; [|discriminate].
    destruct (check_keys allowed v') eqn:Ek; [discriminate|].
    apply elem_of_cons in Hin as [[= -> ->]|Hin]; [eauto|].
    eapply IH; eassumption.
Qed.

Lemma config_item_inr (config : dict (dict value)) (section key : string) (v : value) :
  config_item config section key = inr v →
  ∃ d, dict_get config section = Some d ∧ dict_get d key = Some v.
Proof.
  unfold config_item. intros H.
  destruct (dict_get config section) as [d|]; [|discriminate].
  destruct (dict_get d key) as [v'|] eqn:E; [|discriminate].
  injection H as ->. eauto.
Qed.

Lemma check_order_None (config : dict (dict value)) (section low high msg : string) :
  check_order config section low high msg = None →
  ∃ d, dict_get config section = Some d
       ∧ is_Some (dict_get d low) ∧ is_Some (dict_get d high).
Proof.
  unfold check_order. intros H.
  destruct (config_item config section low) as [|x] eqn:El; [discriminate|].
  destruct (config_item config section high) as [|y] eqn:Eh; [discriminate|].
  apply config_item_inr in El as (d & Hd & Hl).
  apply config_item_inr in Eh as (d' & Hd' & Hh).
  rewrite Hd in Hd'. injection Hd' as <-. exists d. eauto.
Qed.

(** X27.  The defaults are merged section by section, not setting by
    setting: when the validation of a configuration merged with the defaults
    passes, every section that the configuration gives is a section of the
    defaults, holds only settings that the defaults have in that section,
    and states itself every setting of that section that the validation
    reads; the defaults fill in sections that are left out, not settings
    that are left out of a section. *)
Theorem merged_config_sections (config : dict (dict value)) (name : string)
    (section : dict value) :
  NoDup config.*1 →
  validate_config_dict (add_default_dict config) = None →
  dict_get config name = Some section →
  (∃ allowed,
     dict_get DEFAULT_ENV_CONFIG name = Some allowed
     ∧ ∀ key v, (key, v) ∈ section → is_Some (dict_get allowed key))
  ∧ ∀ key, (name, key) ∈ validated_keys → is_Some (dict_get section key).
Proof.
  intros Hnd Hvalid Hsection.
  assert (dict_get (add_default_dict config) name = Some section) as Hmerged.
  { unfold add_default_dict. rewrite (dict_get_merge _ _ _ Hnd), Hsection. reflexivity. }
  unfold validate_config_dict in Hvalid. cbn [first_error] in Hvalid.
  set (merged := add_default_dict config) in *.
  destruct (check_sections merged) eqn:Hsec; [discriminate|].
  destruct (config_item merged "obs_config" "lob_depth") as [|x1] eqn:H1;
    [discriminate|].
  destruct (value_gt x1 (VInt 20)) as [|[]]; try discriminate.
  destruct (check_order merged "trade_config" "vol_low" "vol_high" _) eqn:H2;
    [discriminate|].
  destruct (check_order merged "trade_config" "no_slices_low" "no_slices_high" _) eqn:H3;
    [discriminate|].
  destruct (check_order merged "trade_config" "rand_bucket_low" "rand_bucket_high" _)
    eqn:H4; [discriminate|].
  destruct (config_item merged "trade_config" "rand_bucket_low") as [|x5] eqn:H5;
    [discriminate|].
  destruct (value_gt (VInt 0) x5) as [|[]]; try discriminate.
  destruct (config_item merged "trade_config" "rand_bucket_high") as [|x6] eqn:H6;
    [discriminate|].
  destruct (value_gt x6 (VInt 100)) as [|[]]; try discriminate.
  destruct (check_order merged "start_config" "hour_low" "hour_high" _) eqn:H7;
    [discriminate|].
  destruct (check_order merged "start_config" "minute_low" "minute_high" _) eqn:H8;
    [discriminate|].
  destruct (check_order merged "start_config" "second_low" "second_high" _) eqn:H9;
    [discriminate|].
  destruct (config_item merged "exec_config" "delete_vol") as [|x10] eqn:H10;
    [discriminate|].
  clear Hvalid. split.
  - destruct (check_sections_None merged Hsec name section
                (dict_get_elem_of _ _ _ Hmerged)) as (allowed & Hallowed & Hkeys).
    exists allowed. split; [exact Hallowed|].
    intros key v Hin. eapply check_keys_None; eassumption.
  - apply config_item_inr in H1 as (d1 & Hd1 & Hk1).
    apply check_order_None in H2 as (d2 & Hd2 & Hk2 & Hk2').
    apply check_order_None in H3 as (d3 & Hd3 & Hk3 & Hk3').
    apply check_order_None in H4 as (d4 & Hd4 & Hk4 & Hk4').
    apply check_order_None in H7 as (d7 & Hd7 & Hk7 & Hk7').
    apply check_order_None in H8 as (d8 & Hd8 & Hk8 & Hk8').
    apply check_order_None in H9 as (d9 & Hd9 & Hk9 & Hk9').
    apply config_item_inr in H10 as (d10 & Hd10 & Hk10).
    intros key Hkey. unfold validated_keys in Hkey.
    repeat (apply elem_of_cons in Hkey as [[= -> ->]|Hkey];
            [rewrite Hmerged in *;
             repeat match goal with
                    | H : Some section = Some _ |- _ => injection H as <-
                    end; eauto|]).
    apply elem_of_nil in Hkey. contradiction.
Qed.

Lemma merged_config_sections_witness :
  (∃ allowed,
     dict_get DEFAULT_ENV_CONFIG "exec_config" = Some allowed
     ∧ ∀ key v, (key, v) ∈ [("exec_times"%string, VOther); ("delete_vol"%string, VBool true)] →
                is_Some (dict_get allowed key))
  ∧ ∀ key, ("exec_config"%string, key) ∈ validated_keys →
           is_Some (dict_get [("exec_times"%string, VOther);
                              ("delete_vol"%string, VBool true)] key).
Proof.
  apply (merged_config_sections
           [("exec_config"%string,
             [("exec_times"%string, VOther); ("delete_vol"%string, VBool true)])]
           "exec_config"
           [("exec_times"%string, VOther); ("delete_vol"%string, VBool true)]).
  - repeat constructor. intros H. apply elem_of_nil in H. exact H.
  - reflexivity.
  - reflexivity.
Defined.
